(** * PredictIQ: the epic/child linkage and metrics engine of [DataProcessor]

    A shallow embedding of the [DataProcessor] class (column resolver,
    hierarchy builder, time/SLA engine, metrics aggregator), followed by the
    properties its specification states about it.

    Modelling conventions.
    - Strings.  JavaScript strings are [string]s; [toLowerCase] and the
      regular-expression classes act on the ASCII range and leave other
      bytes alone.
    - Numbers.  JavaScript numbers are exact rationals ([Q]): rounding,
      overflow and the infinities of IEEE doubles are abstracted away.
      [NaN] is modelled where the code can produce it ([parseFloat] returns
      an [option]).
    - Built-ins.  [parseFloat] and [localeCompare] are parameters of the
      hierarchy builder; the examples instantiate them.
    - Exceptions.  A function that can throw returns a [result], [Ok] or
      [Throw]; [try]/[catch] is [tryCatch].
    - Objects.  A CSV row is a finite map from header to cell text, read
      through its own properties.  Where the code uses a plain object as a
      map under keys taken from the data ([thresholds], [sprints]), reads
      also see the members inherited from [Object.prototype].  The elements
      of an array of epics are epic objects.
    - Sharing.  The epic objects are mutated while reachable from the
      [epics] array, the [epicsByKey] map and the per-project groups: they
      live in a store (a list in creation order) and are referred to by
      their position in it.
    - Logging ([console.log] and friends) has no bearing on the results and
      is left out, as are the counters that only feed it. *)

From Stdlib Require Import QArith ZArith String Ascii List Qround DecimalString Sorted.
From stdpp Require Import gmap strings list.

Local Open Scope Z_scope.
Local Open Scope string_scope.
Local Open Scope list_scope.

(** ** Exceptions *)

Inductive Exn :=
| TypeError (message : string)
| Error (message : string).

Definition message (e : Exn) : string :=
  match e with TypeError m => m | Error m => m end.

Inductive result (A : Type) :=
| Ok (a : A)
| Throw (e : Exn).
Arguments Ok {A} a.
Arguments Throw {A} e.

#[global] Instance result_ret : MRet result := fun A a => Ok a.
#[global] Instance result_bind : MBind result := fun A B f m =>
  match m with Ok a => f a | Throw e => Throw e end.

Definition tryCatch {A} (body : result A) (handler : Exn -> result A) : result A :=
  match body with Ok a => Ok a | Throw e => handler e end.

(** ** Strings *)

Module JsString.

Definition chars (s : string) : list ascii := list_ascii_of_string s.
Definition ofChars (l : list ascii) : string := string_of_list_ascii l.

Definition code (c : ascii) : N := N_of_ascii c.

(** [\d] *)
Definition isDigit (c : ascii) : bool := ((48 <=? code c) && (code c <=? 57))%N.
(** [[A-Z]] *)
Definition isUpper (c : ascii) : bool := ((65 <=? code c) && (code c <=? 90))%N.
(** [\s], on ASCII: tab, line feed, vertical tab, form feed, carriage
    return, space. *)
Definition isSpace (c : ascii) : bool :=
  ((9 <=? code c) && (code c <=? 13) || (code c =? 32))%N.

Definition lowerChar (c : ascii) : ascii :=
  if isUpper c then ascii_of_N (code c + 32) else c.

Definition toLowerCase (s : string) : string := ofChars (map lowerChar (chars s)).

(** [s.replace(/[...]/g, '')] for a character class given as a predicate. *)
Definition removeAll (cls : ascii -> bool) (s : string) : string :=
  ofChars (filter (fun c => negb (cls c)) (chars s)).

Fixpoint isPrefix (p s : list ascii) : bool :=
  match p, s with
  | [], _ => true
  | a :: p', b :: s' => if Ascii.eqb a b then isPrefix p' s' else false
  | _ :: _, [] => false
  end.

Fixpoint includesChars (s p : list ascii) : bool :=
  isPrefix p s || match s with [] => false | _ :: s' => includesChars s' p end.

(** [s.includes(p)] *)
Definition includes (s p : string) : bool := includesChars (chars s) (chars p).

(** A string is truthy when it is not empty. *)
Definition nonEmpty (s : string) : bool :=
  match s with EmptyString => false | String _ _ => true end.

End JsString.
Import JsString.

(** A property read [obj[k]] that may be [undefined]: truthy when present
    and non-empty. *)
Definition truthyStr (o : option string) : bool :=
  match o with Some s => nonEmpty s | None => false end.

(** [x?.toLowerCase()] *)
Definition optLower (o : option string) : option string := toLowerCase <$> o.

(** ** Numbers *)

Definition digitVal (c : ascii) : N := (code c - 48)%N.

(** [parseInt] on a non-empty run of decimal digits. *)
Definition parseDigits (ds : list ascii) : N :=
  fold_left (fun acc c => (10 * acc + digitVal c)%N) ds 0%N.

(** ** Time/SLA engine: [parseTimeInStatus] *)

(** The longest run of digits at the head of the text, and what follows. *)
Fixpoint spanDigits (s : list ascii) : list ascii * list ascii :=
  match s with
  | c :: s' =>
      if isDigit c then let '(ds, rest) := spanDigits s' in (c :: ds, rest)
      else ([], s)
  | [] => ([], [])
  end.

(** An attempt to match [(\d+)u] at the head of the text.  The greedy
    [\d+] takes the whole run of digits; giving digits back cannot help,
    as the next character would then be a digit and not [u]. *)
Definition matchHere (u : ascii) (s : list ascii) : option (list ascii) :=
  match spanDigits s with
  | (d :: ds, c :: _) => if Ascii.eqb c u then Some (d :: ds) else None
  | _ => None
  end.

(** [s.match(/(\d+)u/)?.[1]]: the start positions are tried from left to
    right and the first match gives the capture. *)
Fixpoint capture (u : ascii) (s : list ascii) : option (list ascii) :=
  match matchHere u s with
  | Some ds => Some ds
  | None => match s with [] => None | _ :: s' => capture u s' end
  end.

(** [parseInt(s.match(/(\d+)u/)?.[1] || 0)] *)
Definition count (u : ascii) (s : string) : N :=
  match capture u (chars s) with
  | Some ds => parseDigits ds
  | None => 0%N
  end.

Definition QofN (n : N) : Q := inject_Z (Z.of_N n).

(** The primitive values a caller can pass where a string is expected.  A
    symbol carries its optional description.  Objects are not modelled:
    what [match] and the conversion to a string do on an object is up to
    the object. *)
Inductive JsVal :=
| VUndefined
| VNull
| VBool (b : bool)
| VNumber (q : Q)
| VNaN
| VString (s : string)
| VSymbol (description : option string).

Definition truthy (v : JsVal) : bool :=
  match v with
  | VUndefined | VNull | VNaN => false
  | VBool b => b
  | VNumber q => negb (Qeq_bool q 0)
  | VString s => nonEmpty s
  | VSymbol _ => true
  end.

Definition isString (v : JsVal) (s : string) : bool :=
  match v with VString t => String.eqb t s | _ => false end.


(** The conversion of a value to a string inside a template literal,
    [`${v}`].  Only whether it succeeds matters here: the text goes to the
    console.  A symbol cannot be converted. *)
Definition templateLiteral (v : JsVal) : result unit :=
  match v with
  | VSymbol _ => Throw (TypeError "Cannot convert a Symbol value to a string")
  | _ => Ok tt
  end.

(** The body of the [try] block of [parseTimeInStatus].  Of the primitive
    values only a string has a [match] method. *)
Definition parseTimeInStatus_body (timeString : JsVal) : result Q :=
  match timeString with
  | VString s =>
      let weeks := count "w" s in
      let daysMatch := count "d" s in
      let hours := count "h" s in
      Ok (0 + (QofN weeks * 7 + QofN daysMatch + QofN hours / 24))%Q
  | _ => Throw (TypeError "timeString.match is not a function")
  end.

(** The [catch] block builds its warning with [`... "${timeString}" ...`]
    before it returns [0]. *)
Definition parseTimeInStatus (timeString : JsVal) : result Q :=
  if negb (truthy timeString) || isString timeString "-" || isString timeString "No data"
  then Ok 0%Q
  else tryCatch (parseTimeInStatus_body timeString)
         (fun _ => _ ← templateLiteral timeString; Ok 0%Q).

(** *** What the extraction computes

    [Pair u s]: somewhere in [s] a digit is immediately followed by [u];
    this is when [/(\d+)u/] matches at all.  [Extracted u s n]: [n] is the
    number written by the first run of digits that is immediately followed
    by [u], or [0] when there is none. *)

Definition Pair (u : ascii) (s : list ascii) : Prop :=
  exists pre d post, s = pre ++ d :: u :: post /\ isDigit d = true.

Definition EndsOpen (pre : list ascii) : Prop :=
  forall pre' c, pre = pre' ++ [c] -> isDigit c = false.

Inductive Extracted (u : ascii) (s : list ascii) : N -> Prop :=
| Extracted_absent :
    ~ Pair u s -> Extracted u s 0%N
| Extracted_first pre ds post :
    s = pre ++ ds ++ u :: post ->
    ds <> [] -> Forall (fun c => isDigit c = true) ds ->
    EndsOpen pre -> ~ Pair u pre ->
    Extracted u s (parseDigits ds).

(** The spec's reading of the extraction: the unit letters in either case. *)
Definition parseDuration_spec (text : string) : Q :=
  let s := toLowerCase text in
  (QofN (count "w" s) * 7 + QofN (count "d" s) + QofN (count "h" s) / 24)%Q.

(** ** Plain objects used as maps

    A property read [obj[k]] on a plain object finds the object's own
    property, or else a property inherited from [Object.prototype]. *)

Definition objectPrototypeProps : list string :=
  ["constructor"; "__proto__"; "toString"; "valueOf"; "toLocaleString";
   "hasOwnProperty"; "isPrototypeOf"; "propertyIsEnumerable";
   "__defineGetter__"; "__defineSetter__"; "__lookupGetter__"; "__lookupSetter__"].

(** [arr.includes(x)] on an array of strings. *)
Definition arrayIncludes (arr : list string) (x : string) : bool :=
  existsb (String.eqb x) arr.

Inductive PropRead (V : Type) :=
| Own (v : V)
| Inherited
| Undefined.
Arguments Own {V} v.
Arguments Inherited {V}.
Arguments Undefined {V}.

Definition getProp {V} (obj : gmap string V) (k : string) : PropRead V :=
  match obj !! k with
  | Some v => Own v
  | None => if arrayIncludes objectPrototypeProps k then Inherited else Undefined
  end.

(** The property name a value is converted to in [obj[x]]. *)
Definition propKey (x : option string) : string := default "undefined" x.

(** ** SLA thresholds and classification *)

Definition COMPLETED_STATUSES : list string :=
  ["done"; "completed"; "closed"; "released"; "deployed to production"; "signed off"].

(** [COMPLETED_STATUSES.includes(status?.toLowerCase())] *)
Definition isCompleted (status : option string) : bool :=
  match optLower status with
  | Some s => arrayIncludes COMPLETED_STATUSES s
  | None => false
  end.

Definition defaultThresholds : gmap string Z :=
  list_to_map
    [("to do", 15); ("todo", 15);
     ("refinement", 10); ("refinement ready", 10); ("ready for refinement", 10);
     ("in progress", 20); ("in development", 20);
     ("paused", 20);
     ("default", 30)].

(** [window.slaConfig], when present, holds the configured thresholds. *)
Definition getSLAThresholds (slaConfig : option (gmap string Z)) : gmap string Z :=
  match slaConfig with
  | Some thresholds => thresholds
  | None => defaultThresholds
  end.

(** What [thresholds[k] || thresholds.default] evaluates to: a number of
    days, [undefined], or an inherited member of [Object.prototype]. *)
Inductive Threshold :=
| Days (z : Z)
| NoThreshold
| NotANumber.

Definition lookupThreshold (thresholds : gmap string Z) (k : string) : Threshold :=
  match getProp thresholds k with
  | Own z => if Z.eqb z 0
             then match getProp thresholds "default" with Own d => Days d | _ => NoThreshold end
             else Days z
  | Inherited => NotANumber
  | Undefined => match getProp thresholds "default" with Own d => Days d | _ => NoThreshold end
  end.

(** [days >= threshold]; a comparison with [undefined] or with an object
    goes through [NaN] and is false. *)
Definition reaches (days : Q) (threshold : Threshold) : bool :=
  match threshold with
  | Days z => Qle_bool (inject_Z z) days
  | NoThreshold | NotANumber => false
  end.

Record SLAStatus := { class : string; text : string }.

Definition slaClosed : SLAStatus := {| class := "closed"; text := "Closed" |}.
Definition slaAtRisk : SLAStatus := {| class := "at-risk"; text := "At Risk" |}.
Definition slaOnTrack : SLAStatus := {| class := "on-track"; text := "On Track" |}.
Definition slaUnknown : SLAStatus := {| class := "on-track"; text := "Unknown" |}.

Definition calculateSLAStatus (slaConfig : option (gmap string Z))
    (status : option string) (timeString : JsVal) : result SLAStatus :=
  if isCompleted status then Ok slaClosed
  else
    days ← parseTimeInStatus timeString;
    let thresholds := getSLAThresholds slaConfig in
    let threshold := lookupThreshold thresholds (propKey (optLower status)) in
    Ok (if reaches days threshold then slaAtRisk else slaOnTrack).

(** The spec's reading of the threshold lookup: the default entry is used
    exactly when the status is not listed. *)
Definition lookupThreshold_spec (thresholds : gmap string Z) (k : string) : option Z :=
  match thresholds !! k with
  | Some z => Some z
  | None => thresholds !! "default"
  end.

Definition calculateSLAStatus_spec (thresholds : gmap string Z)
    (status : string) (days : Q) : SLAStatus :=
  if arrayIncludes COMPLETED_STATUSES (toLowerCase status) then slaClosed
  else match lookupThreshold_spec thresholds (toLowerCase status) with
       | Some z => if Qle_bool (inject_Z z) days then slaAtRisk else slaOnTrack
       | None => slaOnTrack
       end.

(** ** The data model *)

(** A raw CSV row: header name to cell text.  A read of a column the row
    does not have is [undefined] ([None]). *)
Abbreviation Record_ := (gmap string string).

Module Child.
Record t := {
  id : option string;
  key : option string;
  name : string;
  type : option string;
  status : string;
  sprint : string;
  storyPoints : Q;
  parentEpicId : option string;
  isCompleted : bool;
  matchMethod : option string
}.
End Child.

(** The [timeInStatus: {}] placeholder of a fresh epic carries no
    information and is overwritten by [mergeEpicData]; it has no field
    here. *)
Module Epic.
Record t := {
  id : option string;
  key : option string;
  issueId : option string;
  name : option string;
  status : option string;
  sprint : string;
  storyPoints : Q;
  created : option string;
  assignee : string;
  creator : string;
  component : string;
  project : string;
  children : list Child.t;
  totalStoryPoints : Q;
  completedStoryPoints : Q
}.
End Epic.

(** An epic after [mergeEpicData]: [{...epic, timeInStatus, cycleTime, slaStatus}]. *)
Module Merged.
Record t := {
  epic : Epic.t;
  timeInStatus : string;
  cycleTime : string;
  slaStatus : SLAStatus
}.
End Merged.

(** The time-tracking data of one epic: status column name to duration
    text, in the order [Object.keys] lists the columns. *)
Abbreviation TimeData := (list (string * string)).

Fixpoint timeDataGet (timeData : TimeData) (k : string) : option string :=
  match timeData with
  | [] => None
  | (k', v) :: rest => if String.eqb k' k then Some v else timeDataGet rest k
  end.

(** An argument that should be an array. *)
Inductive ArrayArg (A : Type) :=
| ArgUndefined
| ArgNull
| ArgNotArray
| ArgArray (l : list A).
Arguments ArgUndefined {A}.
Arguments ArgNull {A}.
Arguments ArgNotArray {A}.
Arguments ArgArray {A} l.

(** An argument that should be a [Map] from epic key to time data:
    [null]/[undefined], a [Map], or some other truthy value, which has no
    [get] method. *)
Inductive TimeMapArg :=
| TimeMapNullish
| TimeMapOf (m : gmap string TimeData)
| TimeMapNotAMap.

(** ** Number formatting: [x.toFixed(1)]

    One decimal, ties away from zero, of the exact rational.  The code
    formats the double that its floating-point arithmetic has reached, so
    its text can differ in the last digit where the exact value is at, or
    within a rounding error of, a tie: ["1d 13h"] and ["5h"] add up to
    exactly [1.75], which reads ["1.8"] here and ["1.7"] off the double
    just below it.  The properties below assert such a text only where the
    value is a whole number. *)

Definition decimal (n : Z) : string := NilZero.string_of_uint (N.to_uint (Z.to_N n)).

Definition toFixed1 (x : Q) : string :=
  let fmt (y : Q) :=
    let n := Qfloor (y * 10 + (1 # 2))%Q in
    (decimal (n / 10) ++ "." ++ decimal (n mod 10))%string in
  if Qle_bool 0 x then fmt x else ("-" ++ fmt (- x)%Q)%string.

(** ** Time/SLA engine: [mergeEpicData] *)

(** [s.toLowerCase().replace(/[\s_-]+/g, '')] *)
Definition normalizeStatus (s : string) : string :=
  removeAll (fun c => isSpace c || Ascii.eqb c "_" || Ascii.eqb c "-") (toLowerCase s).

(** [Object.keys(timeData).find(key => key && norm(key) === norm(epic.status))];
    the right-hand side dereferences [epic.status] and is evaluated for
    each non-empty key. *)
Fixpoint findStatusKey (status : option string) (keys : list string)
  : result (option string) :=
  match keys with
  | [] => Ok None
  | key :: rest =>
      if nonEmpty key then
        match status with
        | None => Throw (TypeError "Cannot read properties of undefined (reading 'toLowerCase')")
        | Some st =>
            if String.eqb (normalizeStatus key) (normalizeStatus st)
            then Ok (Some key)
            else findStatusKey status rest
        end
      else findStatusKey status rest
  end.

Section Merge.

Variable slaConfig : option (gmap string Z).

(** [timeMap.get(epic.id) || {}] *)
Definition timeDataOf (timeMap : TimeMapArg) (id : option string) : result TimeData :=
  match timeMap with
  | TimeMapOf m => Ok (default [] (id ≫= (m !!.)))
  | TimeMapNullish => Throw (TypeError "Cannot read properties of undefined (reading 'get')")
  | TimeMapNotAMap => Throw (TypeError "timeMap.get is not a function")
  end.

(** The [try] block of the per-epic callback. *)
Definition mergeEpic_body (timeMap : TimeMapArg) (epic : Epic.t) : result Merged.t :=
  timeData ← timeDataOf timeMap (Epic.id epic);
  timeInStatus ←
    (if negb (Nat.eqb (length timeData) 0) then
       statusKey ← findStatusKey (Epic.status epic) (timeData.*1);
       match statusKey with
       | Some k => Ok (match timeDataGet timeData k with
                       | Some v => if nonEmpty v then v else "-"
                       | None => "-"
                       end)
       | None => Ok "-"
       end
     else Ok "-");
  inProgress ← parseTimeInStatus (VString (default "" (timeDataGet timeData "In Progress")));
  codeReview ← parseTimeInStatus (VString (default "" (timeDataGet timeData "Code Review")));
  let cycleTime := (inProgress + codeReview)%Q in
  sla ← calculateSLAStatus slaConfig (Epic.status epic) (VString timeInStatus);
  Ok {| Merged.epic := epic;
        Merged.timeInStatus := timeInStatus;
        Merged.cycleTime := if Qlt_le_dec 0 cycleTime then toFixed1 cycleTime else "-";
        Merged.slaStatus := sla |}.

(** What the [catch] block of the callback returns. *)
Definition mergeEpic_default (epic : Epic.t) : Merged.t :=
  {| Merged.epic := epic;
     Merged.timeInStatus := "-";
     Merged.cycleTime := "-";
     Merged.slaStatus := slaUnknown |}.

Definition mergeEpic (timeMap : TimeMapArg) (epic : Epic.t) : result Merged.t :=
  tryCatch (mergeEpic_body timeMap epic) (fun _ => Ok (mergeEpic_default epic)).

(** [if (!timeMap) timeMap = new Map()] *)
Definition effectiveTimeMap (timeMap : TimeMapArg) : TimeMapArg :=
  match timeMap with TimeMapNullish => TimeMapOf ∅ | _ => timeMap end.

Definition mergeEpicData (epics : ArrayArg Epic.t) (timeMap : TimeMapArg)
  : result (list Merged.t) :=
  tryCatch
    (match epics with
     | ArgArray l =>
         let timeMap := effectiveTimeMap timeMap in
         mapM (mergeEpic timeMap) l
     | _ => Ok []
     end)
    (fun error => Throw (Error ("Failed to merge epic data: " ++ message error)%string)).

(** The outcome of the per-epic callback, failures replaced by defaults. *)
Definition mergedOrDefault (timeMap : TimeMapArg) (epic : Epic.t) : Merged.t :=
  match mergeEpic_body timeMap epic with
  | Ok m => m
  | Throw _ => mergeEpic_default epic
  end.

(** The classification of a status that has spent no time at all. *)
Definition slaOfNoTime (status : option string) : SLAStatus :=
  if isCompleted status then slaClosed
  else if reaches 0 (lookupThreshold (getSLAThresholds slaConfig) (propKey (optLower status)))
       then slaAtRisk else slaOnTrack.

End Merge.

(** ** Column resolver: [findColumn] *)

(** [h.toLowerCase().replace(/[\s_]/g, '')] *)
Definition normalizeName (h : string) : string :=
  removeAll (fun c => isSpace c || Ascii.eqb c "_") (toLowerCase h).

(** The first header whose normalized form passes the test. *)
Fixpoint firstHeader (test : string -> bool) (headers : list string) : option string :=
  match headers with
  | [] => None
  | h :: rest => if test (normalizeName h) then Some h else firstHeader test rest
  end.

Fixpoint findColumn_loop (headers possibleNames : list string) : option string :=
  match possibleNames with
  | [] => None
  | name :: rest =>
      let target := normalizeName name in
      match firstHeader (fun n => String.eqb n target) headers with
      | Some h => Some h
      | None =>
          match firstHeader (fun n => includes n target) headers with
          | Some h => Some h
          | None => findColumn_loop headers rest
          end
      end
  end.

(** [headers] is [None] when the argument is missing or not an array. *)
Definition findColumn (headers : option (list string)) (possibleNames : list string)
  : option string :=
  match headers with
  | None => None
  | Some hs => findColumn_loop hs possibleNames
  end.

(** ** Hierarchy builder: [processMainCSV] *)

Record Columns := {
  keyCol : option string;
  idCol : option string;
  typeCol : option string;
  statusCol : option string;
  summaryCol : option string;
  sprintCol : option string;
  pointsCol : option string;
  epicLinkCol : option string;
  epicKeyCol : option string;
  parentCol : option string;
  customParentCol : option string;
  assigneeCol : option string;
  creatorCol : option string;
  componentCol : option string;
  projectCol : option string
}.

Definition resolveColumns (headers : option (list string)) : Columns :=
  {| keyCol := findColumn headers ["Key"; "Issue key"];
     idCol := findColumn headers ["ID"; "Issue id"];
     typeCol := findColumn headers ["Issue Type"; "IssueType"];
     statusCol := findColumn headers ["Status"];
     summaryCol := findColumn headers ["Summary"];
     sprintCol := findColumn headers ["Sprint"];
     pointsCol := findColumn headers ["Custom field (Story Points)"; "Story Points"];
     epicLinkCol := findColumn headers ["Epic Link"; "Custom field (Epic Link)"; "Parent Epic"];
     epicKeyCol := findColumn headers ["Epic"; "Epic Key"];
     parentCol := findColumn headers ["Parent"; "Parent Link"; "Parent Issue"];
     customParentCol :=
       findColumn headers ["Custom field (Parent Link)"; "Custom field (Epic)"];
     assigneeCol := findColumn headers ["Assignee"];
     creatorCol := findColumn headers ["Creator"; "Created by"];
     componentCol := findColumn headers ["Component/s"; "Components"];
     projectCol := findColumn headers ["Project"; "Project key"] |}.

(** [record[col]]; an unresolved column is [null] and reads the property
    named ["null"]. *)
Definition cell (record : Record_) (col : option string) : option string :=
  record !! default "null" col.

(** [x || d] for a cell [x]. *)
Definition orElse (d : string) (x : option string) : string :=
  match x with
  | Some s => if nonEmpty s then s else d
  | None => d
  end.

(** [issueType === 'epic'] *)
Definition isEpicType (issueType : option string) : bool :=
  match issueType with Some s => String.eqb s "epic" | None => false end.

(** The longest run of characters of a class at the head of the text. *)
Fixpoint spanClass (cls : ascii -> bool) (s : list ascii) : list ascii * list ascii :=
  match s with
  | c :: s' =>
      if cls c then let '(run, rest) := spanClass cls s' in (c :: run, rest)
      else ([], s)
  | [] => ([], [])
  end.

(** [key?.match(/^([A-Z]+-)/)]: the project key, hyphen included. *)
Definition getProjectKey (key : option string) : option string :=
  match key with
  | None => None
  | Some k =>
      match spanClass isUpper (chars k) with
      | (c :: run, h :: _) =>
          if Ascii.eqb h "-" then Some (ofChars ((c :: run) ++ ["-"%char])) else None
      | _ => None
      end
  end.

(** The input [{ headers, records }]; a missing member is [None]. *)
Record MainCSV := {
  headers : option (list string);
  records : option (list Record_)
}.

Record Hierarchy := {
  epics : list Epic.t;
  childIssues : list Child.t
}.

(** The lookup maps of the first pass.  The epic objects are shared
    between the [epics] array, [epicsByKey] and the project groups: an epic
    is referred to by its position in the array, in creation order. *)
Record Index := {
  epicsByKey : gmap (option string) nat;
  issuesById : gmap string Record_
}.

(** [parentEpic.children.push(child)] and the update of the two totals.
    Story points are never [NaN] here (they come from [parseFloat(..) || 0]),
    so the [isNaN] guard always lets the update through. *)
Definition addChild (child : Child.t) (e : Epic.t) : Epic.t :=
  {| Epic.id := Epic.id e;
     Epic.key := Epic.key e;
     Epic.issueId := Epic.issueId e;
     Epic.name := Epic.name e;
     Epic.status := Epic.status e;
     Epic.sprint := Epic.sprint e;
     Epic.storyPoints := Epic.storyPoints e;
     Epic.created := Epic.created e;
     Epic.assignee := Epic.assignee e;
     Epic.creator := Epic.creator e;
     Epic.component := Epic.component e;
     Epic.project := Epic.project e;
     Epic.children := Epic.children e ++ [child];
     Epic.totalStoryPoints := (Epic.totalStoryPoints e + Child.storyPoints child)%Q;
     Epic.completedStoryPoints :=
       if Child.isCompleted child
       then (Epic.completedStoryPoints e + Child.storyPoints child)%Q
       else Epic.completedStoryPoints e |}.

(** The update of the epic object at reference [i]. *)
Definition attach (i : nat) (child : Child.t) (store : list Epic.t) : list Epic.t :=
  alter (addChild child) i store.

(** [a.id.localeCompare(b.id)] on the ids of two epics: reading a method of
    an undefined [a.id] throws; an undefined [b.id] is compared as the text
    ["undefined"]. *)
Definition compareIds (localeCompare : string -> string -> Z)
    (a b : option string) : result Z :=
  match a with
  | None => Throw (TypeError "Cannot read properties of undefined (reading 'localeCompare')")
  | Some x => Ok (localeCompare x (propKey b))
  end.

(** [arr.sort((a, b) => a.id.localeCompare(b.id))]: a stable sort.  With
    a comparator that throws, which comparison comes first is up to the
    engine; here each element is compared, as [a], with the elements after
    it. *)
Section Sort.

Context {A : Type}.
Variable localeCompare : string -> string -> Z.
Variable idOf : A -> option string.

Fixpoint insertSorted (x : A) (l : list A) : result (list A) :=
  match l with
  | [] => Ok [x]
  | y :: l' =>
      c ← compareIds localeCompare (idOf x) (idOf y);
      if (c <=? 0)%Z then Ok (x :: y :: l')
      else l'' ← insertSorted x l'; Ok (y :: l'')
  end.

Fixpoint sortById (l : list A) : result (list A) :=
  match l with
  | [] => Ok []
  | x :: l' => s ← sortById l'; insertSorted x s
  end.

End Sort.

Section Builder.

(** The built-in [parseFloat] on a non-empty text ([None] is [NaN]) and
    the built-in [String.prototype.localeCompare]. *)
Variable parseFloat : string -> option Q.
Variable localeCompare : string -> string -> Z.

(** [parseFloat(x || 0) || 0] for a cell [x] *)
Definition pointsOf (x : option string) : Q :=
  match x with
  | Some s => if nonEmpty s then default 0%Q (parseFloat s) else 0%Q
  | None => 0%Q
  end.

Section WithColumns.

Variable cols : Columns.

(** The epic object of the first pass. *)
Definition newEpic (record : Record_) : Epic.t :=
  let issueKey := cell record (keyCol cols) in
  let storyPoints := pointsOf (cell record (pointsCol cols)) in
  let opt (col : option string) :=
    if truthyStr col then orElse "" (cell record col) else "" in
  {| Epic.id := issueKey;
     Epic.key := issueKey;
     Epic.issueId := cell record (idCol cols);
     Epic.name := cell record (summaryCol cols);
     Epic.status := cell record (statusCol cols);
     Epic.sprint := orElse "" (cell record (sprintCol cols));
     Epic.storyPoints := storyPoints;
     Epic.created := record !! "Created";
     Epic.assignee := opt (assigneeCol cols);
     Epic.creator := opt (creatorCol cols);
     Epic.component := opt (componentCol cols);
     Epic.project := opt (projectCol cols);
     Epic.children := [];
     Epic.totalStoryPoints := pointsOf (cell record (pointsCol cols));
     Epic.completedStoryPoints :=
       if isCompleted (cell record (statusCol cols)) then storyPoints else 0%Q |}.

(** First pass, one record: index the record by ID and, when it is an
    epic, create its object and index it by key.  (The by-key index of all
    records and the issue-type tally are written but never read.) *)
Definition pass1_step (st : list Epic.t * Index) (record : Record_) : list Epic.t * Index :=
  let '(store, index) := st in
  let issueKey := cell record (keyCol cols) in
  let issueId := cell record (idCol cols) in
  let issueType := optLower (cell record (typeCol cols)) in
  let byId :=
    match issueId with
    | Some i => if nonEmpty i then <[i := record]> (issuesById index) else issuesById index
    | None => issuesById index
    end in
  if isEpicType issueType then
    (store ++ [newEpic record],
     {| epicsByKey := <[issueKey := length store]> (epicsByKey index); issuesById := byId |})
  else
    (store, {| epicsByKey := epicsByKey index; issuesById := byId |}).

Definition pass1 (records : list Record_) : list Epic.t * Index :=
  fold_left pass1_step records ([], {| epicsByKey := ∅; issuesById := ∅ |}).

Section WithIndex.

Variable index : Index.

(** [epicsByKey.has(k)] *)
Definition hasEpic (k : option string) : bool :=
  match epicsByKey index !! k with Some _ => true | None => false end.

(** The four linking methods.  Each takes the current [parentEpicKey]
    ([None] is [null] or [undefined]) and returns the new one. *)

Definition method1 (parentEpicKey : option string) (record : Record_) : option string :=
  if negb (truthyStr parentEpicKey) && truthyStr (epicLinkCol cols)
     && truthyStr (cell record (epicLinkCol cols)) then
    let epicLinkValue := cell record (epicLinkCol cols) in
    if hasEpic epicLinkValue then epicLinkValue else parentEpicKey
  else parentEpicKey.

Definition method2 (parentEpicKey : option string) (record : Record_) : option string :=
  if negb (truthyStr parentEpicKey) && truthyStr (epicKeyCol cols)
     && truthyStr (cell record (epicKeyCol cols)) then
    let epicKeyValue := cell record (epicKeyCol cols) in
    if hasEpic epicKeyValue then epicKeyValue else parentEpicKey
  else parentEpicKey.

Definition method3 (parentEpicKey : option string) (record : Record_) : option string :=
  if negb (truthyStr parentEpicKey) && truthyStr (parentCol cols)
     && truthyStr (cell record (parentCol cols)) then
    let parentId := cell record (parentCol cols) in
    match parentId ≫= (issuesById index !!.) with
    | Some parentRecord =>
        let parentKey := cell parentRecord (keyCol cols) in
        let parentType := optLower (cell parentRecord (typeCol cols)) in
        if isEpicType parentType then parentKey else parentEpicKey
    | None => parentEpicKey
    end
  else parentEpicKey.

Definition method4 (parentEpicKey : option string) (record : Record_) : option string :=
  if negb (truthyStr parentEpicKey) && truthyStr (customParentCol cols)
     && truthyStr (cell record (customParentCol cols)) then
    let customParentValue := cell record (customParentCol cols) in
    if hasEpic customParentValue then customParentValue else parentEpicKey
  else parentEpicKey.

(** [parentEpicKey] after the four methods have run in turn. *)
Definition findParentEpicKey (record : Record_) : option string :=
  method4 (method3 (method2 (method1 None record) record) record) record.

(** The child object of the second pass. *)
Definition newChild (record : Record_) (parentEpicKey : option string) : Child.t :=
  let issueKey := cell record (keyCol cols) in
  {| Child.id := issueKey;
     Child.key := issueKey;
     Child.name := orElse "Unnamed Issue" (cell record (summaryCol cols));
     Child.type := optLower (cell record (typeCol cols));
     Child.status := orElse "Unknown" (cell record (statusCol cols));
     Child.sprint := orElse "" (cell record (sprintCol cols));
     Child.storyPoints := pointsOf (cell record (pointsCol cols));
     Child.parentEpicId := parentEpicKey;
     Child.isCompleted := isCompleted (cell record (statusCol cols));
     Child.matchMethod := None |}.

(** Second pass, one record.  The state is the epic store and
    [linkedIssuesCount]. *)
Definition pass2_step (st : list Epic.t * nat) (record : Record_) : list Epic.t * nat :=
  let '(store, linkedIssuesCount) := st in
  let issueType := optLower (cell record (typeCol cols)) in
  if isEpicType issueType then st
  else
    let parentEpicKey := findParentEpicKey record in
    if truthyStr parentEpicKey && hasEpic parentEpicKey then
      match epicsByKey index !! parentEpicKey with
      | Some parentEpic =>
          (attach parentEpic (newChild record parentEpicKey) store, S linkedIssuesCount)
      | None => st
      end
    else st.

End WithIndex.

(** *** Balanced distribution *)

(** [records.filter(...)]: the records the fallback distributes. *)
Definition isDistributable (record : Record_) : bool :=
  let issueType := optLower (cell record (typeCol cols)) in
  truthyStr issueType && negb (isEpicType issueType) && truthyStr (cell record (keyCol cols)).

(** [epicsByProject]: project key to the references of its epics, in the
    order the keys were first seen.  (Project keys end in a hyphen, so none
    of them names an inherited property.) *)
Fixpoint groupAdd (groups : list (string * list nat)) (projectKey : string) (epic : nat)
  : list (string * list nat) :=
  match groups with
  | [] => [(projectKey, [epic])]
  | (k, g) :: rest =>
      if String.eqb k projectKey then (k, g ++ [epic]) :: rest
      else (k, g) :: groupAdd rest projectKey epic
  end.

(** One round of [epics.forEach], on the epic at reference [i]. *)
Definition addEpic (groups : list (string * list nat)) (ie : nat * Epic.t)
  : list (string * list nat) :=
  let '(i, epic) := ie in
  match getProjectKey (Epic.key epic) with
  | Some projectKey => groupAdd groups projectKey i
  | None => groups
  end.

Definition groupEpics (store : list Epic.t) : list (string * list nat) :=
  fold_left addEpic (imap (fun i epic => (i, epic)) store) [].

(** The id of the epic behind a reference. *)
Definition idAt (store : list Epic.t) (i : nat) : option string :=
  store !! i ≫= Epic.id.

(** [Object.values(epicsByProject).forEach(g => g.sort(byId))] *)
Definition sortGroups (store : list Epic.t) (groups : list (string * list nat))
  : result (list (string * list nat)) :=
  mapM (fun '(k, g) => g' ← sortById localeCompare (idAt store) g; Ok (k, g')) groups.

Fixpoint groupGet (groups : list (string * list nat)) (projectKey : string)
  : option (list nat) :=
  match groups with
  | [] => None
  | (k, g) :: rest => if String.eqb k projectKey then Some g else groupGet rest projectKey
  end.

(** [epic.children.length] of the epic behind a reference. *)
Definition childCount (store : list Epic.t) (i : nat) : nat :=
  from_option (fun e => length (Epic.children e)) 0%nat (store !! i).

(** [group.reduce((minEpic, epic) =>
      epic.children.length < minEpic.children.length ? epic : minEpic, group[0])] *)
Definition fewestChildren (store : list Epic.t) (group : list nat) (first : nat) : nat :=
  fold_left
    (fun minEpic epic =>
       if (childCount store epic <? childCount store minEpic)%nat then epic else minEpic)
    group first.

Definition distributedChild (record : Record_) (targetKey : option string) : Child.t :=
  let issueKey := cell record (keyCol cols) in
  {| Child.id := issueKey;
     Child.key := issueKey;
     Child.name := orElse "Unnamed Issue" (cell record (summaryCol cols));
     Child.type := Some (orElse "unknown" (optLower (cell record (typeCol cols))));
     Child.status := orElse "Unknown" (cell record (statusCol cols));
     Child.sprint := orElse "" (cell record (sprintCol cols));
     Child.storyPoints := pointsOf (cell record (pointsCol cols));
     Child.parentEpicId := targetKey;
     Child.isCompleted := isCompleted (cell record (statusCol cols));
     Child.matchMethod := Some "balanced-distribution" |}.

(** Distribution, one record. *)
Definition distribute_step (groups : list (string * list nat))
    (store : list Epic.t) (record : Record_) : list Epic.t :=
  let issueKey := cell record (keyCol cols) in
  match getProjectKey issueKey with
  | Some projectKey =>
      match groupGet groups projectKey with
      | Some (first :: rest) =>
          let targetEpic := fewestChildren store (first :: rest) first in
          attach targetEpic
            (distributedChild record (store !! targetEpic ≫= Epic.key)) store
      | _ => store
      end
  | None => store
  end.

Definition distribute (records : list Record_) (store : list Epic.t)
  : result (list Epic.t) :=
  let nonEpicIssues := filter (fun r => isDistributable r = true) records in
  groups ← sortGroups store (groupEpics store);
  Ok (fold_left (distribute_step groups) nonEpicIssues store).

End WithColumns.

(** [linkedIssuesCount < records.length * 0.1].  (In doubles, too, the
    product compares with a whole number as a tenth of the length does:
    ten times a whole number [k] by [0.1] rounds to [k].) *)
Definition fewLinked (linkedIssuesCount total : nat) : bool :=
  if Qlt_le_dec (inject_Z (Z.of_nat linkedIssuesCount))
                (inject_Z (Z.of_nat total) * (1 # 10))
  then true else false.

(** The state at the end of the second pass. *)
Definition secondPass (cols : Columns) (records : list Record_) : list Epic.t * nat :=
  let '(store, index) := pass1 cols records in
  fold_left (pass2_step cols index) records (store, 0%nat).

(** The [try] block of [processMainCSV]. *)
Definition processMainCSV_body (csv : MainCSV) : result Hierarchy :=
  records ← match records csv with
            | Some rs => Ok rs
            | None => Throw (TypeError "Cannot read properties of undefined (reading 'length')")
            end;
  let cols := resolveColumns (headers csv) in
  let '(store, linkedIssuesCount) := secondPass cols records in
  store ← (if fewLinked linkedIssuesCount (length records)
           then distribute cols records store
           else Ok store);
  epics ← sortById localeCompare Epic.id store;
  Ok {| epics := epics;
        childIssues := flat_map Epic.children epics |}.

Definition processMainCSV (csv : MainCSV) : result Hierarchy :=
  tryCatch (processMainCSV_body csv)
    (fun error => Throw (Error ("Failed to process main CSV data: " ++ message error)%string)).

End Builder.

(** ** Metrics aggregator: [calculateMetrics] *)

Module Bucket.
Record t := {
  committed : Q;
  completed : Q;
  cycleSum : Q;
  cycleCount : nat;
  epics : list Merged.t
}.
End Bucket.

Module Sprint.
Record t := {
  name : string;
  committed : Q;
  completed : Q;
  realization : string;
  avgCycleTime : string;
  epics : list Merged.t
}.
End Sprint.

Module Overall.
Record t := {
  totalEpics : nat;
  totalCommitted : Q;
  totalCompleted : Q;
  realization : string;
  avgCycleTime : string;
  atRiskCount : nat;
  atRiskPercentage : string
}.
End Overall.

Record Metrics := {
  overall : Overall.t;
  sprintData : list Sprint.t
}.

(** The metrics returned for an argument that is not an array, and by the
    [catch] block. *)
Definition emptyMetrics (totalEpics : nat) : Metrics :=
  {| overall :=
       {| Overall.totalEpics := totalEpics;
          Overall.totalCommitted := 0;
          Overall.totalCompleted := 0;
          Overall.realization := "0.0";
          Overall.avgCycleTime := "0.0";
          Overall.atRiskCount := 0;
          Overall.atRiskPercentage := "0.0" |};
     sprintData := [] |}.

(** The [sprints] object: sprint name to bucket, in the order the names
    were first seen (which is the order of [Object.entries], except that
    names that are array indices come first). *)
Abbreviation Sprints := (list (string * Bucket.t)).

Fixpoint sprintGet (sprints : Sprints) (k : string) : option Bucket.t :=
  match sprints with
  | [] => None
  | (k', b) :: rest => if String.eqb k' k then Some b else sprintGet rest k
  end.

Fixpoint sprintSet (sprints : Sprints) (k : string) (b : Bucket.t) : Sprints :=
  match sprints with
  | [] => [(k, b)]
  | (k', b') :: rest =>
      if String.eqb k' k then (k', b) :: rest else (k', b') :: sprintSet rest k b
  end.

(** The running totals of the [forEach] loop. *)
Record Totals := {
  sprints : Sprints;
  totalCommitted : Q;
  totalCompleted : Q;
  totalCycle : Q;
  totalCount : nat;
  atRiskCount : nat
}.

Section Metrics.

Variable parseFloat : string -> option Q.

(** [parseFloat(epic.cycleTime)] when the cycle time is present, is not
    the ["-"] placeholder and reads as a number. *)
Definition cycleTimeValue (epic : Merged.t) : option Q :=
  if nonEmpty (Merged.cycleTime epic) && negb (String.eqb (Merged.cycleTime epic) "-")
  then parseFloat (Merged.cycleTime epic) else None.

(** [epic.sprint || 'No Sprint'] *)
Definition sprintOf (epic : Merged.t) : string :=
  if nonEmpty (Epic.sprint (Merged.epic epic))
  then Epic.sprint (Merged.epic epic) else "No Sprint".

(** One round of [epics.forEach].  A sprint name that the [sprints] object
    inherits from [Object.prototype] is found there, so no bucket is
    created for it, and the value found has no [epics] array to push to. *)
Definition metrics_step (t : Totals) (epic : Merged.t) : result Totals :=
  let sprint := sprintOf epic in
  bucket ←
    match sprintGet (sprints t) sprint with
    | Some b => Ok b
    | None =>
        if arrayIncludes objectPrototypeProps sprint
        then Throw (TypeError "Cannot read properties of undefined (reading 'push')")
        else Ok {| Bucket.committed := 0; Bucket.completed := 0; Bucket.cycleSum := 0;
                   Bucket.cycleCount := 0; Bucket.epics := [] |}
    end;
  let committedPoints := Epic.totalStoryPoints (Merged.epic epic) in
  let completedPoints := Epic.completedStoryPoints (Merged.epic epic) in
  let cycle := cycleTimeValue epic in
  let bucket' :=
    {| Bucket.committed := (Bucket.committed bucket + committedPoints)%Q;
       Bucket.completed := (Bucket.completed bucket + completedPoints)%Q;
       Bucket.cycleSum :=
         match cycle with Some v => (Bucket.cycleSum bucket + v)%Q | None => Bucket.cycleSum bucket end;
       Bucket.cycleCount :=
         match cycle with Some _ => S (Bucket.cycleCount bucket) | None => Bucket.cycleCount bucket end;
       Bucket.epics := Bucket.epics bucket ++ [epic] |} in
  Ok {| sprints := sprintSet (sprints t) sprint bucket';
        totalCommitted := (totalCommitted t + committedPoints)%Q;
        totalCompleted := (totalCompleted t + completedPoints)%Q;
        totalCycle := match cycle with Some v => (totalCycle t + v)%Q | None => totalCycle t end;
        totalCount := match cycle with Some _ => S (totalCount t) | None => totalCount t end;
        atRiskCount :=
          if String.eqb (class (Merged.slaStatus epic)) "at-risk"
          then S (atRiskCount t) else atRiskCount t |}.

Fixpoint metrics_loop (t : Totals) (epics : list Merged.t) : result Totals :=
  match epics with
  | [] => Ok t
  | epic :: rest => t' ← metrics_step t epic; metrics_loop t' rest
  end.

Definition QofNat (n : nat) : Q := inject_Z (Z.of_nat n).

Definition sprintRollup (entry : string * Bucket.t) : Sprint.t :=
  let '(sprint, data) := entry in
  let realization :=
    if Qeq_bool (Bucket.committed data) 0 then 0%Q
    else (Bucket.completed data / Bucket.committed data * 100)%Q in
  let avgCycleTime :=
    if Nat.eqb (Bucket.cycleCount data) 0 then 0%Q
    else (Bucket.cycleSum data / QofNat (Bucket.cycleCount data))%Q in
  {| Sprint.name := sprint;
     Sprint.committed := Bucket.committed data;
     Sprint.completed := Bucket.completed data;
     Sprint.realization := toFixed1 realization;
     Sprint.avgCycleTime := toFixed1 avgCycleTime;
     Sprint.epics := Bucket.epics data |}.

(** The [try] block of [calculateMetrics]. *)
Definition calculateMetrics_body (epics : ArrayArg Merged.t) : result Metrics :=
  match epics with
  | ArgArray l =>
      t ← metrics_loop
            {| sprints := []; totalCommitted := 0; totalCompleted := 0;
               totalCycle := 0; totalCount := 0; atRiskCount := 0 |} l;
      let overallRealization :=
        if Qlt_le_dec 0 (totalCommitted t)
        then (totalCompleted t / totalCommitted t * 100)%Q else 0%Q in
      let avgCycleTime :=
        if Nat.ltb 0 (totalCount t) then (totalCycle t / QofNat (totalCount t))%Q else 0%Q in
      let atRiskPercentage :=
        if Nat.ltb 0 (length l)
        then (QofNat (atRiskCount t) / QofNat (length l) * 100)%Q else 0%Q in
      Ok {| overall :=
              {| Overall.totalEpics := length l;
                 Overall.totalCommitted := totalCommitted t;
                 Overall.totalCompleted := totalCompleted t;
                 Overall.realization := toFixed1 overallRealization;
                 Overall.avgCycleTime := toFixed1 avgCycleTime;
                 Overall.atRiskCount := atRiskCount t;
                 Overall.atRiskPercentage := toFixed1 atRiskPercentage |};
            sprintData := map sprintRollup (sprints t) |}
  | _ => Ok (emptyMetrics 0)
  end.

(** [epics?.length || 0] in the [catch] block. *)
Definition lengthOrZero (epics : ArrayArg Merged.t) : nat :=
  match epics with ArgArray l => length l | _ => 0%nat end.

Definition calculateMetrics (epics : ArrayArg Merged.t) : result Metrics :=
  tryCatch (calculateMetrics_body epics)
    (fun _ => Ok (emptyMetrics (lengthOrZero epics))).

(** The spec's reading: a failure of the body is re-raised as one error
    that names the stage. *)
Definition calculateMetrics_spec (epics : ArrayArg Merged.t) : result Metrics :=
  tryCatch (calculateMetrics_body epics)
    (fun error => Throw (Error ("Failed to calculate metrics: " ++ message error)%string)).

End Metrics.

(** ** Instances of the built-ins for the examples

    [parseWhole] agrees with [parseFloat] on texts made of decimal digits
    only, the only texts it accepts; [compareCodes] orders texts by
    character code, which agrees with [localeCompare] on the issue keys of
    the examples (equal up to a final digit). *)

Definition parseWhole (s : string) : option Q :=
  if forallb isDigit (chars s) && nonEmpty s
  then Some (QofN (parseDigits (chars s))) else None.

Definition compareCodes (a b : string) : Z :=
  match String.compare a b with
  | Lt => -1
  | Eq => 0
  | Gt => 1
  end.

(** ** Vocabulary of the properties *)

(** A key that can name a parent: [None] when falsy. *)
Definition usable (k : option string) : option string :=
  if truthyStr k then k else None.

(** The first strategy that succeeds. *)
Fixpoint firstSuccess (candidates : list (option string)) : option string :=
  match candidates with
  | [] => None
  | Some k :: _ => Some k
  | None :: rest => firstSuccess rest
  end.

Section Strategies.

Variable cols : Columns.
Variable index : Index.

(** The four linkage strategies, each on its own: the usable key the
    strategy finds when no earlier one has found any. *)
Definition strategy1 (record : Record_) : option string :=
  usable (method1 cols index None record).
Definition strategy2 (record : Record_) : option string :=
  usable (method2 cols index None record).
Definition strategy3 (record : Record_) : option string :=
  usable (method3 cols index None record).
Definition strategy4 (record : Record_) : option string :=
  usable (method4 cols index None record).

(** The shape shared by the Epic-Link, Epic-Key and Custom-parent
    strategies: the column is resolved, the cell is not empty and its
    text is the key of an epic. *)
Definition KeyField (col : option string) (record : Record_) (k : string) : Prop :=
  truthyStr col = true /\ cell record col = Some k /\ nonEmpty k = true /\
  is_Some (epicsByKey index !! Some k).

(** The Parent strategy: the cell is the ID of a record whose type is
    epic, and the key found is the key of that record. *)
Definition ParentField (record : Record_) (k : string) : Prop :=
  truthyStr (parentCol cols) = true /\
  exists parentId parentRecord,
    cell record (parentCol cols) = Some parentId /\ nonEmpty parentId = true /\
    issuesById index !! parentId = Some parentRecord /\
    isEpicType (optLower (cell parentRecord (typeCol cols))) = true /\
    cell parentRecord (keyCol cols) = Some k /\ nonEmpty k = true.

End Strategies.

(** The two story-point inequalities of an epic. *)
Definition pointsBalanced (e : Epic.t) : Prop :=
  (Epic.storyPoints e <= Epic.totalStoryPoints e)%Q /\
  (Epic.completedStoryPoints e <= Epic.totalStoryPoints e)%Q.

(** A record that the second pass links: it is not an epic and the key
    found by the strategies is usable and names an epic. *)
Definition isLinked (cols : Columns) (index : Index) (record : Record_) : bool :=
  negb (isEpicType (optLower (cell record (typeCol cols))))
  && truthyStr (findParentEpicKey cols index record)
  && hasEpic index (findParentEpicKey cols index record).

(** [x] does not come after [y] in the order of [localeCompare] on ids. *)
Definition idLe {A} (localeCompare : string -> string -> Z) (idOf : A -> option string)
    (x y : A) : Prop :=
  exists a b, idOf x = Some a /\ idOf y = Some b /\ localeCompare a b <= 0.

(** The requirements on a comparator for sorting to be meaningful. *)
Definition TotalOrder (localeCompare : string -> string -> Z) : Prop :=
  (forall a b, 0 < localeCompare a b -> localeCompare b a <= 0) /\
  (forall a b c, localeCompare a b <= 0 -> localeCompare b c <= 0 -> localeCompare a c <= 0).

(** [store'] holds the epic objects of [store], each under the same
    reference and with the same id and key, its children followed by those
    it has been given since. *)
Definition extends (store store' : list Epic.t) : Prop :=
  length store' = length store /\
  forall i e, store !! i = Some e ->
    exists e' more,
      store' !! i = Some e' /\ Epic.id e' = Epic.id e /\ Epic.key e' = Epic.key e /\
      Epic.children e' = Epic.children e ++ more.

(** [[A-Za-z]] *)
Definition isAlpha (c : ascii) : bool :=
  isUpper c || ((97 <=? code c) && (code c <=? 122))%N.

(** The spec's reading of the project key: the leading alphabetic prefix
    and the hyphen. *)
Definition getProjectKey_spec (key : option string) : option string :=
  match key with
  | None => None
  | Some k =>
      match spanClass isAlpha (chars k) with
      | (c :: run, h :: _) =>
          if Ascii.eqb h "-" then Some (ofChars ((c :: run) ++ ["-"%char])) else None
      | _ => None
      end
  end.

(** The spec's reading of the fallback: it distributes only the records
    that the second pass has left unlinked. *)
Definition distribute_spec (parseFloat : string -> option Q)
    (localeCompare : string -> string -> Z) (cols : Columns) (index : Index)
    (records : list Record_) (store : list Epic.t) : result (list Epic.t) :=
  let unlinked :=
    filter (fun r => isDistributable cols r && negb (isLinked cols index r) = true) records in
  groups ← sortGroups localeCompare store (groupEpics store);
  Ok (fold_left (distribute_step parseFloat cols groups) unlinked store).

(** * The code around the engine

    The CSV parser that produces the engine's input, the validators that
    guard it, the time CSV processor that feeds the merge, the threshold
    settings that the SLA classification reads, and the utilities and the
    pagination of the results table.

    Further conventions.
    - A parsed file.  [parseFile] is the [onload] handler of the file
      reader, applied to the text of the file: [Ok] is the value the
      promise resolves to, [Throw] the error it is rejected with.
    - The page.  The settings form is the map from the ids of its input
      elements to their values; an id that is not on the page reads as
      [null].
    - What a function hands to [ErrorHandler.handle] or to the table is
      part of its result. *)

From Stdlib Require Import DecimalN.

(** ** CSV parser: [CSVParser] *)

Definition quoteChar : ascii := ascii_of_N 34.
Definition commaChar : ascii := ","%char.
Definition lineFeed : ascii := ascii_of_N 10.
Definition carriageReturn : ascii := ascii_of_N 13.

(** The loop of [parseCSVLine] over the characters of the line, with its
    three variables; the final [result.push(current)] ends it. *)
Fixpoint splitFields (line : list ascii) (result : list (list ascii))
    (current : list ascii) (inQuotes : bool) : list (list ascii) :=
  match line with
  | [] => result ++ [current]
  | char :: rest =>
      if Ascii.eqb char quoteChar then splitFields rest result current (negb inQuotes)
      else if Ascii.eqb char commaChar && negb inQuotes
           then splitFields rest (result ++ [current]) [] inQuotes
           else splitFields rest result (current ++ [char]) inQuotes
  end.

Fixpoint trimStart (s : list ascii) : list ascii :=
  match s with
  | c :: s' => if isSpace c then trimStart s' else s
  | [] => []
  end.

(** [f.trim()] *)
Definition trimChars (s : list ascii) : list ascii :=
  rev (trimStart (rev (trimStart s))).

(** [f.replace(/^"|"$/g, '')]: a quote at the very start and a quote at
    the very end are removed. *)
Definition stripQuotes (s : list ascii) : list ascii :=
  let s1 := match s with
            | c :: s' => if Ascii.eqb c quoteChar then s' else s
            | [] => []
            end in
  match rev s1 with
  | c :: r => if Ascii.eqb c quoteChar then rev r else s1
  | [] => s1
  end.

Definition parseCSVLine (line : string) : list string :=
  map (fun f => ofChars (stripQuotes (trimChars f))) (splitFields (chars line) [] [] false).

(** [text.split(sep)] for a separator of one character. *)
Fixpoint splitOn (sep : ascii) (s : list ascii) : list (list ascii) :=
  match s with
  | [] => [[]]
  | c :: rest =>
      if Ascii.eqb c sep then [] :: splitOn sep rest
      else match splitOn sep rest with
           | l :: ls => (c :: l) :: ls
           | [] => [[c]]
           end
  end.

(** [record[header] = value] on a plain object: an assignment of a text
    to [__proto__] is ignored and creates no property. *)
Definition setCell (record : Record_) (header value : string) : Record_ :=
  if String.eqb header "__proto__" then record else <[header := value]> record.

(** The record of one line: [headers.forEach((header, i) =>
    record[header] = values[i] || '')]. *)
Definition recordOf (headers values : list string) : Record_ :=
  fold_left (fun record '(i, header) => setCell record header (orElse "" (values !! i)))
            (imap (fun i header => (i, header)) headers) ∅.

(** [parseFile], given the text of the file: [Ok] is the resolved value
    and [Throw] the rejection.  With no line left, [lines[0]] is
    [undefined], which [parseCSVLine] cannot iterate over.  (A failure of
    the file reader itself is left out.) *)
Definition parseFile (text : string) : result MainCSV :=
  let lines :=
    filter (fun l => nonEmpty (ofChars (trimChars l)) = true) (splitOn lineFeed (chars text)) in
  match lines with
  | [] => Throw (TypeError "line is not iterable")
  | first :: rest =>
      let headers := parseCSVLine (ofChars first) in
      let records := map (fun line => recordOf headers (parseCSVLine (ofChars line))) rest in
      Ok {| headers := Some headers; records := Some records |}
  end.

(** A writer for the round trip: a field with a comma is put between
    quotes. *)
Definition encodeField (f : list ascii) : list ascii :=
  if existsb (Ascii.eqb commaChar) f then quoteChar :: f ++ [quoteChar] else f.

Fixpoint joinFields (fields : list (list ascii)) : list ascii :=
  match fields with
  | [] => []
  | [f] => f
  | f :: rest => f ++ commaChar :: joinFields rest
  end.

(** A field as the parser returns them: no quote, no blank at either end. *)
Definition Plain (f : list ascii) : Prop :=
  Forall (fun c => Ascii.eqb c quoteChar = false) f /\ trimChars f = f.

(** A text that does not start with a blank. *)
Definition NoLead (s : list ascii) : Prop :=
  match s with [] => True | c :: _ => isSpace c = false end.

(** The same text with Windows line ends: every line feed preceded by a
    carriage return. *)
Definition toCRLF (s : list ascii) : list ascii :=
  flat_map (fun c => if Ascii.eqb c lineFeed then [carriageReturn; lineFeed] else [c]) s.

(** The relation between a line of the text with Windows line ends and the
    same line of the original text. *)
Definition sameLine (a b : list ascii) : Prop := a = b \/ a = b ++ [carriageReturn].

(** ** Plain objects: own properties in the order of [Object.keys] *)

(** The array index that a property name denotes, if any: a decimal
    numeral without leading zero, below [2^32 - 1]. *)
Definition arrayIndex (name : string) : option N :=
  match chars name with
  | [] => None
  | c :: rest =>
      if forallb isDigit (c :: rest) && (negb (Ascii.eqb c "0") || Nat.eqb (length rest) 0)
      then let n := parseDigits (c :: rest) in
           if (n <? 4294967295)%N then Some n else None
      else None
  end.

Section Properties.

Context {V : Type}.

(** An object is the list of its own properties, in the order the
    language lists them: the array indices in ascending order first, then
    the other names in the order of their creation. *)
Definition Properties := list (string * V).

Fixpoint getProperty (o : Properties) (k : string) : option V :=
  match o with
  | [] => None
  | (k', v) :: rest => if String.eqb k' k then Some v else getProperty rest k
  end.

Definition hasProperty (o : Properties) (k : string) : bool :=
  existsb (String.eqb k) o.*1.

Fixpoint replaceProperty (o : Properties) (k : string) (v : V) : Properties :=
  match o with
  | [] => []
  | (k', v') :: rest =>
      if String.eqb k' k then (k', v) :: rest else (k', v') :: replaceProperty rest k v
  end.

Fixpoint insertIndex (o : Properties) (k : string) (n : N) (v : V) : Properties :=
  match o with
  | [] => [(k, v)]
  | (k', v') :: rest =>
      match arrayIndex k' with
      | Some n' => if (n' <? n)%N then (k', v') :: insertIndex rest k n v else (k, v) :: o
      | None => (k, v) :: o
      end
  end.

(** [o[k] = v] for a value that is not an object: the name [__proto__] is
    an accessor of the prototype, which ignores such a value. *)
Definition setProperty (o : Properties) (k : string) (v : V) : Properties :=
  if String.eqb k "__proto__" then o
  else if hasProperty o k then replaceProperty o k v
  else match arrayIndex k with
       | Some n => insertIndex o k n v
       | None => o ++ [(k, v)]
       end.

End Properties.
Arguments Properties V : clear implicits.

(** ** Time CSV processor: [processTimeCSV] *)

(** The time data of one row: a cell is [undefined] when the row has no
    field under the header. *)
Abbreviation TimeRow := (Properties (option string)).

(** The inner loop: the row without its key column. *)
Definition timeRow (headers : list string) (keyCol : string) (record : Record_) : TimeRow :=
  fold_left (fun timeData header =>
               if String.eqb header keyCol then timeData
               else setProperty timeData header (record !! header))
            headers [].

(** The callback of [records.forEach]: a row without key is skipped. *)
Definition addTimeRow (headers : list string) (keyCol : string)
    (timeMap : gmap string TimeRow) (record : Record_) : gmap string TimeRow :=
  match record !! keyCol with
  | Some epicId =>
      if nonEmpty epicId then <[epicId := timeRow headers keyCol record]> timeMap
      else timeMap
  | None => timeMap
  end.

(** [headers] and [records] are [None] when missing or not an array; in
    each of these cases the function returns an empty map, from one of its
    guards or from its [catch] block. *)
Definition processTimeCSV (data : MainCSV) : gmap string TimeRow :=
  match headers data, records data with
  | Some hs, Some rs =>
      match findColumn (Some hs) ["Key"; "Issue key"] with
      | Some keyCol =>
          if nonEmpty keyCol then fold_left (addTimeRow hs keyCol) rs ∅ else ∅
      | None => ∅
      end
  | _, _ => ∅
  end.

(** The time data as [mergeEpicData] reads it.  The merge tests each cell
    for truth and parses it, and both treat [undefined] as they treat the
    empty text. *)
Definition timeText (timeData : TimeRow) : TimeData :=
  map (fun '(k, v) => (k, default "" v)) timeData.

Definition timeMapOf (timeMap : gmap string TimeRow) : TimeMapArg :=
  TimeMapOf (timeText <$> timeMap).

(** ** Validation of the main CSV: [validateData] *)

(** [list.join(sep)] *)
Fixpoint join (sep : string) (l : list string) : string :=
  match l with
  | [] => ""
  | [x] => x
  | x :: rest => (x ++ sep ++ join sep rest)%string
  end.

(** [headers.some(header => header.toLowerCase().includes(name))] *)
Definition someHeaderIncludes (headers : list string) (name : string) : bool :=
  existsb (fun header => includes (toLowerCase header) name) headers.

Definition requiredColumns : list string := ["Key"; "Issue Type"; "Status"; "Summary"].

Definition fieldWarning : string :=
  "No Epic Link or Parent Link column found. Child issues will not be linked to epics.".

(** The function returns nothing; the result here is the list of the
    warnings it hands to [ErrorHandler.handle].  [data] is [None] when
    null or undefined, and so are its members. *)
Definition validateData (data : option MainCSV) : result (list string) :=
  match data with
  | Some {| headers := Some hs; records := Some _ |} =>
      if Nat.eqb (length hs) 0 then Throw (Error "CSV file has no headers.")
      else
        let missingColumns :=
          List.filter (fun col => negb (someHeaderIncludes hs (toLowerCase col)))
                      requiredColumns in
        if negb (Nat.eqb (length missingColumns) 0)
        then Throw (Error ("CSV is missing required columns: " ++ join ", " missingColumns)%string)
        else
          let epicLinkCol :=
            existsb (fun header => includes (toLowerCase header) "epic link"
                                   || includes (toLowerCase header) "parent epic") hs in
          let parentLinkCol :=
            existsb (fun header => includes (toLowerCase header) "parent"
                                   || includes (toLowerCase header) "parent link") hs in
          Ok (if negb epicLinkCol && negb parentLinkCol then [fieldWarning] else [])
  | _ => Throw (Error "Invalid CSV data structure.")
  end.

(** ** Vocabulary for the metrics *)

Definition sumQ {A} (f : A -> Q) (l : list A) : Q :=
  fold_right (fun x acc => (f x + acc)%Q) 0%Q l.

Definition committedPoints (epic : Merged.t) : Q := Epic.totalStoryPoints (Merged.epic epic).
Definition completedPoints (epic : Merged.t) : Q :=
  Epic.completedStoryPoints (Merged.epic epic).

Definition isAtRisk (epic : Merged.t) : bool :=
  String.eqb (class (Merged.slaStatus epic)) "at-risk".

Definition inSprint (sprint : string) (epic : Merged.t) : bool :=
  String.eqb (sprintOf epic) sprint.

(** A sprint name that the [sprints] object does not inherit. *)
Definition ownSprint (epic : Merged.t) : Prop :=
  arrayIncludes objectPrototypeProps (sprintOf epic) = false.

(** The bucket of a sprint after the epics [l] have been visited. *)
Definition bucketOf (sprint : string) (l : list Merged.t) (b : Bucket.t) : Prop :=
  Bucket.epics b = List.filter (inSprint sprint) l /\
  Bucket.epics b <> [] /\
  (Bucket.committed b == sumQ committedPoints (Bucket.epics b))%Q /\
  (Bucket.completed b == sumQ completedPoints (Bucket.epics b))%Q.

(** The choice of [sprints[sprint]]: the bucket at hand or a new one. *)
Definition bucketAt (sprints : Sprints) (sprint : string) : Bucket.t :=
  default {| Bucket.committed := 0; Bucket.completed := 0; Bucket.cycleSum := 0;
             Bucket.cycleCount := 0; Bucket.epics := [] |}
          (sprintGet sprints sprint).

(** The running totals after the epics [l] have been visited. *)
Definition totalsOf (l : list Merged.t) (t : Totals) : Prop :=
  (totalCommitted t == sumQ committedPoints l)%Q /\
  (totalCompleted t == sumQ completedPoints l)%Q /\
  atRiskCount t = length (List.filter isAtRisk l) /\
  NoDup (sprints t).*1 /\
  (forall s b, sprintGet (sprints t) s = Some b -> bucketOf s l b) /\
  (forall e, In e l -> is_Some (sprintGet (sprints t) (sprintOf e))) /\
  (sumQ (fun entry => Bucket.committed entry.2) (sprints t) == totalCommitted t)%Q /\
  (sumQ (fun entry => Bucket.completed entry.2) (sprints t) == totalCompleted t)%Q.

(** An epic for the examples: five story points, in sprint S1, merged
    without time data. *)
Definition sampleMerged : Merged.t :=
  mergeEpic_default
    (newEpic parseWhole (resolveColumns (Some ["Key"; "Sprint"; "Story Points"]))
             {["Key" := "E-1"; "Sprint" := "S1"; "Story Points" := "5"]}).

(** A main CSV for the examples: an epic of five points in progress and a
    finished task of three points linked to it; the hierarchy that
    [processMainCSV] builds from it, and its epics merged without time
    data. *)
Definition sampleCSV : MainCSV :=
  {| headers := Some ["Key"; "Issue Type"; "Status"; "Story Points"; "Epic Link"];
     records :=
       Some [{["Key" := "EPIC-1"; "Issue Type" := "Epic"; "Status" := "In Progress";
               "Story Points" := "5"; "Epic Link" := ""]};
             {["Key" := "TASK-1"; "Issue Type" := "Task"; "Status" := "Done";
               "Story Points" := "3"; "Epic Link" := "EPIC-1"]}] |}.

Definition sampleHierarchy : Hierarchy :=
  match processMainCSV parseWhole compareCodes sampleCSV with
  | Ok h => h
  | Throw _ => {| epics := []; childIssues := [] |}
  end.

Definition sampleMergedEpics : list Merged.t :=
  match mergeEpicData None (ArgArray (epics sampleHierarchy)) TimeMapNullish with
  | Ok merged => merged
  | Throw _ => []
  end.

(** ** Threshold settings: [SLAConfig] *)

(** The value of a character as a digit in the given radix (10 or 16). *)
Definition radixDigit (radix : N) (c : ascii) : option N :=
  let v :=
    if isDigit c then Some (digitVal c)
    else if ((97 <=? code c) && (code c <=? 102))%N then Some (code c - 87)%N
    else if ((65 <=? code c) && (code c <=? 70))%N then Some (code c - 55)%N
    else None in
  match v with
  | Some d => if (d <? radix)%N then Some d else None
  | None => None
  end.

(** The digits at the head of the text. *)
Fixpoint radixDigits (radix : N) (s : list ascii) : list N :=
  match s with
  | c :: rest =>
      match radixDigit radix c with
      | Some d => d :: radixDigits radix rest
      | None => []
      end
  | [] => []
  end.

(** [parseInt(s)] without radix: leading blanks, a sign, the prefix [0x]
    or [0X] of a hexadecimal numeral, then as many digits as there are;
    [None] is [NaN].  (The result [-0] is [0] here; both are falsy.) *)
Definition parseInt (s : string) : option Z :=
  let s0 := trimStart (chars s) in
  let '(sign, s1) :=
    match s0 with
    | c :: rest =>
        if Ascii.eqb c "-" then (-1, rest)
        else if Ascii.eqb c "+" then (1, rest) else (1, s0)
    | [] => (1, s0)
    end in
  let '(radix, s2) :=
    match s1 with
    | c :: x :: rest =>
        if Ascii.eqb c "0" && (Ascii.eqb x "x" || Ascii.eqb x "X")
        then (16%N, rest) else (10%N, s1)
    | _ => (10%N, s1)
    end in
  match radixDigits radix s2 with
  | [] => None
  | ds => Some (sign * Z.of_N (fold_left (fun acc d => radix * acc + d)%N ds 0%N))
  end.

Definition DEFAULT_THRESHOLDS : gmap string Z :=
  list_to_map
    [("to do", 15); ("todo", 15); ("researching", 7); ("ready for story refinement", 10);
     ("ready to develop", 7); ("in progress", 20); ("released", 10); ("enabled", 5);
     ("paused", 20); ("default", 30)].

(** [parseInt(value) || SLAConfig.DEFAULT_THRESHOLDS[key]] *)
Definition thresholdOf (value key : string) : Z :=
  match parseInt value with
  | Some n => if Z.eqb n 0 then DEFAULT_THRESHOLDS !!! key else n
  | None => DEFAULT_THRESHOLDS !!! key
  end.

(** [parseInt(document.getElementById(id).value) || SLAConfig.DEFAULT_THRESHOLDS[key]];
    the page is the map from the ids of its input elements to their values. *)
Definition uiValue (page : string -> option string) (id key : string) : result Z :=
  match page id with
  | None => Throw (TypeError "Cannot read properties of null (reading 'value')")
  | Some value => Ok (thresholdOf value key)
  end.

(** The fields of the object literal of [getUIValues], in their order:
    threshold name, id of the input element, name of the default. *)
Definition uiFields : list (string * (string * string)) :=
  [("to do", ("sla-todo", "to do"));
   ("todo", ("sla-todo", "to do"));
   ("researching", ("sla-researching", "researching"));
   ("ready for story refinement", ("sla-refinement", "ready for story refinement"));
   ("refinement", ("sla-refinement", "ready for story refinement"));
   ("refinement ready", ("sla-refinement", "ready for story refinement"));
   ("ready to develop", ("sla-ready-develop", "ready to develop"));
   ("in progress", ("sla-in-progress", "in progress"));
   ("in development", ("sla-in-progress", "in progress"));
   ("released", ("sla-released", "released"));
   ("enabled", ("sla-enabled", "enabled"));
   ("paused", ("sla-paused", "paused"));
   ("default", ("sla-default", "default"))].

Definition getUIValues (page : string -> option string) : result (gmap string Z) :=
  entries ← mapM (fun '(name, (id, key)) => v ← uiValue page id key; Ok (name, v)) uiFields;
  Ok (list_to_map entries).

(** A settings form for the examples: zero days for To Do, twelve days
    everywhere else; and the thresholds read from it. *)
Definition samplePage (id : string) : option string :=
  if String.eqb id "sla-todo" then Some "0" else Some "12".

Definition sampleThresholds : gmap string Z :=
  match getUIValues samplePage with
  | Ok thresholds => thresholds
  | Throw _ => ∅
  end.

(** ** Utilities: [Utils.getUniqueValues] *)

(** [a === b] on values that are texts or [undefined]. *)
Definition sameValue (a b : option string) : bool :=
  match a, b with
  | Some x, Some y => String.eqb x y
  | None, None => true
  | _, _ => false
  end.

(** [new Set(values)], as the list of its elements in insertion order. *)
Fixpoint newSet (values seen : list (option string)) : list (option string) :=
  match values with
  | [] => seen
  | v :: rest =>
      if existsb (sameValue v) seen then newSet rest seen else newSet rest (seen ++ [v])
  end.

(** [[...new Set(array.map(item => item[property]))].filter(Boolean)] for
    a property that holds a text or is [undefined]. *)
Definition getUniqueValues {A} (array : list A) (property : A -> option string)
  : list string :=
  flat_map (fun v => match v with
                     | Some s => if nonEmpty s then [s] else []
                     | None => []
                     end)
           (newSet (map property array) []).

(** ** Table pagination: [UIController] *)

(** [this.rowsPerPage]: ['all'] or a number of rows.  The model covers the
    positive whole numbers. *)
Inductive RowsPerPage :=
| AllRows
| Rows (n : positive).

(** The part of the controller's state that the pagination reads and
    writes. *)
Record Pager (A : Type) := {
  filteredEpics : list A;
  currentPage : Z;
  rowsPerPage : RowsPerPage
}.
Arguments filteredEpics {A} p.
Arguments currentPage {A} p.
Arguments rowsPerPage {A} p.

Definition calculateTotalPages {A} (p : Pager A) : Z :=
  match rowsPerPage p with
  | AllRows => 1
  | Rows n =>
      if Nat.eqb (length (filteredEpics p)) 0 then 1
      else Qceiling (inject_Z (Z.of_nat (length (filteredEpics p))) / inject_Z (Z.pos n))
  end.

(** [array.slice(start, end)]: a negative index counts from the end. *)
Definition slice {A} (l : list A) (start final : Z) : list A :=
  let len := Z.of_nat (length l) in
  let from := if (start <? 0)%Z then Z.max (len + start) 0 else Z.min start len in
  let to := if (final <? 0)%Z then Z.max (len + final) 0 else Z.min final len in
  firstn (Z.to_nat (to - from)) (skipn (Z.to_nat from) l).

(** The text of the pagination info: "Showing all N items" or
    "Showing A-B of N items". *)
Inductive PaginationInfo :=
| ShowingAll (totalItems : Z)
| Showing (startItem endItem totalItems : Z).

(** What [updatePaginatedTable] leaves behind: the state, the rows handed
    to the table, the info text and the two buttons. *)
Record View (A : Type) := {
  pager : Pager A;
  currentPageData : list A;
  paginationInfo : PaginationInfo;
  prevDisabled : bool;
  nextDisabled : bool
}.
Arguments pager {A} v.
Arguments currentPageData {A} v.
Arguments paginationInfo {A} v.
Arguments prevDisabled {A} v.
Arguments nextDisabled {A} v.

Definition updatePaginatedTable {A} (p : Pager A) : View A :=
  let totalItems := Z.of_nat (length (filteredEpics p)) in
  let totalPages := calculateTotalPages p in
  let page := if (totalPages <? currentPage p)%Z then totalPages else currentPage p in
  let data :=
    match rowsPerPage p with
    | AllRows => filteredEpics p
    | Rows n =>
        let startIndex := (page - 1) * Z.pos n in
        let endIndex := Z.min (startIndex + Z.pos n) totalItems in
        slice (filteredEpics p) startIndex endIndex
    end in
  let info :=
    match rowsPerPage p with
    | AllRows => ShowingAll totalItems
    | Rows n =>
        let startItem := if (totalItems =? 0)%Z then 0 else (page - 1) * Z.pos n + 1 in
        let endItem := Z.min (startItem + Z.pos n - 1) totalItems in
        Showing startItem endItem totalItems
    end in
  {| pager := {| filteredEpics := filteredEpics p; currentPage := page;
                 rowsPerPage := rowsPerPage p |};
     currentPageData := data;
     paginationInfo := info;
     prevDisabled := (page <=? 1)%Z;
     nextDisabled := (totalPages <=? page)%Z
                     || match rowsPerPage p with AllRows => true | Rows _ => false end |}.

(** The page numbers from 1 to [n]. *)
Definition pageNumbers (n : Z) : list Z := map (fun k => Z.of_nat k + 1) (seq 0 (Z.to_nat n)).

(** ** Structure validator: [DataValidator] *)

(** The first header whose lower-case form passes the test. *)
Fixpoint firstLower (test : string -> bool) (headers : list string) : option string :=
  match headers with
  | [] => None
  | h :: rest => if test (toLowerCase h) then Some h else firstLower test rest
  end.

(** [findHeaderMatch]: for each name in turn, the first header equal to
    it in lower case, or else the first header that contains it. *)
Fixpoint findHeaderMatch (headers possibilities : list string) : option string :=
  match possibilities with
  | [] => None
  | name :: rest =>
      let normalizedName := toLowerCase name in
      match firstLower (fun h => String.eqb h normalizedName) headers with
      | Some h => Some h
      | None =>
          match firstLower (fun h => includes h normalizedName) headers with
          | Some h => Some h
          | None => findHeaderMatch headers rest
          end
      end
  end.








(** ** Time data validator: [DataValidator.validateTimeData] *)

Record TimeValidation := {
  timeValid : bool;
  timeWarnings : list string
}.

(** [set.has(x)] on a set of cells, each a text or [undefined]. *)
Definition setHas (set : list (option string)) (x : option string) : bool :=
  existsb (sameValue x) set.

(** [timeData] is [None] when null or undefined; its [records] are [None]
    when missing.  Its headers are read without a guard. *)
Definition validateTimeData (timeData : option MainCSV) (epics : list Epic.t)
  : result TimeValidation :=
  let noRecords := Ok {| timeValid := true; timeWarnings := ["No time data records found"] |} in
  match timeData with
  | None => noRecords
  | Some data =>
      match records data with
      | None => noRecords
      | Some rs =>
          if Nat.eqb (length rs) 0 then noRecords
          else
            match headers data with
            | None => Throw (TypeError "Cannot read properties of undefined (reading 'map')")
            | Some hs =>
                let keyColumn := findHeaderMatch hs ["Key"; "Issue key"; "ID"] in
                if negb (truthyStr keyColumn)
                then Ok {| timeValid := false;
                           timeWarnings := ["Time data CSV is missing a key/ID column"] |}
                else
                  let timeKeys := newSet (map (fun record => cell record keyColumn) rs) [] in
                  let epicKeys := newSet (map Epic.id epics) [] in
                  let matchCount := length (List.filter (setHas timeKeys) epicKeys) in
                  let matchPercentage :=
                    if Nat.ltb 0 (length epicKeys)
                    then (QofNat matchCount / QofNat (length epicKeys) * 100)%Q
                    else 0%Q in
                  let warnings1 :=
                    if Qlt_le_dec matchPercentage 50
                    then [("Only " ++ toFixed1 matchPercentage
                           ++ "% of epics have matching time data")%string]
                    else [] in
                  Ok (if Nat.eqb matchCount 0
                      then {| timeValid := false;
                              timeWarnings :=
                                warnings1 ++ ["No matching epic keys found in time data"] |}
                      else {| timeValid := true; timeWarnings := warnings1 |})
            end
      end
  end.

(** Time data for the examples: one row, for the epic of [sampleCSV]. *)
Definition sampleTimeCSV : MainCSV :=
  {| headers := Some ["Key"; "In Progress"];
     records := Some [{["Key" := "EPIC-1"; "In Progress" := "3d"]}] |}.

(** * Properties *)

Example parseTimeInStatus_doc :
  parseTimeInStatus (VString "2w 3d 5h") = Ok (0 + (2 * 7 + 3 + 5 / 24))%Q.
Proof. reflexivity. Qed.

(** ** The duration pattern *)

Section Extraction.

Variable u : ascii.
Hypothesis unit_not_digit : isDigit u = false.

Lemma spanDigits_split s ds rest :
  spanDigits s = (ds, rest) ->
  s = ds ++ rest /\ Forall (fun c => isDigit c = true) ds.
Proof.
  revert ds rest. induction s as [|c s IH]; simpl; intros ds rest H.
  - inversion H; subst. split; [reflexivity | constructor].
  - destruct (isDigit c) eqn:Hc.
    + destruct (spanDigits s) as [ds' rest'] eqn:Hs. inversion H; subst.
      destruct (IH _ _ eq_refl) as [-> Hall]. split; [reflexivity|].
      constructor; assumption.
    + inversion H; subst. split; [reflexivity | constructor].
Qed.

Lemma spanDigits_run ds c post :
  Forall (fun c => isDigit c = true) ds -> isDigit c = false ->
  spanDigits (ds ++ c :: post) = (ds, c :: post).
Proof.
  intros Hall Hc. induction Hall as [|d ds Hd _ IH]; simpl.
  - rewrite Hc. reflexivity.
  - rewrite Hd, IH. reflexivity.
Qed.

Lemma matchHere_Some s ds :
  matchHere u s = Some ds ->
  exists post, s = ds ++ u :: post /\ ds <> [] /\ Forall (fun c => isDigit c = true) ds.
Proof.
  unfold matchHere. destruct (spanDigits s) as [run rest] eqn:Hs.
  destruct run as [|d run]; [discriminate|].
  destruct rest as [|c rest]; [discriminate|].
  destruct (Ascii.eqb c u) eqn:Hcu; [|discriminate].
  intros H; inversion H; subst. apply Ascii.eqb_eq in Hcu. subst c.
  apply spanDigits_split in Hs. destruct Hs as [-> Hall].
  exists rest. split; [reflexivity|]. split; [discriminate | assumption].
Qed.

Lemma matchHere_run ds post :
  ds <> [] -> Forall (fun c => isDigit c = true) ds ->
  matchHere u (ds ++ u :: post) = Some ds.
Proof.
  intros Hne Hall. unfold matchHere.
  rewrite (spanDigits_run ds u post Hall unit_not_digit).
  destruct ds as [|d ds]; [congruence|]. rewrite Ascii.eqb_refl. reflexivity.
Qed.

Lemma matchHere_pair d rest :
  isDigit d = true -> matchHere u (d :: u :: rest) = Some [d].
Proof.
  intros Hd. apply (matchHere_run [d] rest); [discriminate|].
  constructor; [assumption | constructor].
Qed.

Lemma Pair_cons c s :
  Pair u (c :: s) ->
  (isDigit c = true /\ exists rest, s = u :: rest) \/ Pair u s.
Proof.
  intros (pre & d & post & Heq & Hd). destruct pre as [|x pre]; simpl in Heq.
  - inversion Heq; subst. left. split; [assumption | eauto].
  - inversion Heq; subst. right. exists pre, d, post. split; [reflexivity | assumption].
Qed.

Lemma Pair_of_run pre ds post :
  ds <> [] -> Forall (fun c => isDigit c = true) ds ->
  Pair u (pre ++ ds ++ u :: post).
Proof.
  intros Hne Hall. destruct (exists_last Hne) as (ds' & d & ->).
  apply Forall_app in Hall. destruct Hall as [_ Hd]. inversion Hd; subst.
  exists (pre ++ ds'), d, post. split; [|assumption].
  rewrite <- !app_assoc. reflexivity.
Qed.

Lemma capture_Some_Pair s ds : capture u s = Some ds -> Pair u s.
Proof.
  induction s as [|c s IH]; simpl.
  - unfold matchHere; simpl. discriminate.
  - destruct (matchHere u (c :: s)) as [run|] eqn:Hm.
    + intros _. apply matchHere_Some in Hm. destruct Hm as (post & -> & Hne & Hall).
      apply (Pair_of_run [] run post Hne Hall).
    + intros H. destruct (IH H) as (pre & d & post & -> & Hd).
      exists (c :: pre), d, post. split; [reflexivity | assumption].
Qed.

Lemma capture_eq s :
  capture u s =
  match matchHere u s with
  | Some ds => Some ds
  | None => match s with [] => None | _ :: s' => capture u s' end
  end.
Proof. destruct s; reflexivity. Qed.

(** The capture is the first run of digits followed by the unit. *)
Lemma capture_first pre ds post :
  ds <> [] -> Forall (fun c => isDigit c = true) ds ->
  EndsOpen pre -> ~ Pair u pre ->
  capture u (pre ++ ds ++ u :: post) = Some ds.
Proof.
  intros Hne Hall. induction pre as [|c pre IH]; intros Hopen Hno.
  - rewrite capture_eq. simpl app. rewrite (matchHere_run ds post Hne Hall). reflexivity.
  - rewrite capture_eq. simpl app.
    destruct (matchHere u (c :: pre ++ ds ++ u :: post)) as [run|] eqn:Hm.
    + exfalso. apply matchHere_Some in Hm. destruct Hm as (post' & Heq & Hrne & Hrun).
      change (c :: pre ++ ds ++ u :: post) with ((c :: pre) ++ ds ++ u :: post) in Heq.
      apply app_eq_app in Heq. destruct Heq as (l & [[Hpre Hrest] | [Hrun' Hrest]]).
      * (* the run and its unit end inside [pre] *)
        destruct l as [|x l].
        -- rewrite app_nil_r in Hpre. destruct (exists_last Hrne) as (r' & d & Hr).
           rewrite Hr in Hpre, Hrun. apply Forall_app in Hrun. destruct Hrun as [_ Hd].
           inversion Hd; subst. rewrite (Hopen r' d Hpre) in *. discriminate.
        -- simpl in Hrest. inversion Hrest; subst x. apply Hno. rewrite Hpre.
           replace (run ++ u :: l) with ([] ++ run ++ u :: l) by reflexivity.
           apply Pair_of_run; assumption.
      * (* the run covers [pre] *)
        rewrite Hrun' in Hrun. apply Forall_app in Hrun. destruct Hrun as [Hp _].
        assert (Hcp : c :: pre <> []) by discriminate.
        destruct (exists_last Hcp) as (p' & x & Hp').
        rewrite Hp' in Hp. apply Forall_app in Hp. destruct Hp as [_ Hx].
        inversion Hx; subst. rewrite (Hopen p' x Hp') in *. discriminate.
    + apply IH.
      * intros pre' x Hp. apply (Hopen (c :: pre') x). rewrite Hp. reflexivity.
      * intros (p & d & q & Hp & Hd). apply Hno. exists (c :: p), d, q.
        rewrite Hp. split; [reflexivity | assumption].
Qed.

Lemma capture_Extracted s :
  Extracted u s (match capture u s with Some ds => parseDigits ds | None => 0%N end).
Proof.
  induction s as [|c s IH].
  - simpl. apply Extracted_absent. intros (pre & d & post & H & _).
    destruct pre; discriminate.
  - simpl. destruct (matchHere u (c :: s)) as [run|] eqn:Hm.
    + apply matchHere_Some in Hm. destruct Hm as (post & Heq & Hne & Hall).
      apply (Extracted_first u (c :: s) [] run post); try assumption.
      * intros pre' x H. destruct pre'; discriminate.
      * intros (pre & d & q & H & _). destruct pre; discriminate.
    + assert (Hhead : forall rest, isDigit c = true -> s <> u :: rest).
      { intros rest Hc ->. rewrite (matchHere_pair c rest Hc) in Hm. discriminate. }
      inversion IH as [Hno Hn | pre ds post Heq Hne Hall Hopen Hno Hn].
      * apply Extracted_absent. intros HP. apply Pair_cons in HP.
        destruct HP as [[Hc [rest Hs]] | HP]; [exact (Hhead rest Hc Hs) | exact (Hno HP)].
      * apply (Extracted_first u (c :: s) (c :: pre) ds post); try assumption.
        -- rewrite Heq. reflexivity.
        -- intros pre' x Hp. destruct pre' as [|y pre'].
           ++ simpl in Hp. inversion Hp; subst. simpl in Hm.
              destruct (isDigit x) eqn:Hx; [|reflexivity].
              change (x :: ds ++ u :: post) with ((x :: ds) ++ u :: post) in Hm.
              rewrite matchHere_run in Hm; [discriminate | discriminate |].
              constructor; assumption.
           ++ simpl in Hp. inversion Hp; subst. apply (Hopen pre' x eq_refl).
        -- intros HP. apply Pair_cons in HP.
           destruct HP as [[Hc [rest Hs]] | HP]; [|exact (Hno HP)].
           apply (Hhead (rest ++ ds ++ u :: post) Hc). rewrite Heq, Hs. reflexivity.
Qed.

Lemma Extracted_capture s n :
  Extracted u s n ->
  match capture u s with Some ds => parseDigits ds | None => 0%N end = n.
Proof.
  intros [Hno | pre ds post Heq Hne Hall Hopen Hno].
  - destruct (capture u s) as [ds|] eqn:Hc; [|reflexivity].
    exfalso. apply Hno. apply (capture_Some_Pair s ds Hc).
  - rewrite Heq, capture_first; auto.
Qed.


End Extraction.

Lemma count_Extracted (u : ascii) (s : string) (n : N) :
  isDigit u = false -> (Extracted u (chars s) n <-> count u s = n).
Proof.
  intros Hu. unfold count. split.
  - apply Extracted_capture; assumption.
  - intros <-. apply capture_Extracted; assumption.
Qed.



Lemma parseTimeInStatus_string (s : string) :
  exists q, parseTimeInStatus (VString s) = Ok q /\
    (q == QofN (count "w" s) * 7 + QofN (count "d" s) + QofN (count "h" s) / 24)%Q.
Proof.
  unfold parseTimeInStatus. destruct s as [|c s].
  - exists 0%Q. split; reflexivity.
  - destruct (isString (VString (String c s)) "-") eqn:Hdash.
    { unfold isString in Hdash. apply String.eqb_eq in Hdash. rewrite Hdash.
      exists 0%Q. split; reflexivity. }
    destruct (isString (VString (String c s)) "No data") eqn:Hnd.
    { unfold isString in Hnd. apply String.eqb_eq in Hnd. rewrite Hnd.
      exists 0%Q. split; reflexivity. }
    simpl negb. simpl orb. simpl tryCatch. eexists. split; [reflexivity|].
    apply Qplus_0_l.
Qed.

(** C1 (amended).  For every text, [parseTimeInStatus] returns
    [weeks*7 + days + hours/24], where each of the three counts is the number
    written by the first run of digits immediately followed by the lower-case
    letter [w], [d] or [h] respectively, and [0] when the text has no such
    run; the three are found independently of one another, so any subset may
    be present, in any order. *)
Theorem parseTimeInStatus_formula (s : string) (w d h : N) :
  Extracted "w" (chars s) w ->
  Extracted "d" (chars s) d ->
  Extracted "h" (chars s) h ->
  exists q, parseTimeInStatus (VString s) = Ok q /\
    (q == QofN w * 7 + QofN d + QofN h / 24)%Q.
Proof.
  intros Hw Hd Hh.
  apply count_Extracted in Hw; [|reflexivity].
  apply count_Extracted in Hd; [|reflexivity].
  apply count_Extracted in Hh; [|reflexivity].
  subst. apply parseTimeInStatus_string.
Qed.

(** The three counts always exist, so the formula always applies. *)
Lemma Extracted_total (u : ascii) (s : string) :
  isDigit u = false -> exists n, Extracted u (chars s) n.
Proof. intros Hu. exists (count u s). apply count_Extracted; auto. Qed.

(** [parseTimeInStatus("2w 3d 5h")] is [2*7 + 3 + 5/24 = 413/24 = 17.208333...]. *)
Lemma parseTimeInStatus_formula_witness :
  exists q, parseTimeInStatus (VString "2w 3d 5h") = Ok q /\
    (q == 2 * 7 + 3 + 5 / 24)%Q.
Proof.
  apply (parseTimeInStatus_formula "2w 3d 5h" 2 3 5);
    apply count_Extracted; reflexivity.
Defined.

(** C1 as stated fails twice: the value of ["2w 3d 5h"] is [413/24]
    (17.208333...), not 19.208333... [= 461/24]; and upper-case unit letters
    are not recognised, so ["2W 3D 5H"] yields [0] where the spec's reading
    gives [413/24]. *)
Lemma parseTimeInStatus_spec_counterexample :
  (exists q, parseTimeInStatus (VString "2w 3d 5h") = Ok q /\
     (q == 413 # 24)%Q /\ ~ (q == 461 # 24)%Q) /\
  (exists q, parseTimeInStatus (VString "2W 3D 5H") = Ok q /\
     (q == 0)%Q /\ (parseDuration_spec "2W 3D 5H" == 413 # 24)%Q /\
     ~ (q == parseDuration_spec "2W 3D 5H")%Q).
Proof.
  split.
  - eexists. split; [reflexivity|]. split; [reflexivity|]. intros H. discriminate H.
  - eexists. split; [reflexivity|]. split; [reflexivity|]. split; [reflexivity|].
    intros H. discriminate H.
Qed.




(** ** SLA classification *)

Lemma reaches_Days (days : Q) (z : Z) :
  ((inject_Z z <= days)%Q -> reaches days (Days z) = true) /\
  ((days < inject_Z z)%Q -> reaches days (Days z) = false).
Proof.
  simpl. split; intros H.
  - apply Qle_bool_iff. exact H.
  - destruct (Qle_bool (inject_Z z) days) eqn:Hb; [|reflexivity].
    apply Qle_bool_iff in Hb. exfalso. exact (Qlt_not_le _ _ H Hb).
Qed.

Lemma getProp_default (thresholds : gmap string Z) :
  getProp thresholds "default" =
  match thresholds !! "default" with Some d => Own d | None => Undefined end.
Proof. unfold getProp. destruct (thresholds !! "default"); reflexivity. Qed.

Lemma calculateSLAStatus_eq
    (slaConfig : option (gmap string Z)) (status text : string) (days : Q) :
  parseTimeInStatus (VString text) = Ok days ->
  calculateSLAStatus slaConfig (Some status) (VString text) =
  if arrayIncludes COMPLETED_STATUSES (toLowerCase status) then Ok slaClosed
  else Ok (if reaches days (lookupThreshold (getSLAThresholds slaConfig) (toLowerCase status))
           then slaAtRisk else slaOnTrack).
Proof.
  intros H. unfold calculateSLAStatus, isCompleted, optLower. rewrite H.
  reflexivity.
Qed.

Lemma arrayIncludes_In (arr : list string) (x : string) :
  arrayIncludes arr x = true <-> In x arr.
Proof.
  unfold arrayIncludes. rewrite existsb_exists. split.
  - intros (y & Hy & Heq). apply String.eqb_eq in Heq. subst y. exact Hy.
  - intros Hx. exists x. split; [exact Hx | apply String.eqb_refl].
Qed.

(** C2 (amended).  A status that, in lower case, is one of done, completed,
    closed, released, deployed to production, signed off is classified
    [{closed, "Closed"}] whatever the time text.  Any other status, the
    names of the members that every object inherits apart ([constructor],
    [__proto__] and the others listed), is classified from
    [days = parseTimeInStatus(text)] and a threshold: the status' own entry
    when it is listed with a non-zero value; the [default] entry when the
    status is not listed or is listed with [0]; [{at-risk, "At Risk"}] when
    [days >= threshold] (equality included), [{on-track, "On Track"}]
    otherwise, also when neither entry exists. *)
Theorem calculateSLAStatus_classifies
    (slaConfig : option (gmap string Z)) (status timeString : string) (days : Q) :
  parseTimeInStatus (VString timeString) = Ok days ->
  ~ In (toLowerCase status)
       ["constructor"; "__proto__"; "toString"; "valueOf"; "toLocaleString";
        "hasOwnProperty"; "isPrototypeOf"; "propertyIsEnumerable";
        "__defineGetter__"; "__defineSetter__"; "__lookupGetter__"; "__lookupSetter__"] ->
  let thresholds := getSLAThresholds slaConfig in
  let k := toLowerCase status in
  let res := calculateSLAStatus slaConfig (Some status) (VString timeString) in
  let completed :=
    In k ["done"; "completed"; "closed"; "released"; "deployed to production"; "signed off"] in
  let classify (z : Z) :=
    ((inject_Z z <= days)%Q -> res = Ok {| class := "at-risk"; text := "At Risk" |}) /\
    ((days < inject_Z z)%Q -> res = Ok {| class := "on-track"; text := "On Track" |}) in
  (completed -> res = Ok {| class := "closed"; text := "Closed" |}) /\
  (~ completed ->
     (forall z, thresholds !! k = Some z -> z <> 0 -> classify z) /\
     (thresholds !! k = Some 0 \/ thresholds !! k = None ->
        match thresholds !! "default" with
        | Some d => classify d
        | None => res = Ok {| class := "on-track"; text := "On Track" |}
        end)).
Proof.
  intros Hdays Hinherited thresholds k res completed classify.
  assert (Hown : arrayIncludes objectPrototypeProps (toLowerCase status) = false).
  { destruct (arrayIncludes objectPrototypeProps (toLowerCase status)) eqn:E; [|reflexivity].
    exfalso. apply Hinherited. apply arrayIncludes_In in E. exact E. }
  assert (Hcompleted : arrayIncludes COMPLETED_STATUSES k = true <-> completed).
  { apply arrayIncludes_In. }
  assert (Hcls : forall z, lookupThreshold thresholds k = Days z -> ~ completed -> classify z).
  { intros z Hth Hnc. unfold classify, res.
    rewrite (calculateSLAStatus_eq _ _ _ _ Hdays). fold k thresholds.
    destruct (arrayIncludes COMPLETED_STATUSES k); [exfalso; apply Hnc, Hcompleted; reflexivity|].
    rewrite Hth. destruct (reaches_Days days z) as [Hge Hlt].
    split; intros H; [rewrite (Hge H) | rewrite (Hlt H)]; reflexivity. }
  split.
  - intros Hc. apply Hcompleted in Hc. unfold res.
    rewrite (calculateSLAStatus_eq _ _ _ _ Hdays). fold k. rewrite Hc. reflexivity.
  - intros Hnc. split.
    + intros z Hk Hz. apply Hcls; [|exact Hnc].
      unfold lookupThreshold, getProp. rewrite Hk.
      destruct (Z.eqb_spec z 0); [contradiction | reflexivity].
    + intros Hfall.
      assert (Hl : lookupThreshold thresholds k =
                   match thresholds !! "default" with Some d => Days d | None => NoThreshold end).
      { unfold lookupThreshold. rewrite getProp_default. unfold getProp.
        destruct Hfall as [Hk | Hk]; rewrite Hk; [|fold k in Hown; rewrite Hown];
          destruct (thresholds !! "default"); reflexivity. }
      destruct (thresholds !! "default") as [d|].
      * apply Hcls; assumption.
      * unfold res. rewrite (calculateSLAStatus_eq _ _ _ _ Hdays). fold k thresholds.
        destruct (arrayIncludes COMPLETED_STATUSES k);
          [exfalso; apply Hnc, Hcompleted; reflexivity|].
        rewrite Hl. reflexivity.
Qed.

(** With the built-in thresholds: a completed epic is closed however long
    it took; an epic exactly at the threshold of its status (20 days in
    progress) is already at risk, and a day earlier it is on track; a status
    without an entry is measured against the default of 30 days. *)
Lemma calculateSLAStatus_classifies_witness :
  calculateSLAStatus None (Some "Done") (VString "99w") =
    Ok {| class := "closed"; text := "Closed" |} /\
  calculateSLAStatus None (Some "In Progress") (VString "20d") =
    Ok {| class := "at-risk"; text := "At Risk" |} /\
  calculateSLAStatus None (Some "In Progress") (VString "2w 5d 23h") =
    Ok {| class := "on-track"; text := "On Track" |} /\
  calculateSLAStatus None (Some "Blocked") (VString "30d") =
    Ok {| class := "at-risk"; text := "At Risk" |}.
Proof.
  assert (Hown : forall status : string,
    forallb (fun name => negb (String.eqb (toLowerCase status) name))
      ["constructor"; "__proto__"; "toString"; "valueOf"; "toLocaleString";
       "hasOwnProperty"; "isPrototypeOf"; "propertyIsEnumerable";
       "__defineGetter__"; "__defineSetter__"; "__lookupGetter__"; "__lookupSetter__"] = true ->
    ~ In (toLowerCase status)
         ["constructor"; "__proto__"; "toString"; "valueOf"; "toLocaleString";
          "hasOwnProperty"; "isPrototypeOf"; "propertyIsEnumerable";
          "__defineGetter__"; "__defineSetter__"; "__lookupGetter__"; "__lookupSetter__"]).
  { intros status Hall Hin. rewrite forallb_forall in Hall.
    specialize (Hall _ Hin). rewrite String.eqb_refl in Hall. discriminate Hall. }
  split; [|split; [|split]].
  - destruct (calculateSLAStatus_classifies None "Done" "99w" _ eq_refl (Hown "Done" eq_refl))
      as [H _].
    apply H. simpl. tauto.
  - destruct (calculateSLAStatus_classifies None "In Progress" "20d" _ eq_refl
                (Hown "In Progress" eq_refl))
      as [_ H].
    destruct H as [Hlisted _].
    { simpl. intros [H|[H|[H|[H|[H|[H|[]]]]]]]; discriminate H. }
    destruct (Hlisted 20 eq_refl) as [Hge _]; [discriminate|].
    apply Hge. vm_compute. discriminate.
  - destruct (calculateSLAStatus_classifies None "In Progress" "2w 5d 23h" _ eq_refl
                (Hown "In Progress" eq_refl))
      as [_ H].
    destruct H as [Hlisted _].
    { simpl. intros [H|[H|[H|[H|[H|[H|[]]]]]]]; discriminate H. }
    destruct (Hlisted 20 eq_refl) as [_ Hlt]; [discriminate|].
    apply Hlt. vm_compute. reflexivity.
  - destruct (calculateSLAStatus_classifies None "Blocked" "30d" _ eq_refl
                (Hown "Blocked" eq_refl))
      as [_ H].
    destruct H as [_ Hdefault].
    { simpl. intros [H|[H|[H|[H|[H|[H|[]]]]]]]; discriminate H. }
    destruct (Hdefault (or_intror eq_refl)) as [Hge _].
    apply Hge. vm_compute. discriminate.
Defined.

(** C2 as stated fails where the status is listed with threshold [0]: the
    code then uses the default entry (5 days against 30: on track) where
    the spec's reading compares with 0 (at risk). *)
Lemma calculateSLAStatus_spec_counterexample :
  let thresholds : gmap string Z := <["to do" := 0]> {["default" := 30]} in
  calculateSLAStatus (Some thresholds) (Some "To Do") (VString "5d") =
    Ok {| class := "on-track"; text := "On Track" |} /\
  parseTimeInStatus (VString "5d") = Ok (0 + (0 * 7 + 5 + 0 / 24))%Q /\
  thresholds !! "to do" = Some 0 /\
  lookupThreshold_spec thresholds (toLowerCase "To Do") = Some 0 /\
  calculateSLAStatus_spec thresholds "To Do" (0 + (0 * 7 + 5 + 0 / 24))%Q =
    {| class := "at-risk"; text := "At Risk" |}.
Proof. vm_compute. repeat split. Qed.

(** ** Merging epics with their time data *)

Lemma mapM_Ok {A B} (f : A -> result B) (g : A -> B) (l : list A) :
  (forall x, f x = Ok (g x)) -> mapM f l = Ok (map g l).
Proof.
  intros Hf. induction l as [|x l IH]; [reflexivity|].
  simpl. rewrite Hf. simpl. rewrite IH. reflexivity.
Qed.

Section MergeFacts.

Variable slaConfig : option (gmap string Z).

Lemma mergeEpic_Ok timeMap epic :
  mergeEpic slaConfig timeMap epic = Ok (mergedOrDefault slaConfig timeMap epic).
Proof.
  unfold mergeEpic, mergedOrDefault, tryCatch.
  destruct (mergeEpic_body slaConfig timeMap epic); reflexivity.
Qed.

Lemma mergeEpicData_array epics timeMap :
  mergeEpicData slaConfig (ArgArray epics) timeMap =
  Ok (map (mergedOrDefault slaConfig (effectiveTimeMap timeMap)) epics).
Proof.
  unfold mergeEpicData. cbv zeta.
  rewrite (mapM_Ok _ (mergedOrDefault slaConfig (effectiveTimeMap timeMap))).
  - reflexivity.
  - intros epic. apply mergeEpic_Ok.
Qed.

Lemma mergeEpic_body_no_time epic :
  mergeEpic_body slaConfig (TimeMapOf ∅) epic =
  Ok {| Merged.epic := epic;
        Merged.timeInStatus := "-";
        Merged.cycleTime := "-";
        Merged.slaStatus := slaOfNoTime slaConfig (Epic.status epic) |}.
Proof.
  unfold mergeEpic_body, timeDataOf.
  assert (Hempty : default [] (Epic.id epic ≫= ((∅ : gmap string TimeData) !!.)) = []).
  { destruct (Epic.id epic) as [k|]; simpl; [rewrite lookup_empty|]; reflexivity. }
  rewrite Hempty. simpl. unfold calculateSLAStatus, slaOfNoTime.
  destruct (isCompleted (Epic.status epic)); reflexivity.
Qed.

End MergeFacts.








(** C10.  Called with [null], [undefined] or a value that is not an array
    in place of the epics, [mergeEpicData] returns the empty list.  Called
    with [null] or [undefined] in place of the time map, it returns what it
    returns for an empty map: every epic with [timeInStatus = "-"],
    [cycleTime = "-"] and the SLA status of its status at zero days. *)
Theorem mergeEpicData_guards
    (slaConfig : option (gmap string Z)) (epics : list Epic.t) (timeMap : TimeMapArg) :
  mergeEpicData slaConfig ArgNull timeMap = Ok [] /\
  mergeEpicData slaConfig ArgUndefined timeMap = Ok [] /\
  mergeEpicData slaConfig ArgNotArray timeMap = Ok [] /\
  mergeEpicData slaConfig (ArgArray epics) TimeMapNullish =
    mergeEpicData slaConfig (ArgArray epics) (TimeMapOf ∅) /\
  mergeEpicData slaConfig (ArgArray epics) TimeMapNullish =
    Ok (map (fun epic =>
               {| Merged.epic := epic;
                  Merged.timeInStatus := "-";
                  Merged.cycleTime := "-";
                  Merged.slaStatus := slaOfNoTime slaConfig (Epic.status epic) |}) epics).
Proof.
  repeat split; try reflexivity.
  rewrite mergeEpicData_array. f_equal. apply map_ext. intros epic.
  unfold mergedOrDefault. simpl effectiveTimeMap.
  rewrite mergeEpic_body_no_time. reflexivity.
Qed.

(** ** Linkage strategies *)

Section Linkage.

Variable parseFloat : string -> option Q.
Variable cols : Columns.
Variable index : Index.

Lemma usable_truthy k : truthyStr k = true -> usable k = k.
Proof. unfold usable. intros ->. reflexivity. Qed.

Lemma usable_falsy k : truthyStr k = false -> usable k = None.
Proof. unfold usable. intros ->. reflexivity. Qed.

Lemma usable_Some k s : usable k = Some s -> k = Some s /\ truthyStr k = true.
Proof.
  unfold usable. destruct (truthyStr k) eqn:Hk; [|discriminate].
  intros H. split; [exact H | reflexivity].
Qed.

(** A method leaves a key that is already usable alone. *)
Lemma method1_keep k record : truthyStr k = true -> method1 cols index k record = k.
Proof. intros Hk. unfold method1. rewrite Hk. reflexivity. Qed.
Lemma method2_keep k record : truthyStr k = true -> method2 cols index k record = k.
Proof. intros Hk. unfold method2. rewrite Hk. reflexivity. Qed.
Lemma method3_keep k record : truthyStr k = true -> method3 cols index k record = k.
Proof. intros Hk. unfold method3. rewrite Hk. reflexivity. Qed.
Lemma method4_keep k record : truthyStr k = true -> method4 cols index k record = k.
Proof. intros Hk. unfold method4. rewrite Hk. reflexivity. Qed.

(** What a method finds depends on the current key only through its
    being usable or not. *)
Lemma method1_fresh k record :
  truthyStr k = false ->
  usable (method1 cols index k record) = strategy1 cols index record.
Proof.
  intros Hk. unfold strategy1, method1. rewrite Hk. simpl.
  destruct (truthyStr (epicLinkCol cols) && truthyStr (cell record (epicLinkCol cols))); simpl.
  - destruct (hasEpic index (cell record (epicLinkCol cols))); [reflexivity|].
    rewrite (usable_falsy k Hk). reflexivity.
  - rewrite (usable_falsy k Hk). reflexivity.
Qed.

Lemma method2_fresh k record :
  truthyStr k = false ->
  usable (method2 cols index k record) = strategy2 cols index record.
Proof.
  intros Hk. unfold strategy2, method2. rewrite Hk. simpl.
  destruct (truthyStr (epicKeyCol cols) && truthyStr (cell record (epicKeyCol cols))); simpl.
  - destruct (hasEpic index (cell record (epicKeyCol cols))); [reflexivity|].
    rewrite (usable_falsy k Hk). reflexivity.
  - rewrite (usable_falsy k Hk). reflexivity.
Qed.

Lemma method3_fresh k record :
  truthyStr k = false ->
  usable (method3 cols index k record) = strategy3 cols index record.
Proof.
  intros Hk. unfold strategy3, method3. rewrite Hk. simpl.
  destruct (truthyStr (parentCol cols) && truthyStr (cell record (parentCol cols))); simpl.
  - destruct (cell record (parentCol cols) ≫= (issuesById index !!.)) as [parentRecord|].
    + destruct (isEpicType (optLower (cell parentRecord (typeCol cols)))); [reflexivity|].
      rewrite (usable_falsy k Hk). reflexivity.
    + rewrite (usable_falsy k Hk). reflexivity.
  - rewrite (usable_falsy k Hk). reflexivity.
Qed.

Lemma method4_fresh k record :
  truthyStr k = false ->
  usable (method4 cols index k record) = strategy4 cols index record.
Proof.
  intros Hk. unfold strategy4, method4. rewrite Hk. simpl.
  destruct (truthyStr (customParentCol cols) && truthyStr (cell record (customParentCol cols)));
    simpl.
  - destruct (hasEpic index (cell record (customParentCol cols))); [reflexivity|].
    rewrite (usable_falsy k Hk). reflexivity.
  - rewrite (usable_falsy k Hk). reflexivity.
Qed.

Lemma truthy_usable k : truthyStr k = true \/ (truthyStr k = false /\ usable k = None).
Proof.
  destruct (truthyStr k) eqn:Hk; [left; reflexivity|].
  right. split; [reflexivity | apply usable_falsy; exact Hk].
Qed.

Lemma findParentEpicKey_priority record :
  usable (findParentEpicKey cols index record) =
  firstSuccess [strategy1 cols index record; strategy2 cols index record;
                strategy3 cols index record; strategy4 cols index record].
Proof.
  unfold findParentEpicKey.
  set (k1 := method1 cols index None record).
  assert (H1 : usable k1 = strategy1 cols index record) by reflexivity.
  destruct (truthy_usable k1) as [T1 | [F1 U1]].
  { rewrite (method2_keep k1 record T1), (method3_keep k1 record T1),
      (method4_keep k1 record T1).
    rewrite <- H1, (usable_truthy k1 T1). destruct k1; [reflexivity | discriminate]. }
  rewrite <- H1, U1. simpl.
  set (k2 := method2 cols index k1 record).
  assert (H2 : usable k2 = strategy2 cols index record) by (apply method2_fresh; exact F1).
  destruct (truthy_usable k2) as [T2 | [F2 U2]].
  { rewrite (method3_keep k2 record T2), (method4_keep k2 record T2).
    rewrite <- H2, (usable_truthy k2 T2). destruct k2; [reflexivity | discriminate]. }
  rewrite <- H2, U2.
  set (k3 := method3 cols index k2 record).
  assert (H3 : usable k3 = strategy3 cols index record) by (apply method3_fresh; exact F2).
  destruct (truthy_usable k3) as [T3 | [F3 U3]].
  { rewrite (method4_keep k3 record T3).
    rewrite <- H3, (usable_truthy k3 T3). destruct k3; [reflexivity | discriminate]. }
  rewrite <- H3, U3.
  rewrite (method4_fresh k3 record F3).
  destruct (strategy4 cols index record); reflexivity.
Qed.

End Linkage.

(** *** What each strategy accepts *)

Section StrategyFacts.

Variable cols : Columns.
Variable index : Index.

Lemma key_field_usable col record k :
  usable (if negb (truthyStr None) && truthyStr col && truthyStr (cell record col)
          then (if hasEpic index (cell record col) then cell record col else None)
          else None) = Some k <->
  KeyField index col record k.
Proof.
  unfold KeyField, hasEpic. simpl.
  destruct (truthyStr col); simpl; [|unfold usable; simpl; split; [discriminate | intros [? _]; discriminate]].
  destruct (cell record col) as [v|]; simpl;
    [|unfold usable; simpl; split; [discriminate | intros (_ & ? & _); discriminate]].
  destruct (nonEmpty v) eqn:Hv;
    [|unfold usable; simpl; split; [discriminate|];
      intros (_ & Hk & Hne & _); inversion Hk; subst; congruence].
  destruct (epicsByKey index !! Some v) as [i|] eqn:Hi.
  - unfold usable. simpl. rewrite Hv. split.
    + intros H; inversion H; subst. repeat split; eauto.
    + intros (_ & Hk & _). exact Hk.
  - unfold usable. simpl. split; [discriminate|].
    intros (_ & Hk & _ & [i Hsome]). inversion Hk; subst. rewrite Hi in Hsome. discriminate.
Qed.

Lemma strategy1_spec record k :
  strategy1 cols index record = Some k <-> KeyField index (epicLinkCol cols) record k.
Proof. apply key_field_usable. Qed.

Lemma strategy2_spec record k :
  strategy2 cols index record = Some k <-> KeyField index (epicKeyCol cols) record k.
Proof. apply key_field_usable. Qed.

Lemma strategy4_spec record k :
  strategy4 cols index record = Some k <-> KeyField index (customParentCol cols) record k.
Proof. apply key_field_usable. Qed.

Lemma strategy3_spec record k :
  strategy3 cols index record = Some k <-> ParentField cols index record k.
Proof.
  unfold strategy3, method3, ParentField. simpl.
  destruct (truthyStr (parentCol cols)); simpl;
    [|unfold usable; simpl; split; [discriminate | intros [? _]; discriminate]].
  destruct (cell record (parentCol cols)) as [pid|]; simpl;
    [|unfold usable; simpl; split; [discriminate|];
      intros (_ & ? & ? & ? & _); discriminate].
  destruct (nonEmpty pid) eqn:Hpid;
    [|unfold usable; simpl; split; [discriminate|];
      intros (_ & p & ? & Hp & Hne & _); inversion Hp; subst; congruence].
  destruct (issuesById index !! pid) as [prec|] eqn:Hrec;
    [|unfold usable; simpl; split; [discriminate|];
      intros (_ & p & ? & Hp & _ & Hsome & _); inversion Hp; subst; congruence].
  destruct (isEpicType (optLower (cell prec (typeCol cols)))) eqn:Hty;
    [|unfold usable; simpl; split; [discriminate|];
      intros (_ & p & r & Hp & _ & Hsome & Hepic & _); inversion Hp; subst;
      rewrite Hrec in Hsome; inversion Hsome; subst; congruence].
  split.
  - intros H. apply usable_Some in H. destruct H as [Hk Ht].
    split; [reflexivity|]. exists pid, prec. rewrite Hk in Ht. simpl in Ht.
    repeat split; auto.
  - intros (_ & p & r & Hp & _ & Hsome & _ & Hk & Hne). inversion Hp; subst.
    rewrite Hrec in Hsome. inversion Hsome; subst.
    rewrite Hk. unfold usable. simpl. rewrite Hne. reflexivity.
Qed.

End StrategyFacts.

Lemma attach_lookup (i : nat) (child : Child.t) (store : list Epic.t) :
  attach i child store !! i = addChild child <$> store !! i /\
  (forall j, j <> i -> attach i child store !! j = store !! j) /\
  length (attach i child store) = length store.
Proof.
  unfold attach. split; [apply list_lookup_alter_eq|].
  split; [|apply length_alter].
  intros j Hj. apply list_lookup_alter_ne. congruence.
Qed.

Lemma pass2_step_chosen
    (parseFloat : string -> option Q) (cols : Columns) (index : Index)
    (record : Record_) (store : list Epic.t) (linked : nat) :
  isEpicType (optLower (cell record (typeCol cols))) = false ->
  pass2_step parseFloat cols index (store, linked) record =
    match usable (findParentEpicKey cols index record)
          ≫= (fun k => epicsByKey index !! Some k) with
    | Some parentEpic =>
        (attach parentEpic
           (newChild parseFloat cols record (usable (findParentEpicKey cols index record)))
           store, S linked)
    | None => (store, linked)
    end.
Proof.
  intros Hne. unfold pass2_step. rewrite Hne. unfold usable, hasEpic.
  destruct (truthyStr (findParentEpicKey cols index record)) eqn:Ht; simpl.
  - destruct (findParentEpicKey cols index record) as [k|]; [|discriminate]. simpl.
    destruct (epicsByKey index !! Some k); reflexivity.
  - reflexivity.
Qed.

(** ** The shape of a successful run *)

Lemma fold_left_invariant {A B} (P : A -> Prop) (f : A -> B -> A) (l : list B) (a : A) :
  P a -> (forall a x, In x l -> P a -> P (f a x)) -> P (fold_left f l a).
Proof.
  revert a. induction l as [|x l IH]; intros a Ha Hf; simpl; [exact Ha|].
  apply IH.
  - apply Hf; [left; reflexivity | exact Ha].
  - intros a' y Hy. apply Hf. right. exact Hy.
Qed.

Section SortFacts.

Context {A : Type}.
Variable localeCompare : string -> string -> Z.
Variable idOf : A -> option string.

Lemma insertSorted_Permutation x l l' :
  insertSorted localeCompare idOf x l = Ok l' -> Permutation (x :: l) l'.
Proof.
  revert l'. induction l as [|y l IH]; intros l'; simpl.
  - intros H; inversion H; subst. apply Permutation_refl.
  - destruct (compareIds localeCompare (idOf x) (idOf y)) as [c|e]; simpl; [|discriminate].
    destruct (c <=? 0)%Z.
    + intros H; inversion H; subst. apply Permutation_refl.
    + destruct (insertSorted localeCompare idOf x l) as [l''|e]; simpl; [|discriminate].
      intros H; inversion H; subst.
      eapply Permutation_trans; [apply perm_swap|].
      apply perm_skip. apply IH. reflexivity.
Qed.

Lemma sortById_Permutation l l' :
  sortById localeCompare idOf l = Ok l' -> Permutation l l'.
Proof.
  revert l'. induction l as [|x l IH]; intros l'; simpl.
  - intros H; inversion H; subst. apply Permutation_refl.
  - destruct (sortById localeCompare idOf l) as [s|e]; simpl; [|discriminate].
    intros H. apply insertSorted_Permutation in H.
    eapply Permutation_trans; [|exact H]. apply perm_skip. apply IH. reflexivity.
Qed.

(** When every element has an id, no comparison throws. *)
Lemma insertSorted_total x l :
  is_Some (idOf x) -> exists l', insertSorted localeCompare idOf x l = Ok l'.
Proof.
  intros [k Hk]. induction l as [|y l [l' IH]]; simpl; [eauto|].
  rewrite Hk. simpl. destruct (localeCompare k (propKey (idOf y)) <=? 0)%Z; [eauto|].
  rewrite IH. simpl. eauto.
Qed.

Lemma sortById_total l :
  Forall (fun x => is_Some (idOf x)) l -> exists l', sortById localeCompare idOf l = Ok l'.
Proof.
  induction 1 as [|x l Hx _ [s IH]]; simpl; [eauto|].
  rewrite IH. simpl. apply insertSorted_total. exact Hx.
Qed.

End SortFacts.

Section RunFacts.

Variable parseFloat : string -> option Q.
Variable localeCompare : string -> string -> Z.

Lemma processMainCSV_Ok (csv : MainCSV) (h : Hierarchy) :
  processMainCSV parseFloat localeCompare csv = Ok h ->
  exists rows store2 linked store3,
    records csv = Some rows /\
    secondPass parseFloat (resolveColumns (headers csv)) rows = (store2, linked) /\
    (if fewLinked linked (length rows)
     then distribute parseFloat localeCompare (resolveColumns (headers csv)) rows store2
     else Ok store2) = Ok store3 /\
    sortById localeCompare Epic.id store3 = Ok (epics h) /\
    childIssues h = flat_map Epic.children (epics h).
Proof.
  unfold processMainCSV, tryCatch.
  destruct (processMainCSV_body parseFloat localeCompare csv) as [h'|e] eqn:Hbody;
    [|discriminate].
  intros H; inversion H; subst h'. clear H.
  unfold processMainCSV_body in Hbody.
  destruct (records csv) as [rows|]; [|discriminate]. simpl in Hbody.
  destruct (secondPass parseFloat (resolveColumns (headers csv)) rows)
    as [store2 linked] eqn:Hsecond.
  destruct (if fewLinked linked (length rows)
            then distribute parseFloat localeCompare (resolveColumns (headers csv)) rows store2
            else Ok store2) as [store3|e] eqn:Hdist; [|discriminate].
  simpl in Hbody.
  destruct (sortById localeCompare Epic.id store3) as [sorted|e] eqn:Hsort; [|discriminate].
  simpl in Hbody. inversion Hbody; subst h. simpl.
  exists rows, store2, linked, store3. repeat split; auto.
Qed.

End RunFacts.

(** ** Story points *)

Section StoryPoints.

Variable parseFloat : string -> option Q.
Variable localeCompare : string -> string -> Z.
Variable cols : Columns.

Lemma newEpic_balanced record :
  (0 <= pointsOf parseFloat (cell record (pointsCol cols)))%Q ->
  pointsBalanced (newEpic parseFloat cols record).
Proof.
  intros Hp. unfold pointsBalanced, newEpic. simpl. split; [apply Qle_refl|].
  destruct (isCompleted (cell record (statusCol cols))); [apply Qle_refl | exact Hp].
Qed.

Lemma addChild_balanced child e :
  (0 <= Child.storyPoints child)%Q -> pointsBalanced e -> pointsBalanced (addChild child e).
Proof.
  intros Hp [Hown Hdone]. unfold pointsBalanced, addChild. simpl. split.
  - rewrite <- (Qplus_0_r (Epic.storyPoints e)). apply Qplus_le_compat; assumption.
  - destruct (Child.isCompleted child).
    + apply Qplus_le_compat; [assumption | apply Qle_refl].
    + rewrite <- (Qplus_0_r (Epic.completedStoryPoints e)).
      apply Qplus_le_compat; assumption.
Qed.

Lemma attach_balanced i child store :
  (0 <= Child.storyPoints child)%Q ->
  Forall pointsBalanced store -> Forall pointsBalanced (attach i child store).
Proof.
  intros Hp Hall. unfold attach. apply Forall_alter; [exact Hall|].
  intros e _. apply addChild_balanced. exact Hp.
Qed.

Lemma pass1_balanced rows :
  Forall (fun r => (0 <= pointsOf parseFloat (cell r (pointsCol cols)))%Q) rows ->
  Forall pointsBalanced (pass1 parseFloat cols rows).1.
Proof.
  intros Hrows. unfold pass1.
  apply (fold_left_invariant (fun st => Forall pointsBalanced st.1)).
  - constructor.
  - intros [store index] r Hr Hst. simpl in Hst. unfold pass1_step.
    destruct (isEpicType (optLower (cell r (typeCol cols)))); simpl; [|exact Hst].
    apply Forall_app. split; [exact Hst|]. constructor; [|constructor].
    apply newEpic_balanced. rewrite Forall_forall in Hrows. apply Hrows.
    apply list_elem_of_In. exact Hr.
Qed.

Lemma pass2_step_balanced index st r :
  (0 <= pointsOf parseFloat (cell r (pointsCol cols)))%Q ->
  Forall pointsBalanced st.1 ->
  Forall pointsBalanced (pass2_step parseFloat cols index st r).1.
Proof.
  intros Hp Hst. destruct st as [store linked]. unfold pass2_step.
  destruct (isEpicType (optLower (cell r (typeCol cols)))); [exact Hst|].
  destruct (truthyStr (findParentEpicKey cols index r)
            && hasEpic index (findParentEpicKey cols index r)); [|exact Hst].
  destruct (epicsByKey index !! findParentEpicKey cols index r); [|exact Hst].
  simpl. apply attach_balanced; [exact Hp | exact Hst].
Qed.

Lemma secondPass_balanced rows :
  Forall (fun r => (0 <= pointsOf parseFloat (cell r (pointsCol cols)))%Q) rows ->
  Forall pointsBalanced (secondPass parseFloat cols rows).1.
Proof.
  intros Hrows. unfold secondPass.
  assert (H1 := pass1_balanced rows Hrows).
  destruct (pass1 parseFloat cols rows) as [store index]. simpl in H1.
  apply (fold_left_invariant (fun st => Forall pointsBalanced st.1)); [exact H1|].
  intros st r Hr Hst. apply pass2_step_balanced; [|exact Hst].
  rewrite Forall_forall in Hrows. apply Hrows. apply list_elem_of_In. exact Hr.
Qed.

Lemma distribute_step_balanced groups store r :
  (0 <= pointsOf parseFloat (cell r (pointsCol cols)))%Q ->
  Forall pointsBalanced store ->
  Forall pointsBalanced (distribute_step parseFloat cols groups store r).
Proof.
  intros Hp Hst. unfold distribute_step.
  destruct (getProjectKey (cell r (keyCol cols))) as [pk|]; [|exact Hst].
  destruct (groupGet groups pk) as [[|first rest]|]; try exact Hst.
  apply attach_balanced; [exact Hp | exact Hst].
Qed.

Lemma distribute_balanced rows store store' :
  Forall (fun r => (0 <= pointsOf parseFloat (cell r (pointsCol cols)))%Q) rows ->
  distribute parseFloat localeCompare cols rows store = Ok store' ->
  Forall pointsBalanced store -> Forall pointsBalanced store'.
Proof.
  intros Hrows Hd Hst. unfold distribute in Hd.
  destruct (sortGroups localeCompare store (groupEpics store)) as [groups|e];
    [|discriminate].
  simpl in Hd. inversion Hd; subst store'.
  apply (fold_left_invariant (Forall pointsBalanced)); [exact Hst|].
  intros st r Hr Hall. apply distribute_step_balanced; [|exact Hall].
  rewrite Forall_forall in Hrows. apply Hrows.
  apply list_elem_of_In in Hr. apply list_elem_of_filter in Hr. apply Hr.
Qed.

End StoryPoints.

(** C6.  Provided every record's story-points cell reads as a number that
    is not negative, every epic returned by [processMainCSV] has
    [totalStoryPoints >= storyPoints] and
    [completedStoryPoints <= totalStoryPoints].  Attaching a child, in the
    second pass or in the fallback, leaves the epic's own points alone,
    adds the child's points to [totalStoryPoints] and, when the child's
    status is in the completed set, the same amount to
    [completedStoryPoints]. *)
Theorem story_points_invariant
    (parseFloat : string -> option Q) (localeCompare : string -> string -> Z)
    (csv : MainCSV) (rows : list Record_) (h : Hierarchy) :
  records csv = Some rows ->
  Forall (fun r =>
    (0 <= pointsOf parseFloat (cell r (pointsCol (resolveColumns (headers csv)))))%Q) rows ->
  processMainCSV parseFloat localeCompare csv = Ok h ->
  Forall pointsBalanced (epics h) /\
  (forall child e,
     Epic.storyPoints (addChild child e) = Epic.storyPoints e /\
     Epic.totalStoryPoints (addChild child e) =
       (Epic.totalStoryPoints e + Child.storyPoints child)%Q /\
     Epic.completedStoryPoints (addChild child e) =
       if Child.isCompleted child
       then (Epic.completedStoryPoints e + Child.storyPoints child)%Q
       else Epic.completedStoryPoints e) /\
  (forall cols r k,
     Child.isCompleted (newChild parseFloat cols r k) = isCompleted (cell r (statusCol cols)) /\
     Child.isCompleted (distributedChild parseFloat cols r k) =
       isCompleted (cell r (statusCol cols)) /\
     Child.storyPoints (newChild parseFloat cols r k) =
       pointsOf parseFloat (cell r (pointsCol cols)) /\
     Child.storyPoints (distributedChild parseFloat cols r k) =
       pointsOf parseFloat (cell r (pointsCol cols))).
Proof.
  intros Hrows Hpoints Hrun. split; [|split; [intros; repeat split | intros; repeat split]].
  apply processMainCSV_Ok in Hrun.
  destruct Hrun as (rows' & store2 & linked & store3 & Hr & Hsecond & Hdist & Hsort & _).
  rewrite Hrows in Hr. inversion Hr; subst rows'. clear Hr.
  assert (H2 : Forall pointsBalanced store2).
  { assert (H := secondPass_balanced parseFloat (resolveColumns (headers csv)) rows Hpoints).
    rewrite Hsecond in H. exact H. }
  assert (H3 : Forall pointsBalanced store3).
  { destruct (fewLinked linked (length rows)).
    - eapply distribute_balanced; eauto.
    - inversion Hdist; subst. exact H2. }
  apply sortById_Permutation in Hsort.
  eapply Permutation_Forall; [exact Hsort | exact H3].
Qed.

(** One epic of 5 points in progress and one finished task of 3 points
    linked to it: 8 points in total, 3 of them completed. *)
Lemma story_points_invariant_witness :
  let hs := ["Key"; "Issue Type"; "Status"; "Story Points"; "Epic Link"] in
  let row k t s p l : Record_ :=
    list_to_map [("Key", k); ("Issue Type", t); ("Status", s); ("Story Points", p);
                 ("Epic Link", l)] in
  let rows := [row "EPIC-1" "Epic" "In Progress" "5" "";
               row "TASK-1" "Task" "Done" "3" "EPIC-1"] in
  exists h,
    processMainCSV parseWhole compareCodes {| headers := Some hs; records := Some rows |} = Ok h /\
    map (fun e => (Epic.storyPoints e, Epic.totalStoryPoints e, Epic.completedStoryPoints e))
        (epics h) = [(5, 8, 3)%Q] /\
    Forall pointsBalanced (epics h).
Proof.
  intros hs row rows. eexists. split; [vm_compute; reflexivity|].
  split; [reflexivity|].
  apply (story_points_invariant parseWhole compareCodes
           {| headers := Some hs; records := Some rows |} rows _ eq_refl).
  - repeat constructor; vm_compute; discriminate.
  - vm_compute. reflexivity.
Defined.

(** ** When the fallback runs *)

Lemma fewLinked_iff (linked total : nat) :
  fewLinked linked total = true <-> (10 * linked < total)%nat.
Proof.
  unfold fewLinked.
  destruct (Qlt_le_dec (inject_Z (Z.of_nat linked)) (inject_Z (Z.of_nat total) * (1 # 10)))
    as [Hlt | Hle].
  - split; [intros _ | reflexivity]. unfold Qlt in Hlt. simpl in Hlt. lia.
  - split; [discriminate|]. intros H. exfalso. unfold Qle in Hle. simpl in Hle. lia.
Qed.

Lemma alter_split {A} (f : A -> A) (i : nat) (l : list A) :
  (i < length l)%nat ->
  exists l1 x l2, l = l1 ++ x :: l2 /\ alter f i l = l1 ++ f x :: l2.
Proof.
  revert i. induction l as [|y l IH]; intros i Hi; simpl in Hi; [lia|].
  destruct i as [|i].
  - exists [], y, l. split; reflexivity.
  - destruct (IH i) as (l1 & x & l2 & -> & Ha); [lia|].
    exists (y :: l1), x, l2. split; [reflexivity|]. simpl.
    change (list_alter f i (l1 ++ x :: l2)) with (alter f i (l1 ++ x :: l2)).
    rewrite Ha. reflexivity.
Qed.

Lemma attach_children (i : nat) (child : Child.t) (store : list Epic.t) :
  (i < length store)%nat ->
  Permutation (flat_map Epic.children (attach i child store))
              (child :: flat_map Epic.children store).
Proof.
  intros Hi. unfold attach.
  destruct (alter_split (addChild child) i store Hi) as (l1 & e & l2 & -> & ->).
  rewrite !flat_map_app. simpl.
  rewrite <- (app_assoc (Epic.children e)). simpl.
  rewrite !app_assoc. apply Permutation_sym.
  apply Permutation_cons_app. apply Permutation_refl.
Qed.

Section SecondPassFacts.

Variable parseFloat : string -> option Q.
Variable cols : Columns.

(** After the first pass every reference in [epicsByKey] is to an epic of
    the store, and no epic has children yet. *)
Lemma pass1_valid rows :
  let '(store, index) := pass1 parseFloat cols rows in
  (forall k i, epicsByKey index !! k = Some i -> (i < length store)%nat) /\
  flat_map Epic.children store = [].
Proof.
  unfold pass1.
  apply (fold_left_invariant
    (fun st : list Epic.t * Index => let '(store, index) := st in
       (forall k i, epicsByKey index !! k = Some i -> (i < length store)%nat) /\
       flat_map Epic.children store = [])).
  - simpl. split; [|reflexivity]. intros k i H. rewrite lookup_empty in H. discriminate.
  - intros [store index] r _ [Hidx Hch]. unfold pass1_step.
    destruct (isEpicType (optLower (cell r (typeCol cols)))); simpl.
    + split.
      * intros k i. rewrite length_app. simpl. rewrite lookup_insert.
        case_decide.
        -- intros Hk; inversion Hk; subst. lia.
        -- intros Hk. apply Hidx in Hk. lia.
      * rewrite flat_map_app, Hch. reflexivity.
    + split; assumption.
Qed.

Lemma pass2_count index rows store :
  (forall k i, epicsByKey index !! k = Some i -> (i < length store)%nat) ->
  forall linked,
  let st := fold_left (pass2_step parseFloat cols index) rows (store, linked) in
  length st.1 = length store /\
  st.2 = (linked + length (filter (fun r => isLinked cols index r = true) rows))%nat /\
  (length (flat_map Epic.children st.1) =
     length (flat_map Epic.children store)
     + length (filter (fun r => isLinked cols index r = true) rows))%nat /\
  (Forall (fun c => Child.matchMethod c = None) (flat_map Epic.children store) ->
   Forall (fun c => Child.matchMethod c = None) (flat_map Epic.children st.1)).
Proof.
  intros Hidx. revert store Hidx.
  induction rows as [|r rows IH]; intros store Hidx linked; cbv zeta.
  - simpl. repeat split; auto.
  - cbv zeta in IH. cbn [fold_left].
    assert (Hstep : pass2_step parseFloat cols index (store, linked) r =
      if isLinked cols index r
      then (attach (default 0%nat (epicsByKey index !! findParentEpicKey cols index r))
              (newChild parseFloat cols r (findParentEpicKey cols index r)) store, S linked)
      else (store, linked)).
    { unfold pass2_step, isLinked, hasEpic.
      destruct (isEpicType (optLower (cell r (typeCol cols)))); [reflexivity|]. simpl.
      destruct (truthyStr (findParentEpicKey cols index r)); [|reflexivity]. simpl.
      destruct (epicsByKey index !! findParentEpicKey cols index r); reflexivity. }
    rewrite Hstep. rewrite filter_cons.
    destruct (isLinked cols index r) eqn:Hl.
    + assert (Hi : (default 0%nat (epicsByKey index !! findParentEpicKey cols index r)
                    < length store)%nat).
      { unfold isLinked, hasEpic in Hl.
        destruct (epicsByKey index !! findParentEpicKey cols index r) as [i|] eqn:Hi.
        - simpl. eapply Hidx. exact Hi.
        - rewrite andb_false_r in Hl. discriminate. }
      set (i := default 0%nat (epicsByKey index !! findParentEpicKey cols index r)) in *.
      set (c := newChild parseFloat cols r (findParentEpicKey cols index r)).
      destruct (attach_lookup i c store) as (_ & _ & Hlen).
      assert (Hperm := attach_children i c store Hi).
      specialize (IH (attach i c store)).
      destruct (IH (fun k j H => eq_ind_r (fun n => (j < n)%nat) (Hidx k j H) Hlen) (S linked))
        as (H1 & H2 & H3 & H4).
      rewrite decide_True by reflexivity. simpl length.
      split; [rewrite H1; exact Hlen|]. split; [rewrite H2; lia|]. split.
      * rewrite H3. rewrite (Permutation_length Hperm). simpl. lia.
      * intros Hall. apply H4. eapply Permutation_Forall; [apply Permutation_sym, Hperm|].
        constructor; [reflexivity | exact Hall].
    + rewrite decide_False by discriminate.
      apply IH. exact Hidx.
Qed.

Lemma secondPass_count rows :
  let index := (pass1 parseFloat cols rows).2 in
  let st := secondPass parseFloat cols rows in
  st.2 = length (filter (fun r => isLinked cols index r = true) rows) /\
  length (flat_map Epic.children st.1) = st.2 /\
  Forall (fun c => Child.matchMethod c = None) (flat_map Epic.children st.1).
Proof.
  unfold secondPass. assert (Hv := pass1_valid rows).
  destruct (pass1 parseFloat cols rows) as [store index]. destruct Hv as [Hidx Hch].
  simpl. destruct (pass2_count index rows store Hidx 0%nat) as (_ & H2 & H3 & H4).
  rewrite Hch in H3, H4. simpl in H2, H3.
  split; [exact H2|]. split; [rewrite H3, H2; reflexivity|].
  apply H4. constructor.
Qed.

End SecondPassFacts.

(** C5.  With [linked] the number of records the second pass links through
    the four strategies, the fallback condition of [processMainCSV] holds
    exactly when [linked] is strictly below 10% of the number of records.
    When it holds, the result is the sorted outcome of the distribution;
    when it does not, the result is the sorted store of the second pass: its
    children are exactly the [linked] ones, none of them placed by the
    balanced distribution. *)
Theorem fallback_threshold
    (parseFloat : string -> option Q) (localeCompare : string -> string -> Z)
    (csv : MainCSV) (rows : list Record_) (h : Hierarchy) :
  records csv = Some rows ->
  processMainCSV parseFloat localeCompare csv = Ok h ->
  let cols := resolveColumns (headers csv) in
  let index := (pass1 parseFloat cols rows).2 in
  let store2 := (secondPass parseFloat cols rows).1 in
  let linked := (secondPass parseFloat cols rows).2 in
  linked = length (filter (fun r => isLinked cols index r = true) rows) /\
  (fewLinked linked (length rows) = true <-> (10 * linked < length rows)%nat) /\
  ((10 * linked < length rows)%nat ->
     exists store3,
       distribute parseFloat localeCompare cols rows store2 = Ok store3 /\
       sortById localeCompare Epic.id store3 = Ok (epics h)) /\
  ((length rows <= 10 * linked)%nat ->
     sortById localeCompare Epic.id store2 = Ok (epics h) /\
     length (childIssues h) = linked /\
     Forall (fun c => Child.matchMethod c = None) (childIssues h)).
Proof.
  intros Hrows Hrun cols index store2 linked.
  apply processMainCSV_Ok in Hrun.
  destruct Hrun as (rows' & s2 & n & store3 & Hr & Hsecond & Hdist & Hsort & Hch).
  rewrite Hrows in Hr. inversion Hr; subst rows'. clear Hr. fold cols in Hsecond, Hdist.
  destruct (secondPass_count parseFloat cols rows) as (Hn & Hlen & Hnone).
  fold index in Hn. fold linked in Hn, Hlen. fold store2 in Hlen, Hnone.
  assert (Hs2 : s2 = store2) by (unfold store2; rewrite Hsecond; reflexivity).
  assert (Hl : n = linked) by (unfold linked; rewrite Hsecond; reflexivity).
  subst s2 n.
  split; [exact Hn|]. split; [apply fewLinked_iff|]. split.
  - intros Hfew. apply fewLinked_iff in Hfew. rewrite Hfew in Hdist.
    exists store3. split; assumption.
  - intros Hmany.
    assert (Hfew : fewLinked linked (length rows) = false).
    { destruct (fewLinked linked (length rows)) eqn:E; [|reflexivity].
      apply fewLinked_iff in E. lia. }
    rewrite Hfew in Hdist. inversion Hdist; subst store3.
    split; [exact Hsort|]. rewrite Hch.
    apply sortById_Permutation in Hsort.
    assert (Hp := Permutation_flat_map Epic.children Hsort).
    split.
    + rewrite <- (Permutation_length Hp). exact Hlen.
    + eapply Permutation_Forall; [exact Hp | exact Hnone].
Qed.

(** Ten records, one of them linked by its Epic Link: exactly 10%, so the
    fallback does not run and the other eight tasks of the project stay
    out of the hierarchy. *)
Lemma fallback_threshold_witness :
  let hs := ["Key"; "Issue Type"; "Epic Link"] in
  let row k t l : Record_ := list_to_map [("Key", k); ("Issue Type", t); ("Epic Link", l)] in
  let rows := [row "A-1" "Epic" ""; row "A-2" "Task" "A-1";
               row "A-3" "Task" ""; row "A-4" "Task" ""; row "A-5" "Task" "";
               row "A-6" "Task" ""; row "A-7" "Task" ""; row "A-8" "Task" "";
               row "A-9" "Task" ""; row "A-10" "Task" ""] in
  let csv := {| headers := Some hs; records := Some rows |} in
  exists h,
    processMainCSV parseWhole compareCodes csv = Ok h /\
    (secondPass parseWhole (resolveColumns (Some hs)) rows).2 = 1%nat /\
    length (childIssues h) = 1%nat /\
    Forall (fun c => Child.matchMethod c = None) (childIssues h).
Proof.
  intros hs row rows csv.
  assert (Hrun : exists h, processMainCSV parseWhole compareCodes csv = Ok h)
    by (eexists; vm_compute; reflexivity).
  destruct Hrun as [h Hrun]. exists h. split; [exact Hrun|].
  destruct (fallback_threshold parseWhole compareCodes csv rows h eq_refl Hrun)
    as (_ & _ & _ & Hmany).
  assert (Hl : (secondPass parseWhole (resolveColumns (Some hs)) rows).2 = 1%nat)
    by (vm_compute; reflexivity).
  split; [exact Hl|].
  simpl headers in Hmany. rewrite Hl in Hmany.
  destruct Hmany as (_ & Hlen & Hnone); [simpl; lia|].
  split; assumption.
Defined.

(** Eleven records with one link: below 10%, so the fallback runs and
    spreads the tasks of project [A-] over its two epics. *)
Example processMainCSV_fallback_runs :
  let hs := ["Key"; "Issue Type"; "Epic Link"] in
  let row k t l : Record_ := list_to_map [("Key", k); ("Issue Type", t); ("Epic Link", l)] in
  let rows := [row "A-1" "Epic" ""; row "A-2" "Epic" ""; row "B-1" "Task" "A-1";
               row "A-3" "Task" ""; row "A-4" "Task" ""; row "A-5" "Task" "";
               row "A-6" "Task" ""; row "C-1" "Task" ""; row "C-2" "Task" "";
               row "C-3" "Task" ""; row "C-4" "Task" ""] in
  exists h,
    processMainCSV parseWhole compareCodes {| headers := Some hs; records := Some rows |} = Ok h /\
    map (fun e => (Epic.id e, map (fun c => (Child.key c, Child.matchMethod c)) (Epic.children e)))
        (epics h) =
      [(Some "A-1", [(Some "B-1", None);
                     (Some "A-4", Some "balanced-distribution");
                     (Some "A-6", Some "balanced-distribution")]);
       (Some "A-2", [(Some "A-3", Some "balanced-distribution");
                     (Some "A-5", Some "balanced-distribution")])].
Proof. vm_compute. eexists. split; reflexivity. Qed.

(** ** Sorting by id *)

Section SortedFacts.

Context {A : Type}.
Variable localeCompare : string -> string -> Z.
Variable idOf : A -> option string.
Hypothesis order : TotalOrder localeCompare.

Lemma idLe_trans x y z :
  idLe localeCompare idOf x y -> idLe localeCompare idOf y z -> idLe localeCompare idOf x z.
Proof.
  intros (a & b & Ha & Hb & Hab) (b' & c & Hb' & Hc & Hbc).
  rewrite Hb in Hb'. inversion Hb'; subst b'.
  exists a, c. repeat split; try assumption. destruct order as [_ Htrans].
  eapply Htrans; eassumption.
Qed.

Lemma insertSorted_sorted x l l' :
  Forall (fun y => is_Some (idOf y)) l ->
  StronglySorted (idLe localeCompare idOf) l ->
  insertSorted localeCompare idOf x l = Ok l' ->
  StronglySorted (idLe localeCompare idOf) l'.
Proof.
  revert l'. induction l as [|y l IH]; intros l' Hids Hs; simpl.
  - intros H; inversion H; subst. repeat constructor.
  - inversion Hids as [|? ? [b Hy] Hids']; subst. inversion Hs as [|? ? Hs' Hy_le]; subst.
    destruct (idOf x) as [a|] eqn:Hx; simpl; [|discriminate].
    rewrite Hy. simpl. destruct (Z.leb_spec (localeCompare a b) 0) as [Hle | Hgt].
    + intros H; inversion H; subst. constructor; [exact Hs|].
      assert (Hxy : idLe localeCompare idOf x y) by (exists a, b; auto).
      constructor; [exact Hxy|].
      eapply Forall_impl; [exact Hy_le|]. intros z Hz. eapply idLe_trans; eassumption.
    + destruct (insertSorted localeCompare idOf x l) as [l''|e] eqn:Hins; simpl;
        [|discriminate].
      intros H; inversion H; subst.
      constructor; [apply IH; auto|].
      apply insertSorted_Permutation in Hins.
      eapply Permutation_Forall; [exact Hins|]. constructor; [|exact Hy_le].
      exists b, a. repeat split; auto. destruct order as [Htotal _]. apply Htotal. exact Hgt.
Qed.

Lemma sortById_sorted l l' :
  Forall (fun y => is_Some (idOf y)) l ->
  sortById localeCompare idOf l = Ok l' ->
  StronglySorted (idLe localeCompare idOf) l'.
Proof.
  revert l'. induction l as [|x l IH]; intros l' Hids; simpl.
  - intros H; inversion H; subst. constructor.
  - inversion Hids as [|? ? Hx Hids']; subst.
    destruct (sortById localeCompare idOf l) as [s|e] eqn:Hs; simpl; [|discriminate].
    apply insertSorted_sorted.
    + apply sortById_Permutation in Hs. eapply Permutation_Forall; eassumption.
    + apply IH; auto.
Qed.

End SortedFacts.

(** The comparison by character codes is a total order. *)
Lemma ascii_compare_cases (x y : ascii) :
  (Ascii.compare x y = Eq /\ x = y) \/
  (Ascii.compare x y = Lt /\ (N_of_ascii x < N_of_ascii y)%N) \/
  (Ascii.compare x y = Gt /\ (N_of_ascii y < N_of_ascii x)%N).
Proof.
  unfold Ascii.compare.
  destruct (N.compare_spec (N_of_ascii x) (N_of_ascii y)) as [H | H | H].
  - left. split; [reflexivity|]. rewrite <- (ascii_N_embedding x), <- (ascii_N_embedding y).
    rewrite H. reflexivity.
  - right. left. split; [reflexivity | exact H].
  - right. right. split; [reflexivity | exact H].
Qed.

Lemma string_compare_trans (a b c : string) :
  String.compare a b <> Gt -> String.compare b c <> Gt -> String.compare a c <> Gt.
Proof.
  revert b c. induction a as [|x a IH]; intros [|y b] [|z c]; simpl; try congruence.
  destruct (ascii_compare_cases x y) as [[Exy Hxy] | [[Exy Hxy] | [Exy Hxy]]];
    destruct (ascii_compare_cases y z) as [[Eyz Hyz] | [[Eyz Hyz] | [Eyz Hyz]]];
    destruct (ascii_compare_cases x z) as [[Exz Hxz] | [[Exz Hxz] | [Exz Hxz]]];
    rewrite Exy, Eyz, Exz; subst; try congruence; try lia.
  apply IH.
Qed.

Lemma compareCodes_order : TotalOrder compareCodes.
Proof.
  unfold TotalOrder, compareCodes. split.
  - intros a b. rewrite (String.compare_antisym a b).
    destruct (String.compare b a); simpl; lia.
  - intros a b c Hab Hbc.
    assert (H : String.compare a c <> Gt).
    { apply (string_compare_trans a b c).
      - destruct (String.compare a b); [discriminate | discriminate | lia].
      - destruct (String.compare b c); [discriminate | discriminate | lia]. }
    destruct (String.compare a c); [lia | lia | congruence].
Qed.

(** ** Project groups *)

Lemma groupGet_groupAdd groups pk i pk' :
  groupGet (groupAdd groups pk i) pk' =
  if String.eqb pk pk' then Some (default [] (groupGet groups pk) ++ [i])
  else groupGet groups pk'.
Proof.
  induction groups as [|[k g] groups IH]; simpl.
  - destruct (String.eqb pk pk'); reflexivity.
  - destruct (String.eqb k pk) eqn:Hk; simpl.
    + apply String.eqb_eq in Hk. subst k.
      destruct (String.eqb pk pk') eqn:Hp; simpl; rewrite ?Hp; reflexivity.
    + destruct (String.eqb k pk') eqn:Hk'; simpl.
      * apply String.eqb_eq in Hk'. subst k. rewrite String.eqb_sym, Hk. reflexivity.
      * exact IH.
Qed.

Lemma groupAdd_Forall (Q : nat -> Prop) groups pk i :
  Q i -> Forall (fun kg : string * list nat => Forall Q kg.2) groups ->
  Forall (fun kg : string * list nat => Forall Q kg.2) (groupAdd groups pk i).
Proof.
  intros Hi. induction 1 as [|[k g] groups Hg Hrest IH]; simpl.
  - constructor; [|constructor]. simpl. constructor; [exact Hi | constructor].
  - destruct (String.eqb k pk).
    + constructor; [|exact Hrest]. simpl in *. apply Forall_app. split; [exact Hg|].
      constructor; [exact Hi | constructor].
    + constructor; assumption.
Qed.

Section Groups.

Variable localeCompare : string -> string -> Z.

Lemma fold_addEpic xs acc pk :
  (forall k, groupGet acc k <> Some []) ->
  (forall k, groupGet (fold_left addEpic xs acc) k <> Some []) /\
  forall i, i ∈ default [] (groupGet (fold_left addEpic xs acc) pk) <->
            i ∈ default [] (groupGet acc pk) \/
            exists e, (i, e) ∈ xs /\ getProjectKey (Epic.key e) = Some pk.
Proof.
  revert acc. induction xs as [|[j e] xs IH]; intros acc Hne; cbn [fold_left].
  - split; [exact Hne|]. intros i. split; [auto|].
    intros [H | (e & H & _)]; [exact H|]. inversion H.
  - assert (Hne' : forall k, groupGet (addEpic acc (j, e)) k <> Some []).
    { intros k. unfold addEpic.
      destruct (getProjectKey (Epic.key e)) as [p|]; [|apply Hne].
      rewrite groupGet_groupAdd. destruct (String.eqb p k); [|apply Hne].
      intros H. inversion H as [H']. destruct (default [] (groupGet acc p)); discriminate. }
    destruct (IH _ Hne') as [Hres Hmem]. split; [exact Hres|].
    intros i. rewrite Hmem. unfold addEpic.
    destruct (getProjectKey (Epic.key e)) as [p|] eqn:Hp.
    + rewrite groupGet_groupAdd. destruct (String.eqb p pk) eqn:Hpk.
      * apply String.eqb_eq in Hpk. subst p. simpl. rewrite elem_of_app, list_elem_of_singleton.
        split.
        -- intros [[H | ->] | (e' & H & He')]; [auto | |].
           ++ right. exists e. split; [left | exact Hp].
           ++ right. exists e'. split; [right; exact H | exact He'].
        -- intros [H | (e' & H & He')]; [auto|].
           apply elem_of_cons in H. destruct H as [H | H].
           ++ inversion H; subst. auto.
           ++ right. exists e'. auto.
      * split.
        -- intros [H | (e' & H & He')]; [auto|]. right. exists e'. split; [right; exact H | exact He'].
        -- intros [H | (e' & H & He')]; [auto|].
           apply elem_of_cons in H. destruct H as [H | H].
           ++ inversion H; subst. rewrite Hp in He'. inversion He'; subst.
              rewrite String.eqb_refl in Hpk. discriminate.
           ++ right. exists e'. auto.
    + split.
      * intros [H | (e' & H & He')]; [auto|]. right. exists e'. split; [right; exact H | exact He'].
      * intros [H | (e' & H & He')]; [auto|].
        apply elem_of_cons in H. destruct H as [H | H].
        -- inversion H; subst. congruence.
        -- right. exists e'. auto.
Qed.

Lemma fold_addEpic_Forall (Q : nat -> Prop) xs acc :
  (forall i e pk, (i, e) ∈ xs -> getProjectKey (Epic.key e) = Some pk -> Q i) ->
  Forall (fun kg : string * list nat => Forall Q kg.2) acc ->
  Forall (fun kg : string * list nat => Forall Q kg.2) (fold_left addEpic xs acc).
Proof.
  revert acc. induction xs as [|[j e] xs IH]; intros acc HQ Hacc; simpl; [exact Hacc|].
  apply IH.
  - intros i e' pk H. apply HQ. right. exact H.
  - unfold addEpic. simpl. destruct (getProjectKey (Epic.key e)) as [p|] eqn:Hp; [|exact Hacc].
    apply groupAdd_Forall; [|exact Hacc]. eapply HQ; [left | exact Hp].
Qed.

Lemma elem_of_indexed (store : list Epic.t) i e :
  (i, e) ∈ imap (fun i epic => (i, epic)) store <-> store !! i = Some e.
Proof.
  rewrite elem_of_lookup_imap. split.
  - intros (j & y & H & Hj). inversion H; subst. exact Hj.
  - intros H. exists i, e. auto.
Qed.

Lemma groupEpics_members store pk :
  (forall k, groupGet (groupEpics store) k <> Some []) /\
  forall i, i ∈ default [] (groupGet (groupEpics store) pk) <->
            exists e, store !! i = Some e /\ getProjectKey (Epic.key e) = Some pk.
Proof.
  unfold groupEpics.
  destruct (fold_addEpic (imap (fun i epic => (i, epic)) store) [] pk) as [Hne Hmem].
  { intros k. simpl. discriminate. }
  split; [exact Hne|]. intros i. rewrite Hmem. simpl. split.
  - intros [H | (e & H & He)]; [inversion H|]. exists e. split; [|exact He].
    apply elem_of_indexed. exact H.
  - intros (e & H & He). right. exists e. split; [|exact He]. apply elem_of_indexed. exact H.
Qed.

Lemma groupEpics_ids store :
  Forall (fun e => Epic.id e = Epic.key e) store ->
  Forall (fun kg : string * list nat => Forall (fun i => is_Some (idAt store i)) kg.2)
         (groupEpics store).
Proof.
  intros Hids. unfold groupEpics. apply fold_addEpic_Forall; [|constructor].
  intros i e pk H Hpk. apply elem_of_indexed in H. unfold idAt. rewrite H. simpl.
  rewrite Forall_forall in Hids. rewrite (Hids e).
  - destruct (Epic.key e); [eauto | discriminate].
  - eapply list_elem_of_lookup_2. exact H.
Qed.

Lemma sortGroups_total store groups :
  Forall (fun kg : string * list nat => Forall (fun i => is_Some (idAt store i)) kg.2) groups ->
  exists groups', sortGroups localeCompare store groups = Ok groups'.
Proof.
  unfold sortGroups. induction 1 as [|[k g] groups Hg _ [groups' IH]]; simpl; [eauto|].
  destruct (sortById_total localeCompare (idAt store) g Hg) as [g' Hg'].
  rewrite Hg'. simpl. rewrite IH. simpl. eauto.
Qed.

Lemma sortGroups_get store groups groups' pk :
  sortGroups localeCompare store groups = Ok groups' ->
  match groupGet groups pk with
  | Some g => exists g', sortById localeCompare (idAt store) g = Ok g' /\
                         groupGet groups' pk = Some g'
  | None => groupGet groups' pk = None
  end.
Proof.
  unfold sortGroups. revert groups'. induction groups as [|[k g] groups IH]; intros groups'; simpl.
  - intros H; inversion H; subst. reflexivity.
  - destruct (sortById localeCompare (idAt store) g) as [g'|e] eqn:Hg; simpl; [|discriminate].
    destruct (mapM _ groups) as [rest|e] eqn:Hrest; simpl; [|discriminate].
    intros H; inversion H; subst. simpl.
    destruct (String.eqb k pk); [eauto|]. apply IH. reflexivity.
Qed.

End Groups.

(** ** Balanced distribution *)

Lemma fewest_fold (store : list Epic.t) (g : list nat) (m0 : nat) :
  let t := fold_left
             (fun minEpic epic =>
                if (childCount store epic <? childCount store minEpic)%nat
                then epic else minEpic) g m0 in
  exists pre post,
    m0 :: g = pre ++ t :: post /\
    (forall j, j ∈ pre -> (childCount store t < childCount store j)%nat) /\
    (forall j, j ∈ post -> (childCount store t <= childCount store j)%nat).
Proof.
  cbv zeta. revert m0. induction g as [|e g IH]; intros m0; cbn [fold_left].
  - exists [], []. split; [reflexivity|]. split; intros j H; inversion H.
  - set (m1 := if (childCount store e <? childCount store m0)%nat then e else m0).
    destruct (IH m1) as (pre & post & Heq & Hpre & Hpost).
    remember (fold_left
                (fun minEpic epic =>
                   if (childCount store epic <? childCount store minEpic)%nat
                   then epic else minEpic) g m1) as t eqn:Ht.
    clear Ht IH.
    assert (Hm1 : (childCount store t <= childCount store m1)%nat).
    { destruct pre as [|p pre]; simpl in Heq; injection Heq as Hhead Htail.
      - rewrite Hhead. lia.
      - rewrite Hhead. apply Nat.lt_le_incl. apply Hpre. left. }
    unfold m1 in *. clear m1.
    destruct (Nat.ltb_spec (childCount store e) (childCount store m0)) as [Hlt | Hge].
    + exists (m0 :: pre), post. split; [simpl; rewrite Heq; reflexivity|].
      split; [|exact Hpost]. intros j Hj. apply elem_of_cons in Hj.
      destruct Hj as [-> | Hj]; [lia | apply Hpre; exact Hj].
    + destruct pre as [|p pre]; simpl in Heq; injection Heq as Hhead Htail.
      * exists [], (e :: g). split; [simpl; rewrite Hhead; reflexivity|].
        split; [intros j H; inversion H|]. intros j Hj. apply elem_of_cons in Hj.
        destruct Hj as [-> | Hj]; [rewrite <- Hhead; exact Hge|].
        apply Hpost. rewrite <- Htail. exact Hj.
      * subst p. exists (m0 :: e :: pre), post.
        split; [simpl; rewrite Htail; reflexivity|].
        split; [|exact Hpost]. intros j Hj.
        assert (Hm : (childCount store t < childCount store m0)%nat) by (apply Hpre; left).
        apply elem_of_cons in Hj. destruct Hj as [-> | Hj]; [exact Hm|].
        apply elem_of_cons in Hj. destruct Hj as [-> | Hj]; [lia|].
        apply Hpre. right. exact Hj.
Qed.

(** The target is the first epic of the group with the fewest children. *)
Lemma fewestChildren_first (store : list Epic.t) (first : nat) (rest : list nat) :
  let t := fewestChildren store (first :: rest) first in
  exists pre post,
    first :: rest = pre ++ t :: post /\
    (forall j, j ∈ pre -> (childCount store t < childCount store j)%nat) /\
    (forall j, j ∈ post -> (childCount store t <= childCount store j)%nat).
Proof.
  cbv zeta. unfold fewestChildren.
  destruct (fewest_fold store (first :: rest) first) as (pre & post & Heq & Hpre & Hpost).
  destruct pre as [|p pre]; simpl in Heq; injection Heq as Hhead Htail.
  - exists [], rest. split; [simpl; rewrite <- Hhead; reflexivity|].
    split; [intros j H; inversion H|]. intros j Hj. apply Hpost.
    rewrite <- Htail. right. exact Hj.
  - exists pre, post. split; [exact Htail|]. split; [|exact Hpost].
    intros j Hj. apply Hpre. right. exact Hj.
Qed.

Lemma secondPass_ids (parseFloat : string -> option Q) (cols : Columns) (rows : list Record_) :
  Forall (fun e => Epic.id e = Epic.key e) (secondPass parseFloat cols rows).1.
Proof.
  unfold secondPass.
  assert (H1 : Forall (fun e => Epic.id e = Epic.key e) (pass1 parseFloat cols rows).1).
  { unfold pass1.
    apply (fold_left_invariant
             (fun st : list Epic.t * Index => Forall (fun e => Epic.id e = Epic.key e) st.1)).
    - constructor.
    - intros [store index] r _ Hst. simpl in Hst. unfold pass1_step.
      destruct (isEpicType (optLower (cell r (typeCol cols)))); simpl; [|exact Hst].
      apply Forall_app. split; [exact Hst|]. repeat constructor. }
  destruct (pass1 parseFloat cols rows) as [store index]. simpl in H1.
  apply (fold_left_invariant
           (fun st : list Epic.t * nat => Forall (fun e => Epic.id e = Epic.key e) st.1));
    [exact H1|].
  intros [st n] r _ Hst. simpl in Hst. unfold pass2_step.
  destruct (isEpicType (optLower (cell r (typeCol cols)))); [exact Hst|].
  destruct (truthyStr (findParentEpicKey cols index r)
            && hasEpic index (findParentEpicKey cols index r)); [|exact Hst].
  destruct (epicsByKey index !! findParentEpicKey cols index r); [|exact Hst].
  simpl. unfold attach. apply Forall_alter; [exact Hst|]. intros e _ He. exact He.
Qed.

(** ** A run that returns *)

Section Returns.

Variable parseFloat : string -> option Q.
Variable localeCompare : string -> string -> Z.
Variable cols : Columns.

(** A property of epics that attaching a child does not disturb holds
    throughout the store once it holds for the fresh epics. *)
Lemma secondPass_Forall (P : Epic.t -> Prop) (rows : list Record_) :
  (forall child e, P e -> P (addChild child e)) ->
  Forall (fun r => isEpicType (optLower (cell r (typeCol cols))) = true ->
                   P (newEpic parseFloat cols r)) rows ->
  Forall P (secondPass parseFloat cols rows).1.
Proof.
  intros Hadd Hnew. unfold secondPass.
  assert (H1 : Forall P (pass1 parseFloat cols rows).1).
  { unfold pass1.
    apply (fold_left_invariant (fun st : list Epic.t * Index => Forall P st.1)).
    - constructor.
    - intros [store index] r Hr Hst. simpl in Hst. unfold pass1_step.
      destruct (isEpicType (optLower (cell r (typeCol cols)))) eqn:Hty; simpl; [|exact Hst].
      apply Forall_app. split; [exact Hst|]. constructor; [|constructor].
      rewrite Forall_forall in Hnew. apply Hnew; [|exact Hty].
      apply list_elem_of_In. exact Hr. }
  destruct (pass1 parseFloat cols rows) as [store index]. simpl in H1.
  apply (fold_left_invariant (fun st : list Epic.t * nat => Forall P st.1)); [exact H1|].
  intros [st n] r _ Hst. simpl in Hst. unfold pass2_step.
  destruct (isEpicType (optLower (cell r (typeCol cols)))); [exact Hst|].
  destruct (truthyStr (findParentEpicKey cols index r)
            && hasEpic index (findParentEpicKey cols index r)); [|exact Hst].
  destruct (epicsByKey index !! findParentEpicKey cols index r); [|exact Hst].
  simpl. unfold attach. apply Forall_alter; [exact Hst|]. intros e _. apply Hadd.
Qed.

Lemma distribute_Forall (P : Epic.t -> Prop) (rows : list Record_) (store store' : list Epic.t) :
  (forall child e, P e -> P (addChild child e)) ->
  distribute parseFloat localeCompare cols rows store = Ok store' ->
  Forall P store -> Forall P store'.
Proof.
  intros Hadd Hd Hst. unfold distribute in Hd.
  destruct (sortGroups localeCompare store (groupEpics store)) as [groups|e];
    [|discriminate].
  simpl in Hd. inversion Hd; subst store'.
  apply (fold_left_invariant (Forall P)); [exact Hst|].
  intros st r _ Hall. unfold distribute_step.
  destruct (getProjectKey (cell r (keyCol cols))) as [pk|]; [|exact Hall].
  destruct (groupGet groups pk) as [[|first rest]|]; try exact Hall.
  unfold attach. apply Forall_alter; [exact Hall|]. intros e _. apply Hadd.
Qed.

End Returns.

(** [processMainCSV] returns a hierarchy whenever the records are there
    and every epic record has a key cell. *)
Lemma processMainCSV_returns
    (parseFloat : string -> option Q) (localeCompare : string -> string -> Z)
    (csv : MainCSV) (rows : list Record_) :
  records csv = Some rows ->
  Forall (fun r =>
    isEpicType (optLower (cell r (typeCol (resolveColumns (headers csv))))) = true ->
    is_Some (cell r (keyCol (resolveColumns (headers csv))))) rows ->
  exists h, processMainCSV parseFloat localeCompare csv = Ok h.
Proof.
  intros Hrows Hkeys. unfold processMainCSV, processMainCSV_body. rewrite Hrows. simpl.
  set (cols := resolveColumns (headers csv)) in *.
  assert (Hids : Forall (fun e => is_Some (Epic.id e)) (secondPass parseFloat cols rows).1).
  { apply secondPass_Forall; [intros child e He; exact He | exact Hkeys]. }
  assert (Hkey := secondPass_ids parseFloat cols rows).
  destruct (secondPass parseFloat cols rows) as [store2 linked]. simpl in Hids, Hkey.
  assert (Hdist : exists store3,
    (if fewLinked linked (length rows)
     then distribute parseFloat localeCompare cols rows store2 else Ok store2) = Ok store3 /\
    Forall (fun e => is_Some (Epic.id e)) store3).
  { destruct (fewLinked linked (length rows)); [|eauto].
    destruct (sortGroups_total localeCompare store2 _ (groupEpics_ids store2 Hkey))
      as [groups Hgroups].
    assert (Hd : distribute parseFloat localeCompare cols rows store2 =
                 Ok (fold_left (distribute_step parseFloat cols groups)
                       (filter (fun r => isDistributable cols r = true) rows) store2)).
    { unfold distribute. rewrite Hgroups. reflexivity. }
    eexists. split; [exact Hd|].
    eapply distribute_Forall; [|exact Hd | exact Hids]. intros child e He. exact He. }
  destruct Hdist as (store3 & -> & Hids3). simpl.
  destruct (sortById_total localeCompare Epic.id store3 Hids3) as [sorted ->].
  simpl. eauto.
Qed.

(** ** Attachments through the run *)

Lemma extends_refl (store : list Epic.t) : extends store store.
Proof.
  split; [reflexivity|]. intros i e Hi. exists e, []. rewrite app_nil_r. auto.
Qed.

Lemma extends_trans (s1 s2 s3 : list Epic.t) :
  extends s1 s2 -> extends s2 s3 -> extends s1 s3.
Proof.
  intros [L1 H1] [L2 H2]. split; [congruence|].
  intros i e Hi. destruct (H1 i e Hi) as (e2 & m1 & Hi2 & Hid & Hkey & Hch).
  destruct (H2 i e2 Hi2) as (e3 & m2 & Hi3 & Hid3 & Hkey3 & Hch3).
  exists e3, (m1 ++ m2). split; [exact Hi3|]. split; [congruence|]. split; [congruence|].
  rewrite Hch3, Hch, <- app_assoc. reflexivity.
Qed.

Lemma attach_extends (i : nat) (child : Child.t) (store : list Epic.t) :
  extends store (attach i child store).
Proof.
  destruct (attach_lookup i child store) as (Hi & Hother & Hlen).
  split; [exact Hlen|]. intros j e Hj.
  destruct (decide (j = i)) as [->|Hne].
  - exists (addChild child e), [child]. rewrite Hi, Hj. repeat split.
  - exists e, []. rewrite (Hother j Hne), app_nil_r. auto.
Qed.

(** What an attachment does to the epic it goes to. *)
Lemma attach_at (i : nat) (child : Child.t) (store : list Epic.t) (e : Epic.t) :
  store !! i = Some e ->
  exists e',
    attach i child store !! i = Some e' /\
    Epic.id e' = Epic.id e /\ Epic.key e' = Epic.key e /\
    Epic.children e' = Epic.children e ++ [child].
Proof.
  intros Hi. exists (addChild child e).
  destruct (attach_lookup i child store) as (Ha & _ & _).
  rewrite Ha, Hi. repeat split.
Qed.

(** A child that an epic has keeps its place under the same reference. *)
Lemma extends_child (store store' : list Epic.t) (i : nat) (e : Epic.t) (c : Child.t) :
  extends store store' -> store !! i = Some e -> In c (Epic.children e) ->
  exists e', store' !! i = Some e' /\ Epic.id e' = Epic.id e /\
             Epic.key e' = Epic.key e /\ In c (Epic.children e').
Proof.
  intros [_ H] Hi Hc. destruct (H i e Hi) as (e' & more & Hi' & Hid & Hkey & Hch).
  exists e'. split; [exact Hi'|]. split; [exact Hid|]. split; [exact Hkey|].
  rewrite Hch. apply in_or_app. left. exact Hc.
Qed.

Section Attachment.

Variable parseFloat : string -> option Q.
Variable cols : Columns.

Lemma pass1_snoc rows r :
  pass1 parseFloat cols (rows ++ [r]) =
  pass1_step parseFloat cols (pass1 parseFloat cols rows) r.
Proof. unfold pass1. rewrite fold_left_app. reflexivity. Qed.

(** What the first pass leaves in its lookup maps: [epicsByKey] holds the
    keys of the epic records, each referring to an epic object that has
    the key as its id; [issuesById] holds records of the input under their
    IDs. *)
Lemma pass1_index rows :
  let '(store, index) := pass1 parseFloat cols rows in
  (forall k i, epicsByKey index !! k = Some i ->
     exists e, store !! i = Some e /\ Epic.id e = k /\ Epic.key e = k) /\
  (forall k, is_Some (epicsByKey index !! k) <->
     exists r, In r rows /\
       isEpicType (optLower (cell r (typeCol cols))) = true /\ cell r (keyCol cols) = k) /\
  (forall i r, issuesById index !! i = Some r ->
     In r rows /\ cell r (idCol cols) = Some i /\ nonEmpty i = true).
Proof.
  induction rows as [|r rows IH] using rev_ind.
  - simpl. split; [|split].
    + intros k i H. rewrite lookup_empty in H. discriminate.
    + intros k. rewrite lookup_empty. split; [intros [x H]; discriminate|].
      intros (r & [] & _).
    + intros i r H. rewrite lookup_empty in H. discriminate.
  - rewrite pass1_snoc. destruct (pass1 parseFloat cols rows) as [store index].
    destruct IH as (Href & Hkeys & Hids). unfold pass1_step.
    assert (Hids' : forall i r0,
      match cell r (idCol cols) with
      | Some i0 => if nonEmpty i0 then <[i0 := r]> (issuesById index) else issuesById index
      | None => issuesById index
      end !! i = Some r0 ->
      In r0 (rows ++ [r]) /\ cell r0 (idCol cols) = Some i /\ nonEmpty i = true).
    { intros i r0 H.
      assert (Hold : issuesById index !! i = Some r0 ->
                     In r0 (rows ++ [r]) /\ cell r0 (idCol cols) = Some i /\ nonEmpty i = true).
      { intros H0. destruct (Hids i r0 H0) as (Hin & Hc & Hn).
        split; [apply in_or_app; left; exact Hin | split; assumption]. }
      destruct (cell r (idCol cols)) as [i0|] eqn:Hi0; [|exact (Hold H)].
      destruct (nonEmpty i0) eqn:Hn0; [|exact (Hold H)].
      rewrite lookup_insert in H. case_decide as Heq; [|exact (Hold H)].
      subst i0. injection H as <-.
      split; [apply in_or_app; right; left; reflexivity | split; assumption]. }
    destruct (isEpicType (optLower (cell r (typeCol cols)))) eqn:Hty; cbn [epicsByKey issuesById].
    + split; [|split; [|exact Hids']].
      * intros k i. rewrite lookup_insert. case_decide as Heq.
        -- intros H. injection H as <-. exists (newEpic parseFloat cols r).
           split; [|split; [exact Heq | exact Heq]].
           rewrite lookup_app_r by lia. rewrite Nat.sub_diag. reflexivity.
        -- intros H. destruct (Href k i H) as (e & He & Hid).
           exists e. split; [|exact Hid]. apply lookup_app_l_Some. exact He.
      * intros k. rewrite lookup_insert. case_decide as Heq.
        -- split; [|eauto]. intros _. exists r.
           split; [apply in_or_app; right; left; reflexivity|]. split; assumption.
        -- rewrite Hkeys. split.
           ++ intros (r0 & Hin & H0). exists r0.
              split; [apply in_or_app; left; exact Hin | exact H0].
           ++ intros (r0 & Hin & Ht0 & Hk0). apply in_app_or in Hin.
              destruct Hin as [Hin | [<- | []]]; [eauto | contradiction].
    + split; [exact Href|]. split; [|exact Hids'].
      intros k. rewrite Hkeys. split.
      * intros (r0 & Hin & H0). exists r0.
        split; [apply in_or_app; left; exact Hin | exact H0].
      * intros (r0 & Hin & Ht0 & Hk0). apply in_app_or in Hin.
        destruct Hin as [Hin | [<- | []]]; [eauto | congruence].
Qed.

Lemma pass2_step_extends index st r :
  extends st.1 (pass2_step parseFloat cols index st r).1.
Proof.
  destruct st as [store linked]. unfold pass2_step.
  destruct (isEpicType (optLower (cell r (typeCol cols)))); [apply extends_refl|].
  destruct (truthyStr (findParentEpicKey cols index r)
            && hasEpic index (findParentEpicKey cols index r)); [|apply extends_refl].
  destruct (epicsByKey index !! findParentEpicKey cols index r); [|apply extends_refl].
  apply attach_extends.
Qed.

Lemma pass2_extends index rows st :
  extends st.1 (fold_left (pass2_step parseFloat cols index) rows st).1.
Proof.
  revert st. induction rows as [|r rows IH]; intros st; simpl; [apply extends_refl|].
  eapply extends_trans; [apply pass2_step_extends | apply IH].
Qed.

Lemma distribute_step_extends groups store r :
  extends store (distribute_step parseFloat cols groups store r).
Proof.
  unfold distribute_step.
  destruct (getProjectKey (cell r (keyCol cols))) as [pk|]; [|apply extends_refl].
  destruct (groupGet groups pk) as [[|first rest]|]; try apply extends_refl.
  apply attach_extends.
Qed.

Lemma distribute_fold_extends groups rows store :
  extends store (fold_left (distribute_step parseFloat cols groups) rows store).
Proof.
  revert store. induction rows as [|r rows IH]; intros store; simpl; [apply extends_refl|].
  eapply extends_trans; [apply distribute_step_extends | apply IH].
Qed.

(** A key that the strategies choose names an epic of the first pass. *)
Lemma chosen_has_epic rows record k :
  let index := (pass1 parseFloat cols rows).2 in
  usable (findParentEpicKey cols index record) = Some k ->
  is_Some (epicsByKey index !! Some k).
Proof.
  intros index. rewrite (findParentEpicKey_priority cols index record).
  assert (Hidx := pass1_index rows). unfold index.
  destruct (pass1 parseFloat cols rows) as [store ix]. simpl.
  destruct Hidx as (_ & Hkeys & Hids).
  assert (Hkey : forall col, KeyField ix col record k -> is_Some (epicsByKey ix !! Some k)).
  { intros col (_ & _ & _ & H). exact H. }
  destruct (strategy1 cols ix record) as [k1|] eqn:H1; simpl.
  { intros H. injection H as ->. apply strategy1_spec in H1. exact (Hkey _ H1). }
  destruct (strategy2 cols ix record) as [k2|] eqn:H2; simpl.
  { intros H. injection H as ->. apply strategy2_spec in H2. exact (Hkey _ H2). }
  destruct (strategy3 cols ix record) as [k3|] eqn:H3; simpl.
  { intros H. injection H as ->. apply strategy3_spec in H3.
    destruct H3 as (_ & pid & prec & _ & _ & Hrec & Hty & Hk & _).
    apply Hkeys. exists prec. split; [|split; assumption].
    exact (proj1 (Hids pid prec Hrec)). }
  destruct (strategy4 cols ix record) as [k4|] eqn:H4; simpl; [|discriminate].
  intros H. injection H as ->. apply strategy4_spec in H4. exact (Hkey _ H4).
Qed.

(** A record that the strategies link is, at the end of the second pass,
    among the children of the epic whose id is the chosen key. *)
Lemma secondPass_attached rows record k :
  In record rows ->
  isEpicType (optLower (cell record (typeCol cols))) = false ->
  usable (findParentEpicKey cols (pass1 parseFloat cols rows).2 record) = Some k ->
  exists i e,
    (secondPass parseFloat cols rows).1 !! i = Some e /\
    Epic.id e = Some k /\
    In (newChild parseFloat cols record (Some k)) (Epic.children e).
Proof.
  intros Hin Hne Hch.
  destruct (chosen_has_epic rows record k Hch) as [i Hi].
  assert (Hidx := pass1_index rows). unfold secondPass.
  destruct (pass1 parseFloat cols rows) as [store index]. simpl in Hch, Hi.
  destruct Hidx as (Href & _ & _).
  destruct (Href _ _ Hi) as (e1 & He1 & Hid1 & _).
  apply in_split in Hin. destruct Hin as (l1 & l2 & ->).
  rewrite fold_left_app. cbn [fold_left].
  set (sa := fold_left (pass2_step parseFloat cols index) l1 (store, 0%nat)).
  assert (Ha : extends store sa.1) by apply (pass2_extends index l1 (store, 0%nat)).
  destruct Ha as [_ Ha]. destruct (Ha i e1 He1) as (ea & more & Hea & Hida & _).
  assert (Hstep : pass2_step parseFloat cols index sa record =
                  (attach i (newChild parseFloat cols record (Some k)) sa.1, S sa.2)).
  { destruct sa as [st n]. rewrite (pass2_step_chosen _ _ _ _ _ _ Hne), Hch. simpl.
    rewrite Hi. reflexivity. }
  rewrite Hstep.
  destruct (attach_at i (newChild parseFloat cols record (Some k)) sa.1 ea Hea)
    as (eb & Heb & Hidb & _ & Hchb).
  destruct (extends_child _ _ i eb (newChild parseFloat cols record (Some k))
              (pass2_extends index l2 (_, S sa.2)) Heb)
    as (ef & Hef & Hidf & _ & Hcf).
  { rewrite Hchb. apply in_or_app. right. left. reflexivity. }
  exists i, ef. split; [exact Hef|]. split; [congruence | exact Hcf].
Qed.

End Attachment.

(** What the epics have at the end of the second pass, the epics returned
    still have. *)
Lemma processMainCSV_keeps
    (parseFloat : string -> option Q) (localeCompare : string -> string -> Z)
    (csv : MainCSV) (rows : list Record_) (h : Hierarchy)
    (i : nat) (e : Epic.t) (c : Child.t) :
  records csv = Some rows ->
  processMainCSV parseFloat localeCompare csv = Ok h ->
  (secondPass parseFloat (resolveColumns (headers csv)) rows).1 !! i = Some e ->
  In c (Epic.children e) ->
  exists e', In e' (epics h) /\ Epic.id e' = Epic.id e /\ Epic.key e' = Epic.key e /\
             In c (Epic.children e').
Proof.
  intros Hrows Hrun Hi Hc.
  destruct (processMainCSV_Ok parseFloat localeCompare csv h Hrun)
    as (rows' & store2 & linked & store3 & Hrows' & Hsecond & Hdist & Hsort & _).
  rewrite Hrows in Hrows'. injection Hrows' as <-.
  rewrite Hsecond in Hi. simpl in Hi.
  assert (Hext : extends store2 store3).
  { destruct (fewLinked linked (length rows)).
    - unfold distribute in Hdist.
      destruct (sortGroups localeCompare store2 (groupEpics store2)) as [groups|err];
        [|discriminate].
      simpl in Hdist. injection Hdist as <-. apply distribute_fold_extends.
    - injection Hdist as <-. apply extends_refl. }
  destruct (extends_child _ _ i e c Hext Hi Hc) as (e' & Hi' & Hid & Hkey & Hc').
  exists e'. split; [|split; [exact Hid | split; [exact Hkey | exact Hc']]].
  apply (Permutation_in _ (sortById_Permutation _ _ _ _ Hsort)).
  apply list_elem_of_In. eapply list_elem_of_lookup_2. exact Hi'.
Qed.

(** C3.  For a record that is not an epic, the key the second pass links
    to is the one found by the first of the four strategies that finds a
    usable key, in the order Epic-Link, Epic-Key, Parent, Custom-parent.
    The Epic-Link, Epic-Key and Custom-parent strategies accept the text of
    their column when it is the key of an epic record; the Parent strategy
    takes the text of its column as an ID, and accepts the key of the
    record with that ID when that record's type is epic.  In the step of
    the second pass the child built from the record, with the record's key
    and the chosen key as [parentEpicId], is appended to the children of
    the epic object that the chosen key refers to, and no other object
    changes; when [processMainCSV] returns, which it does whenever every
    epic record has a key cell, the epic whose id is the chosen key has
    that child among its children.  In particular, for a record
    with an acceptable Epic-Link value and an acceptable Parent ID, the
    chosen key is the Epic-Link value, whichever epic the Parent ID leads
    to. *)
Theorem linkage_priority
    (parseFloat : string -> option Q) (localeCompare : string -> string -> Z)
    (csv : MainCSV) (rows : list Record_) (record : Record_) :
  records csv = Some rows ->
  In record rows ->
  isEpicType (optLower (cell record (typeCol (resolveColumns (headers csv))))) = false ->
  let cols := resolveColumns (headers csv) in
  let index := (pass1 parseFloat cols rows).2 in
  let chosen :=
    firstSuccess [strategy1 cols index record; strategy2 cols index record;
                  strategy3 cols index record; strategy4 cols index record] in
  (forall k, is_Some (epicsByKey index !! k) <->
     exists r, In r rows /\
       isEpicType (optLower (cell r (typeCol cols))) = true /\ cell r (keyCol cols) = k) /\
  (forall i r, issuesById index !! i = Some r -> In r rows /\ cell r (idCol cols) = Some i) /\
  (forall k,
     (strategy1 cols index record = Some k <-> KeyField index (epicLinkCol cols) record k) /\
     (strategy2 cols index record = Some k <-> KeyField index (epicKeyCol cols) record k) /\
     (strategy3 cols index record = Some k <-> ParentField cols index record k) /\
     (strategy4 cols index record = Some k <->
        KeyField index (customParentCol cols) record k)) /\
  usable (findParentEpicKey cols index record) = chosen /\
  (chosen = None ->
     forall store linked,
       pass2_step parseFloat cols index (store, linked) record = (store, linked)) /\
  (forall k, chosen = Some k ->
     exists parentEpic,
       epicsByKey index !! Some k = Some parentEpic /\
       (exists e, (pass1 parseFloat cols rows).1 !! parentEpic = Some e /\
                  Epic.id e = Some k) /\
       forall store linked, exists store' child,
         pass2_step parseFloat cols index (store, linked) record = (store', S linked) /\
         Child.key child = cell record (keyCol cols) /\
         Child.parentEpicId child = Some k /\
         length store' = length store /\
         (forall e, store !! parentEpic = Some e ->
            exists e', store' !! parentEpic = Some e' /\
              Epic.id e' = Epic.id e /\
              Epic.children e' = Epic.children e ++ [child]) /\
         (forall other, other <> parentEpic -> store' !! other = store !! other)) /\
  (Forall (fun r => isEpicType (optLower (cell r (typeCol cols))) = true ->
                   is_Some (cell r (keyCol cols))) rows ->
   exists h, processMainCSV parseFloat localeCompare csv = Ok h) /\
  (forall k h, chosen = Some k ->
     processMainCSV parseFloat localeCompare csv = Ok h ->
     exists e child,
       In e (epics h) /\ Epic.id e = Some k /\
       In child (Epic.children e) /\ In child (childIssues h) /\
       Child.key child = cell record (keyCol cols) /\
       Child.parentEpicId child = Some k /\
       Child.matchMethod child = None) /\
  (forall k1 kp,
     KeyField index (epicLinkCol cols) record k1 ->
     ParentField cols index record kp ->
     chosen = Some k1 /\
     forall h, processMainCSV parseFloat localeCompare csv = Ok h ->
       exists e child,
         In e (epics h) /\ Epic.id e = Some k1 /\
         In child (Epic.children e) /\
         Child.key child = cell record (keyCol cols) /\
         Child.parentEpicId child = Some k1).
Proof.
  intros Hrows Hin Hne cols index chosen.
  assert (Hprio := findParentEpicKey_priority cols index record). fold chosen in Hprio.
  assert (Hidx := pass1_index parseFloat cols rows).
  assert (Hhas : forall k, chosen = Some k -> is_Some (epicsByKey index !! Some k)).
  { intros k Hk. apply (chosen_has_epic parseFloat cols rows record k).
    fold index. rewrite Hprio. exact Hk. }
  unfold index in *. clear index.
  destruct (pass1 parseFloat cols rows) as [store1 index] eqn:Hpass1. cbn [fst snd] in *.
  destruct Hidx as (Href & Hkeys & Hids).
  split; [exact Hkeys|].
  split; [intros i r Hr; destruct (Hids i r Hr) as (H1 & H2 & _); split; assumption|].
  split.
  { intros k. split; [apply strategy1_spec|]. split; [apply strategy2_spec|].
    split; [apply strategy3_spec | apply strategy4_spec]. }
  split; [exact Hprio|].
  split.
  { intros Hnone store linked.
    rewrite (pass2_step_chosen parseFloat cols index record store linked Hne), Hprio, Hnone.
    reflexivity. }
  split.
  { intros k Hk. destruct (Hhas k Hk) as [parentEpic Hi].
    exists parentEpic. split; [exact Hi|]. split.
    { destruct (Href _ _ Hi) as (e & He & Hid & _). eauto. }
    intros store linked.
    exists (attach parentEpic (newChild parseFloat cols record (Some k)) store),
           (newChild parseFloat cols record (Some k)).
    split.
    { rewrite (pass2_step_chosen parseFloat cols index record store linked Hne), Hprio, Hk.
      simpl. rewrite Hi. reflexivity. }
    split; [reflexivity|]. split; [reflexivity|].
    destruct (attach_lookup parentEpic (newChild parseFloat cols record (Some k)) store)
      as (_ & Hother & Hlen).
    split; [exact Hlen|]. split; [|exact Hother].
    intros e He.
    destruct (attach_at parentEpic (newChild parseFloat cols record (Some k)) store e He)
      as (e' & He' & Hid & _ & Hch).
    exists e'. split; [exact He'|]. split; assumption. }
  assert (Hwhole : forall k h, chosen = Some k ->
     processMainCSV parseFloat localeCompare csv = Ok h ->
     exists e child,
       In e (epics h) /\ Epic.id e = Some k /\
       In child (Epic.children e) /\ In child (childIssues h) /\
       Child.key child = cell record (keyCol cols) /\
       Child.parentEpicId child = Some k /\
       Child.matchMethod child = None).
  { intros k h Hk Hrun.
    destruct (secondPass_attached parseFloat cols rows record k Hin Hne) as (i & e & Hi & Hid & Hc).
    { rewrite Hpass1. cbn [snd]. rewrite Hprio. exact Hk. }
    destruct (processMainCSV_keeps parseFloat localeCompare csv rows h i e _ Hrows Hrun Hi Hc)
      as (e' & He' & Hid' & _ & Hc').
    exists e', (newChild parseFloat cols record (Some k)).
    split; [exact He'|]. split; [congruence|]. split; [exact Hc'|].
    split; [|repeat split].
    destruct (processMainCSV_Ok parseFloat localeCompare csv h Hrun)
      as (_ & _ & _ & _ & _ & _ & _ & _ & Hall).
    rewrite Hall. apply in_flat_map. exists e'. split; assumption. }
  split; [exact (processMainCSV_returns parseFloat localeCompare csv rows Hrows)|].
  split; [exact Hwhole|].
  intros k1 kp Hlink _.
  assert (H1 : strategy1 cols index record = Some k1) by (apply strategy1_spec; exact Hlink).
  assert (Hk : chosen = Some k1) by (unfold chosen; rewrite H1; reflexivity).
  split; [exact Hk|]. intros h Hrun.
  destruct (Hwhole k1 h Hk Hrun) as (e & child & He & Hid & Hc & _ & Hkey & Hparent & _).
  exists e, child. repeat split; assumption.
Qed.

(** Two epics and a task whose Epic Link names the first epic while its
    Parent holds the ID of the second: the task becomes a child of the
    first. *)
Lemma linkage_priority_witness :
  let hs := ["Key"; "ID"; "Issue Type"; "Epic Link"; "Parent"] in
  let row k i t l p : Record_ :=
    list_to_map [("Key", k); ("ID", i); ("Issue Type", t); ("Epic Link", l); ("Parent", p)] in
  let task := row "T-1" "1003" "Task" "E-1" "1002" in
  let rows := [row "E-1" "1001" "Epic" "" ""; row "E-2" "1002" "Epic" "" ""; task] in
  let csv := {| headers := Some hs; records := Some rows |} in
  let cols := resolveColumns (Some hs) in
  let index := (pass1 parseWhole cols rows).2 in
  KeyField index (epicLinkCol cols) task "E-1" /\
  ParentField cols index task "E-2" /\
  exists h e child,
    processMainCSV parseWhole compareCodes csv = Ok h /\
    In e (epics h) /\ Epic.id e = Some "E-1" /\
    In child (Epic.children e) /\
    Child.key child = Some "T-1" /\
    Child.parentEpicId child = Some "E-1".
Proof.
  intros hs row task rows csv cols index.
  assert (Hlink : KeyField index (epicLinkCol cols) task "E-1").
  { repeat split. exists 0%nat. reflexivity. }
  assert (Hparent : ParentField cols index task "E-2").
  { split; [reflexivity|]. exists "1002", (row "E-2" "1002" "Epic" "" "").
    repeat split. }
  split; [exact Hlink|]. split; [exact Hparent|].
  assert (Hin : In task rows) by (right; right; left; reflexivity).
  destruct (linkage_priority parseWhole compareCodes csv rows task eq_refl Hin eq_refl)
    as (_ & _ & _ & _ & _ & _ & _ & _ & Hwins).
  destruct (Hwins "E-1" "E-2" Hlink Hparent) as [_ Hrun].
  assert (Hret : exists h, processMainCSV parseWhole compareCodes csv = Ok h).
  { vm_compute. eexists. reflexivity. }
  destruct Hret as [h Hh].
  destruct (Hrun h Hh) as (e & child & He & Hid & Hc & Hkey & Hpar).
  exists h, e, child. repeat split; assumption.
Defined.

(** The same input, in another order, through the whole of
    [processMainCSV]. *)
Example processMainCSV_epic_link_wins :
  let hs := ["Key"; "ID"; "Issue Type"; "Epic Link"; "Parent"] in
  let row k i t l p : Record_ :=
    list_to_map [("Key", k); ("ID", i); ("Issue Type", t); ("Epic Link", l); ("Parent", p)] in
  let rows := [row "E-2" "1002" "Epic" "" ""; row "E-1" "1001" "Epic" "" "";
               row "T-1" "1003" "Task" "E-1" "1002"] in
  exists h, processMainCSV parseWhole compareCodes {| headers := Some hs; records := Some rows |} = Ok h /\
    map (fun e => (Epic.id e, map Child.key (Epic.children e))) (epics h) =
      [(Some "E-1", [Some "T-1"]); (Some "E-2", [])] /\
    map Child.parentEpicId (childIssues h) = [Some "E-1"].
Proof. vm_compute. eexists. split; [reflexivity|]. split; reflexivity. Qed.

(** ** The fallback's records and project keys *)

Lemma spanClass_split (cls : ascii -> bool) s run rest :
  spanClass cls s = (run, rest) ->
  s = run ++ rest /\ Forall (fun c => cls c = true) run.
Proof.
  revert run rest. induction s as [|c s IH]; simpl; intros run rest H.
  - inversion H; subst. split; [reflexivity | constructor].
  - destruct (cls c) eqn:Hc.
    + destruct (spanClass cls s) as [run' rest'] eqn:Hs. inversion H; subst.
      destruct (IH _ _ eq_refl) as [-> Hall]. split; [reflexivity|].
      constructor; assumption.
    + inversion H; subst. split; [reflexivity | constructor].
Qed.

Lemma spanClass_run (cls : ascii -> bool) run c post :
  Forall (fun c => cls c = true) run -> cls c = false ->
  spanClass cls (run ++ c :: post) = (run, c :: post).
Proof.
  intros Hall Hc. induction Hall as [|d run Hd _ IH]; simpl.
  - rewrite Hc. reflexivity.
  - rewrite Hd, IH. reflexivity.
Qed.

Lemma isUpper_codes (c : ascii) : isUpper c = true <-> (65 <= N_of_ascii c <= 90)%N.
Proof.
  unfold isUpper, code. rewrite andb_true_iff, !N.leb_le. reflexivity.
Qed.

(** The project key of an issue key: its leading run of upper-case
    letters, which must not be empty, with the hyphen that follows it. *)
Lemma getProjectKey_iff (key : option string) (pk : string) :
  getProjectKey key = Some pk <->
  exists k run rest,
    key = Some k /\ chars k = run ++ "-"%char :: rest /\ run <> [] /\
    Forall (fun c => (65 <= N_of_ascii c <= 90)%N) run /\
    pk = ofChars (run ++ ["-"%char]).
Proof.
  split.
  - destruct key as [k|]; [|discriminate]. unfold getProjectKey.
    destruct (spanClass isUpper (chars k)) as [run rest] eqn:Hs.
    destruct run as [|c run]; [discriminate|].
    destruct rest as [|h rest]; [discriminate|].
    destruct (Ascii.eqb h "-") eqn:Hh; [|discriminate].
    apply Ascii.eqb_eq in Hh. subst h.
    intros H. injection H as <-. apply spanClass_split in Hs. destruct Hs as [Hk Hall].
    exists k, (c :: run), rest. split; [reflexivity|]. split; [exact Hk|].
    split; [discriminate|]. split; [|reflexivity].
    eapply Forall_impl; [exact Hall|]. intros x Hx. apply isUpper_codes. exact Hx.
  - intros (k & run & rest & -> & Hk & Hne & Hall & ->). unfold getProjectKey. rewrite Hk.
    rewrite (spanClass_run isUpper run "-" rest); [| | reflexivity].
    + destruct run as [|c run]; [congruence | reflexivity].
    + eapply Forall_impl; [exact Hall|]. intros x Hx. apply isUpper_codes. exact Hx.
Qed.

Lemma nonEmpty_ne (s : string) : nonEmpty s = true <-> s <> "".
Proof. destruct s; simpl; split; congruence. Qed.

Lemma nonEmpty_toLowerCase (t : string) : nonEmpty (toLowerCase t) = nonEmpty t.
Proof. destruct t; reflexivity. Qed.

(** The records the fallback goes through: those with an issue type other
    than epic (compared in lower case) and a key. *)
Lemma isDistributable_iff (cols : Columns) (r : Record_) :
  isDistributable cols r = true <->
  exists t k,
    cell r (typeCol cols) = Some t /\ t <> "" /\ toLowerCase t <> "epic" /\
    cell r (keyCol cols) = Some k /\ k <> "".
Proof.
  unfold isDistributable, optLower.
  destruct (cell r (typeCol cols)) as [t|]; simpl;
    [|split; [discriminate | intros (t & k & H & _); discriminate]].
  rewrite nonEmpty_toLowerCase, !andb_true_iff, negb_true_iff, nonEmpty_ne.
  split.
  - intros [[Ht He] Hk]. destruct (cell r (keyCol cols)) as [k|]; [|discriminate].
    simpl in Hk. apply nonEmpty_ne in Hk. exists t, k.
    split; [reflexivity|]. split; [exact Ht|]. split; [|split; [reflexivity | exact Hk]].
    intros Heq. rewrite Heq in He. discriminate.
  - intros (t' & k & Ht' & Hne & He & -> & Hk). injection Ht' as <-.
    split; [split; [exact Hne|] | apply nonEmpty_ne; exact Hk].
    apply String.eqb_neq. exact He.
Qed.

Section Distribution.

Variable parseFloat : string -> option Q.
Variable localeCompare : string -> string -> Z.
Variable cols : Columns.

(** The sorted groups: a project key has a group exactly when an epic has
    it, the group is not empty and holds the references of the epics with
    that project key, sorted by id. *)
Lemma sorted_groups store groups pk :
  TotalOrder localeCompare ->
  Forall (fun e => Epic.id e = Epic.key e) store ->
  sortGroups localeCompare store (groupEpics store) = Ok groups ->
  match groupGet groups pk with
  | Some g =>
      g <> [] /\
      StronglySorted (idLe localeCompare (idAt store)) g /\
      forall i, i ∈ g <->
        exists e, store !! i = Some e /\ getProjectKey (Epic.key e) = Some pk
  | None => forall e, e ∈ store -> getProjectKey (Epic.key e) <> Some pk
  end.
Proof.
  intros Horder Hids Hgroups.
  assert (Hget := sortGroups_get localeCompare store _ _ pk Hgroups).
  destruct (groupEpics_members store pk) as [Hne Hmem].
  destruct (groupGet (groupEpics store) pk) as [g0|] eqn:Hg0.
  - destruct Hget as (g & Hsort & ->). simpl in Hmem.
    assert (Hperm := sortById_Permutation _ _ _ _ Hsort).
    split; [|split].
    + intros ->. apply Permutation_nil_r in Hperm. subst g0. exact (Hne pk Hg0).
    + eapply sortById_sorted; [exact Horder | | exact Hsort].
      apply Forall_forall. intros i Hi. apply Hmem in Hi. destruct Hi as (e & Hi & Hpk).
      unfold idAt. rewrite Hi. simpl. rewrite Forall_forall in Hids.
      rewrite (Hids e) by (eapply list_elem_of_lookup_2; exact Hi).
      destruct (Epic.key e); [eauto | discriminate].
    + intros i. rewrite <- Hmem. split; intros Hi.
      * eapply elem_of_Permutation_proper; [exact Hperm | exact Hi].
      * eapply elem_of_Permutation_proper; [apply Permutation_sym; exact Hperm | exact Hi].
  - rewrite Hget. simpl in Hmem. intros e He Hpk.
    apply list_elem_of_lookup_1 in He. destruct He as [i Hi].
    assert (Hin : i ∈ ([] : list nat)) by (apply Hmem; eauto).
    inversion Hin.
Qed.

(** The members of a sorted group, without any assumption on the order. *)
Lemma sorted_groups_members store groups pk g :
  sortGroups localeCompare store (groupEpics store) = Ok groups ->
  groupGet groups pk = Some g ->
  forall i, i ∈ g <->
    exists e, store !! i = Some e /\ getProjectKey (Epic.key e) = Some pk.
Proof.
  intros Hgroups Hg.
  assert (Hget := sortGroups_get localeCompare store _ _ pk Hgroups).
  destruct (groupEpics_members store pk) as [_ Hmem].
  destruct (groupGet (groupEpics store) pk) as [g0|] eqn:Hg0.
  - destruct Hget as (g' & Hsort & Hg'). rewrite Hg in Hg'. injection Hg' as <-.
    simpl in Hmem. assert (Hperm := sortById_Permutation _ _ _ _ Hsort).
    intros i. rewrite <- Hmem. split; intros Hi.
    + eapply elem_of_Permutation_proper; [exact Hperm | exact Hi].
    + eapply elem_of_Permutation_proper; [apply Permutation_sym; exact Hperm | exact Hi].
  - rewrite Hg in Hget. discriminate.
Qed.

Lemma sorted_groups_has store groups pk i0 e0 :
  sortGroups localeCompare store (groupEpics store) = Ok groups ->
  store !! i0 = Some e0 -> getProjectKey (Epic.key e0) = Some pk ->
  exists g, groupGet groups pk = Some g.
Proof.
  intros Hgroups Hi0 Hpk.
  assert (Hget := sortGroups_get localeCompare store _ _ pk Hgroups).
  destruct (groupEpics_members store pk) as [_ Hmem].
  destruct (groupGet (groupEpics store) pk) as [g0|] eqn:Hg0.
  - destruct Hget as (g' & _ & Hg'). eauto.
  - simpl in Hmem. assert (Hin : i0 ∈ ([] : list nat)) by (apply Hmem; eauto).
    inversion Hin.
Qed.

(** What one step of the distribution does for a record whose project has
    a group. *)
Lemma distribute_step_target groups st r pk first rest :
  getProjectKey (cell r (keyCol cols)) = Some pk ->
  groupGet groups pk = Some (first :: rest) ->
  exists pre target post,
    first :: rest = pre ++ target :: post /\
    (forall j, j ∈ pre -> (childCount st target < childCount st j)%nat) /\
    (forall j, j ∈ post -> (childCount st target <= childCount st j)%nat) /\
    distribute_step parseFloat cols groups st r =
      attach target (distributedChild parseFloat cols r (st !! target ≫= Epic.key)) st.
Proof.
  intros Hpk Hg. unfold distribute_step. rewrite Hpk, Hg.
  destruct (fewestChildren_first st first rest) as (pre & post & Heq & Hpre & Hpost).
  exists pre, (fewestChildren st (first :: rest) first), post.
  split; [exact Heq|]. split; [exact Hpre|]. split; [exact Hpost | reflexivity].
Qed.

(** A record of a known project that the fallback goes through is, at the
    end of the distribution, among the children of an epic of its
    project. *)
Lemma distribute_attached rows store store' r pk :
  distribute parseFloat localeCompare cols rows store = Ok store' ->
  In r rows -> isDistributable cols r = true ->
  getProjectKey (cell r (keyCol cols)) = Some pk ->
  (exists i0 e0, store !! i0 = Some e0 /\ getProjectKey (Epic.key e0) = Some pk) ->
  exists i e,
    store' !! i = Some e /\ getProjectKey (Epic.key e) = Some pk /\
    In (distributedChild parseFloat cols r (Epic.key e)) (Epic.children e).
Proof.
  intros Hdist Hin Hel Hpk (i0 & e0 & Hi0 & Hpk0). unfold distribute in Hdist.
  destruct (sortGroups localeCompare store (groupEpics store)) as [groups|err] eqn:Hgroups;
    [|discriminate].
  simpl in Hdist. injection Hdist as <-.
  destruct (sorted_groups_has store groups pk i0 e0 Hgroups Hi0 Hpk0) as [g Hg].
  assert (Hmem := sorted_groups_members store groups pk g Hgroups Hg).
  assert (Hin' : In r (filter (fun r => isDistributable cols r = true) rows)).
  { apply list_elem_of_In. apply list_elem_of_filter. split; [exact Hel|].
    apply list_elem_of_In. exact Hin. }
  apply in_split in Hin'. destruct Hin' as (l1 & l2 & ->).
  rewrite fold_left_app. cbn [fold_left].
  set (st := fold_left (distribute_step parseFloat cols groups) l1 store).
  assert (Hst : extends store st) by apply distribute_fold_extends.
  destruct g as [|first rest].
  { exfalso. assert (H0 : i0 ∈ ([] : list nat)) by (apply Hmem; eauto). inversion H0. }
  destruct (distribute_step_target groups st r pk first rest Hpk Hg)
    as (pre & target & post & Heq & _ & _ & Hstep).
  assert (Ht : target ∈ first :: rest).
  { rewrite Heq. apply list_elem_of_In. apply in_or_app. right. left. reflexivity. }
  apply Hmem in Ht. destruct Ht as (e & He & Hpke).
  destruct Hst as [_ Hst]. destruct (Hst target e He) as (es & more & Hes & _ & Hkey & _).
  rewrite Hstep, Hes. simpl.
  destruct (attach_at target (distributedChild parseFloat cols r (Epic.key es)) st es Hes)
    as (ea & Hea & _ & Hkeya & Hcha).
  destruct (extends_child _ _ target ea (distributedChild parseFloat cols r (Epic.key es))
              (distribute_fold_extends parseFloat cols groups l2 _) Hea)
    as (ef & Hef & _ & Hkeyf & Hcf).
  { rewrite Hcha. apply in_or_app. right. left. reflexivity. }
  exists target, ef. split; [exact Hef|].
  assert (Hk : Epic.key ef = Epic.key es) by congruence.
  rewrite Hk. split; [rewrite Hkey; exact Hpke | exact Hcf].
Qed.

End Distribution.

(** C4 (amended).  When the fallback runs on the store left by the second
    pass, it goes through every record that has an issue type other than
    epic and a key, whether or not the second pass has already linked it.
    The project key of a key is its leading run of upper-case letters with
    the hyphen that follows.  The epics are grouped by the project key of
    their key, each group sorted ascending by epic key.  A record whose own
    project key has a group is attached to the epic of that group that has
    the fewest children at that moment, the first such epic of the sorted
    group on ties, and to no other epic: the child built from the record,
    marked [balanced-distribution], is appended to that epic's children,
    and is among the children of an epic of its project when
    [processMainCSV] returns, which it does whenever every epic record has
    a key cell.  A record without a project key, or whose project key has
    no group, is left out by the fallback. *)
Theorem balanced_distribution
    (parseFloat : string -> option Q) (localeCompare : string -> string -> Z)
    (csv : MainCSV) (rows : list Record_) :
  TotalOrder localeCompare ->
  records csv = Some rows ->
  let cols := resolveColumns (headers csv) in
  let store := (secondPass parseFloat cols rows).1 in
  let eligible (r : Record_) : Prop :=
    exists t k,
      cell r (typeCol cols) = Some t /\ t <> "" /\ toLowerCase t <> "epic" /\
      cell r (keyCol cols) = Some k /\ k <> "" in
  let projectKey (key : option string) (pk : string) : Prop :=
    exists k run rest,
      key = Some k /\ chars k = run ++ "-"%char :: rest /\ run <> [] /\
      Forall (fun c => (65 <= N_of_ascii c <= 90)%N) run /\
      pk = ofChars (run ++ ["-"%char]) in
  (forall r, isDistributable cols r = true <-> eligible r) /\
  (forall key pk, getProjectKey key = Some pk <-> projectKey key pk) /\
  exists groups,
    sortGroups localeCompare store (groupEpics store) = Ok groups /\
    distribute parseFloat localeCompare cols rows store =
      Ok (fold_left (distribute_step parseFloat cols groups)
            (filter (fun r => isDistributable cols r = true) rows) store) /\
    (forall pk,
       match groupGet groups pk with
       | Some g =>
           g <> [] /\
           StronglySorted (idLe localeCompare (idAt store)) g /\
           forall i, i ∈ g <->
             exists e, store !! i = Some e /\ projectKey (Epic.key e) pk
       | None => forall e, e ∈ store -> ~ projectKey (Epic.key e) pk
       end) /\
    (forall st r,
       match getProjectKey (cell r (keyCol cols)) ≫= groupGet groups with
       | Some g =>
           exists pre target post,
             g = pre ++ target :: post /\
             (forall j, j ∈ pre -> (childCount st target < childCount st j)%nat) /\
             (forall j, j ∈ post -> (childCount st target <= childCount st j)%nat) /\
             distribute_step parseFloat cols groups st r =
               attach target (distributedChild parseFloat cols r (st !! target ≫= Epic.key)) st /\
             (forall e, st !! target = Some e ->
                exists e' child,
                  distribute_step parseFloat cols groups st r !! target = Some e' /\
                  Epic.id e' = Epic.id e /\
                  Epic.children e' = Epic.children e ++ [child] /\
                  Child.key child = cell r (keyCol cols) /\
                  Child.parentEpicId child = Epic.key e /\
                  Child.matchMethod child = Some "balanced-distribution") /\
             (forall other, other <> target ->
                distribute_step parseFloat cols groups st r !! other = st !! other)
       | None => distribute_step parseFloat cols groups st r = st
       end) /\
    (Forall (fun r => isEpicType (optLower (cell r (typeCol cols))) = true ->
                     is_Some (cell r (keyCol cols))) rows ->
     exists h, processMainCSV parseFloat localeCompare csv = Ok h) /\
    (forall h r pk,
       processMainCSV parseFloat localeCompare csv = Ok h ->
       fewLinked (secondPass parseFloat cols rows).2 (length rows) = true ->
       In r rows -> eligible r ->
       projectKey (cell r (keyCol cols)) pk ->
       (exists e0, In e0 store /\ projectKey (Epic.key e0) pk) ->
       exists e child,
         In e (epics h) /\ projectKey (Epic.key e) pk /\
         In child (Epic.children e) /\ In child (childIssues h) /\
         Child.key child = cell r (keyCol cols) /\
         Child.parentEpicId child = Epic.key e /\
         Child.matchMethod child = Some "balanced-distribution").
Proof.
  intros Horder Hrows cols store eligible projectKey.
  split; [intros r; apply isDistributable_iff|].
  split; [intros key pk; apply getProjectKey_iff|].
  assert (Hids : Forall (fun e => Epic.id e = Epic.key e) store) by apply secondPass_ids.
  destruct (sortGroups_total localeCompare store (groupEpics store) (groupEpics_ids store Hids))
    as [groups Hgroups].
  exists groups. split; [exact Hgroups|]. split.
  { unfold distribute. rewrite Hgroups. reflexivity. }
  assert (Hgrp := fun pk => sorted_groups localeCompare store groups pk Horder Hids Hgroups).
  split.
  { intros pk. specialize (Hgrp pk). destruct (groupGet groups pk) as [g|].
    - destruct Hgrp as (Hne & Hsorted & Hmem). split; [exact Hne|]. split; [exact Hsorted|].
      intros i. rewrite Hmem. split; intros (e & He & Hpk); exists e; (split; [exact He|]);
        apply getProjectKey_iff; exact Hpk.
    - intros e He Hpk. apply (Hgrp e He). apply getProjectKey_iff. exact Hpk. }
  split.
  { intros st r.
    destruct (getProjectKey (cell r (keyCol cols))) as [pk|] eqn:Hpk; simpl;
      [|unfold distribute_step; rewrite Hpk; reflexivity].
    specialize (Hgrp pk).
    destruct (groupGet groups pk) as [g|] eqn:Hg;
      [|unfold distribute_step; rewrite Hpk, Hg; reflexivity].
    destruct Hgrp as (Hne & _ & _). destruct g as [|first rest]; [congruence|].
    destruct (distribute_step_target parseFloat cols groups st r pk first rest Hpk Hg)
      as (pre & target & post & Heq & Hpre & Hpost & Hstep).
    exists pre, target, post.
    split; [exact Heq|]. split; [exact Hpre|]. split; [exact Hpost|].
    split; [exact Hstep|]. rewrite Hstep. split.
    - intros e He.
      destruct (attach_at target (distributedChild parseFloat cols r (st !! target ≫= Epic.key))
                  st e He) as (e' & He' & Hid & _ & Hch).
      exists e', (distributedChild parseFloat cols r (st !! target ≫= Epic.key)).
      split; [exact He'|]. split; [exact Hid|]. split; [exact Hch|].
      split; [reflexivity|]. split; [|reflexivity].
      rewrite He. reflexivity.
    - intros other Hother. apply attach_lookup. exact Hother. }
  split; [exact (processMainCSV_returns parseFloat localeCompare csv rows Hrows)|].
  intros h r pk Hrun Hfew Hin Hel Hpk (e0 & He0 & Hpk0).
  destruct (processMainCSV_Ok parseFloat localeCompare csv h Hrun)
    as (rows' & store2 & linked & store3 & Hrows' & Hsecond & Hdist & Hsort & Hall).
  rewrite Hrows in Hrows'. injection Hrows' as <-.
  fold cols in Hsecond, Hdist. unfold store in *. rewrite Hsecond in *. cbn [fst snd] in *.
  rewrite Hfew in Hdist.
  apply list_elem_of_In, list_elem_of_lookup_1 in He0. destruct He0 as [i0 Hi0].
  destruct (distribute_attached parseFloat localeCompare cols rows store2 store3 r pk Hdist Hin)
    as (i & e & Hi & Hpke & Hc).
  { apply isDistributable_iff. exact Hel. }
  { apply getProjectKey_iff. exact Hpk. }
  { exists i0, e0. split; [exact Hi0|]. apply getProjectKey_iff. exact Hpk0. }
  assert (He : In e (epics h)).
  { apply (Permutation_in _ (sortById_Permutation _ _ _ _ Hsort)).
    apply list_elem_of_In. eapply list_elem_of_lookup_2. exact Hi. }
  exists e, (distributedChild parseFloat cols r (Epic.key e)).
  split; [exact He|]. split; [apply getProjectKey_iff; exact Hpke|].
  split; [exact Hc|]. split; [|repeat split].
  rewrite Hall. apply in_flat_map. exists e. split; assumption.
Qed.

(** Two epics of project [A-], a task of the project already linked to the
    first epic, and eight tasks of no known project: the fallback runs (one
    link for eleven records) and hands the linked task to the second epic
    as well, which has no child yet. *)
Lemma balanced_distribution_witness :
  let hs := ["Key"; "Issue Type"; "Epic Link"] in
  let row k t l : Record_ := list_to_map [("Key", k); ("Issue Type", t); ("Epic Link", l)] in
  let task := row "A-3" "Task" "A-1" in
  let rows := [row "A-2" "Epic" ""; row "A-1" "Epic" ""; task;
               row "x-1" "Task" ""; row "x-2" "Task" ""; row "x-3" "Task" "";
               row "x-4" "Task" ""; row "x-5" "Task" ""; row "x-6" "Task" "";
               row "x-7" "Task" ""; row "x-8" "Task" ""] in
  let csv := {| headers := Some hs; records := Some rows |} in
  let cols := resolveColumns (headers csv) in
  let store := (secondPass parseWhole cols rows).1 in
  (exists groups store',
     sortGroups compareCodes store (groupEpics store) = Ok groups /\
     groupGet groups "A-" = Some [1%nat; 0%nat] /\
     distribute parseWhole compareCodes cols rows store = Ok store' /\
     map (fun e => (Epic.id e, map Child.key (Epic.children e))) store' =
       [(Some "A-2", [Some "A-3"]); (Some "A-1", [Some "A-3"])]) /\
  (exists h e child,
     processMainCSV parseWhole compareCodes csv = Ok h /\
     In e (epics h) /\ In child (Epic.children e) /\
     Child.key child = Some "A-3" /\
     Child.parentEpicId child = Epic.key e /\
     Child.matchMethod child = Some "balanced-distribution").
Proof.
  intros hs row task rows csv cols store.
  destruct (balanced_distribution parseWhole compareCodes csv rows compareCodes_order eq_refl)
    as (_ & _ & groups & Hgroups & Hdist & _ & _ & _ & Hwhole).
  fold cols in Hgroups, Hdist, Hwhole. fold store in Hgroups, Hdist, Hwhole.
  split.
  - exists groups. eexists. split; [exact Hgroups|].
    assert (Hg : groups = [("A-", [1%nat; 0%nat])]).
    { assert (Hc : sortGroups compareCodes store (groupEpics store) = Ok [("A-", [1%nat; 0%nat])])
        by (vm_compute; reflexivity).
      rewrite Hc in Hgroups. inversion Hgroups. reflexivity. }
    split; [rewrite Hg; reflexivity|]. split; [exact Hdist|].
    rewrite Hg. vm_compute. reflexivity.
  - assert (Hret : exists h, processMainCSV parseWhole compareCodes csv = Ok h).
    { vm_compute. eexists. reflexivity. }
    destruct Hret as [h Hh].
    destruct (Hwhole h task "A-" Hh) as (e & child & He & _ & Hc & _ & Hkey & Hpar & Hm).
    + vm_compute; reflexivity.
    + right; right; left; reflexivity.
    + exists "Task", "A-3"; repeat split; discriminate.
    + exists "A-3", ["A"%char], ["3"%char].
      split; [vm_compute; reflexivity|]. split; [reflexivity|]. split; [discriminate|].
      split; [|reflexivity]. constructor; [|constructor]. vm_compute. split; discriminate.
    + assert (Hs : exists e0, In e0 store /\ Epic.key e0 = Some "A-2").
      { vm_compute. eexists. split; [left; reflexivity | reflexivity]. }
      destruct Hs as (e0 & Hi0 & Hk0). exists e0. split; [exact Hi0|].
      exists "A-2", ["A"%char], ["2"%char]. split; [exact Hk0|].
      split; [reflexivity|]. split; [discriminate|].
      split; [|reflexivity]. constructor; [|constructor]. vm_compute. split; discriminate.
    + assert (Hcell : cell task (keyCol cols) = Some "A-3") by (vm_compute; reflexivity).
      rewrite Hcell in Hkey. exists h, e, child.
      exact (conj Hh (conj He (conj Hc (conj Hkey (conj Hpar Hm))))).
Defined.

(** C4 as stated fails twice.  The fallback does not skip the records that
    the strategies have linked: the task [A-3], linked to [A-1] by its Epic
    Link, is distributed again and lands under [A-2] too, so it is attached
    to two epics and its key occurs twice among the children; the spec's
    reading would have left [A-2] without children.  And a prefix in lower
    case is no project key: the task [x-1] shares its alphabetic prefix
    with the epic [x-9], the fallback runs, and the epic gets no child. *)
Lemma balanced_distribution_spec_counterexample :
  let hs := ["Key"; "Issue Type"; "Epic Link"] in
  let row k t l : Record_ := list_to_map [("Key", k); ("Issue Type", t); ("Epic Link", l)] in
  let task := row "A-3" "Task" "A-1" in
  let rows := [row "A-2" "Epic" ""; row "A-1" "Epic" ""; task;
               row "x-1" "Task" ""; row "x-2" "Task" ""; row "x-3" "Task" "";
               row "x-4" "Task" ""; row "x-5" "Task" ""; row "x-6" "Task" "";
               row "x-7" "Task" ""; row "x-8" "Task" ""] in
  let lower := [row "x-9" "Epic" ""; row "x-1" "Task" ""] in
  let cols := resolveColumns (Some hs) in
  let index := (pass1 parseWhole cols rows).2 in
  let store := (secondPass parseWhole cols rows).1 in
  (isLinked cols index task = true /\
   (exists h,
      processMainCSV parseWhole compareCodes {| headers := Some hs; records := Some rows |} = Ok h /\
      map (fun e => (Epic.id e,
                     map (fun c => (Child.key c, Child.matchMethod c)) (Epic.children e)))
          (epics h) =
        [(Some "A-1", [(Some "A-3", None)]);
         (Some "A-2", [(Some "A-3", Some "balanced-distribution")])] /\
      ~ NoDup (map Child.key (childIssues h))) /\
   (exists store',
      distribute_spec parseWhole compareCodes cols index rows store = Ok store' /\
      map (fun e => (Epic.id e, map Child.key (Epic.children e))) store' =
        [(Some "A-2", []); (Some "A-1", [Some "A-3"])] /\
      distribute parseWhole compareCodes cols rows store <> Ok store')) /\
  (getProjectKey_spec (Some "x-1") = Some "x-" /\
   getProjectKey_spec (Some "x-9") = Some "x-" /\
   getProjectKey (Some "x-1") = None /\
   isDistributable cols (row "x-1" "Task" "") = true /\
   fewLinked (secondPass parseWhole cols lower).2 (length lower) = true /\
   exists h,
     processMainCSV parseWhole compareCodes {| headers := Some hs; records := Some lower |} = Ok h /\
     map (fun e => (Epic.id e, map Child.key (Epic.children e))) (epics h) =
       [(Some "x-9", [])]).
Proof.
  intros hs row task rows lower cols index store. split.
  - split; [vm_compute; reflexivity|]. split.
    + eexists. split; [vm_compute; reflexivity|]. split; [reflexivity|].
      simpl. intros H. apply NoDup_cons in H. destruct H as [H _]. apply H. left.
    + eexists. split; [vm_compute; reflexivity|]. split; [reflexivity|].
      vm_compute. intros H. discriminate H.
  - split; [reflexivity|]. split; [reflexivity|]. split; [reflexivity|].
    split; [vm_compute; reflexivity|]. split; [vm_compute; reflexivity|].
    eexists. split; [vm_compute; reflexivity|]. reflexivity.
Qed.

(** ** Failures at the top level *)

#[local] Arguments arrayIncludes : simpl never.

Lemma sprintGet_sprintSet (sprints : Sprints) (k k' : string) (b : Bucket.t) :
  sprintGet (sprintSet sprints k b) k' =
  if String.eqb k k' then Some b else sprintGet sprints k'.
Proof.
  induction sprints as [|[k0 b0] sprints IH]; simpl.
  - destruct (String.eqb k k'); reflexivity.
  - destruct (String.eqb k0 k) eqn:Hk; simpl.
    + apply String.eqb_eq in Hk. subst k0. destruct (String.eqb k k'); reflexivity.
    + destruct (String.eqb k0 k') eqn:Hk'; [|exact IH].
      apply String.eqb_eq in Hk'. subst k0. rewrite String.eqb_sym, Hk. reflexivity.
Qed.

(** The aggregation loop fails exactly when some epic is in a sprint named
    like a member of [Object.prototype]. *)
Lemma metrics_loop_throws (parseFloat : string -> option Q) (l : list Merged.t) (t : Totals) :
  (forall k, arrayIncludes objectPrototypeProps k = true -> sprintGet (sprints t) k = None) ->
  (exists e, metrics_loop parseFloat t l = Throw e) <->
  Exists (fun epic => arrayIncludes objectPrototypeProps (sprintOf epic) = true) l.
Proof.
  revert t. induction l as [|epic l IH]; intros t Hinv; simpl.
  - split; [intros [e H]; discriminate | intros H; inversion H].
  - unfold metrics_step.
    destruct (arrayIncludes objectPrototypeProps (sprintOf epic)) eqn:Hproto.
    + rewrite (Hinv _ Hproto). simpl. split; [|eauto].
      intros _. apply Exists_cons_hd. exact Hproto.
    + assert (Hbucket : exists b,
        match sprintGet (sprints t) (sprintOf epic) with
        | Some b => Ok b
        | None => Ok {| Bucket.committed := 0; Bucket.completed := 0; Bucket.cycleSum := 0;
                        Bucket.cycleCount := 0; Bucket.epics := [] |}
        end = Ok b) by (destruct (sprintGet (sprints t) (sprintOf epic)); eauto).
      destruct Hbucket as [b Hb]. rewrite Hb. simpl. rewrite IH.
      * split; [intros H; apply Exists_cons_tl; exact H|].
        intros H. inversion H as [? ? Hhd | ? ? Htl]; subst; [congruence | exact Htl].
      * intros k Hk. simpl. rewrite sprintGet_sprintSet.
        destruct (String.eqb (sprintOf epic) k) eqn:Heq; [|apply Hinv; exact Hk].
        apply String.eqb_eq in Heq. subst k. congruence.
Qed.

(** The epic records either all have a key cell, or one of them lacks it. *)
Lemma keyless_epic_record (cols : Columns) (rows : list Record_) :
  Forall (fun r => isEpicType (optLower (cell r (typeCol cols))) = true ->
                   is_Some (cell r (keyCol cols))) rows \/
  exists r, In r rows /\
    isEpicType (optLower (cell r (typeCol cols))) = true /\ cell r (keyCol cols) = None.
Proof.
  induction rows as [|r rows IH].
  - left. constructor.
  - destruct IH as [IH | (r' & Hin & Hty & Hkey)].
    + destruct (isEpicType (optLower (cell r (typeCol cols)))) eqn:Hty.
      * destruct (cell r (keyCol cols)) as [k|] eqn:Hkey.
        -- left. constructor; [|exact IH]. intros _. rewrite Hkey. eauto.
        -- right. exists r. split; [left; reflexivity | split; assumption].
      * left. constructor; [|exact IH]. intros H. rewrite Hty in H. discriminate H.
    + right. exists r'. split; [right; exact Hin | split; assumption].
Qed.

(** C9 (amended).  An error raised by [processMainCSV] is always the
    re-raised failure of its top-level logic: a single error whose message
    names the stage, "Failed to process main CSV data: " followed by the
    message of the failure; it arises only where the records are missing or
    an epic record has no key cell, and every failure of the top-level logic
    is raised in that form, none is replaced by a result.
    [calculateMetrics] does not re-raise: it returns on every argument, and
    where its top-level logic fails (which happens exactly when an epic is
    in a sprint named like an inherited object member) it returns a
    substitute: [totalEpics] the number of epics, the totals and the
    at-risk count [0], the three percentages and averages ["0.0"], and no
    sprint data. *)
Theorem top_level_failures
    (parseFloat : string -> option Q) (localeCompare : string -> string -> Z) :
  let stage := "Failed to process main CSV data: " in
  let substitute (n : nat) :=
    {| overall :=
         {| Overall.totalEpics := n;
            Overall.totalCommitted := 0;
            Overall.totalCompleted := 0;
            Overall.realization := "0.0";
            Overall.avgCycleTime := "0.0";
            Overall.atRiskCount := 0;
            Overall.atRiskPercentage := "0.0" |};
       sprintData := [] |} in
  (forall csv e,
     processMainCSV parseFloat localeCompare csv = Throw e ->
     (exists inner,
        processMainCSV_body parseFloat localeCompare csv = Throw inner /\
        e = Error (stage ++ message inner)%string) /\
     (records csv = None \/
      exists rows r, records csv = Some rows /\ In r rows /\
        isEpicType (optLower (cell r (typeCol (resolveColumns (headers csv))))) = true /\
        cell r (keyCol (resolveColumns (headers csv))) = None)) /\
  (forall csv, records csv = None ->
     processMainCSV parseFloat localeCompare csv =
       Throw (Error (stage ++ "Cannot read properties of undefined (reading 'length')")%string)) /\
  (forall csv inner,
     processMainCSV_body parseFloat localeCompare csv = Throw inner ->
     processMainCSV parseFloat localeCompare csv =
       Throw (Error (stage ++ message inner)%string)) /\
  (forall epics, exists m, calculateMetrics parseFloat epics = Ok m) /\
  (forall l inner,
     calculateMetrics_body parseFloat (ArgArray l) = Throw inner ->
     calculateMetrics parseFloat (ArgArray l) = Ok (substitute (length l))) /\
  (forall l,
     Exists (fun epic => arrayIncludes objectPrototypeProps (sprintOf epic) = true) l ->
     calculateMetrics parseFloat (ArgArray l) = Ok (substitute (length l))) /\
  (forall l,
     (exists inner, calculateMetrics_body parseFloat (ArgArray l) = Throw inner) <->
     Exists (fun epic => arrayIncludes objectPrototypeProps (sprintOf epic) = true) l).
Proof.
  intros stage substitute.
  assert (Hthrows : forall l,
    (exists inner, calculateMetrics_body parseFloat (ArgArray l) = Throw inner) <->
    Exists (fun epic => arrayIncludes objectPrototypeProps (sprintOf epic) = true) l).
  { intros l. unfold calculateMetrics_body.
    rewrite <- (metrics_loop_throws parseFloat l
                  {| sprints := []; totalCommitted := 0; totalCompleted := 0;
                     totalCycle := 0; totalCount := 0; atRiskCount := 0 |});
      [|intros k _; reflexivity].
    destruct (metrics_loop parseFloat _ l) as [t|e]; simpl.
    - split; intros [e H]; discriminate.
    - split; intros _; eauto. }
  assert (Hsub : forall l inner,
    calculateMetrics_body parseFloat (ArgArray l) = Throw inner ->
    calculateMetrics parseFloat (ArgArray l) = Ok (substitute (length l))).
  { intros l inner H. unfold calculateMetrics. rewrite H. reflexivity. }
  split; [|split; [|split; [|split; [|split; [|split]]]]].
  - intros csv e He. split.
    + unfold processMainCSV, tryCatch in He.
      destruct (processMainCSV_body parseFloat localeCompare csv) as [h|inner];
        [discriminate|].
      inversion He. exists inner. split; reflexivity.
    + destruct (records csv) as [rows|] eqn:Hrows; [right | left; reflexivity].
      exists rows.
      destruct (keyless_epic_record (resolveColumns (headers csv)) rows)
        as [Hall | (r & Hin & Hty & Hkey)].
      * destruct (processMainCSV_returns parseFloat localeCompare csv rows Hrows Hall)
          as [h Hh].
        rewrite Hh in He. discriminate He.
      * exists r. split; [reflexivity|]. split; [exact Hin|]. split; assumption.
  - intros csv Hrows. unfold processMainCSV, processMainCSV_body. rewrite Hrows.
    reflexivity.
  - intros csv inner H. unfold processMainCSV. rewrite H. reflexivity.
  - intros epics. unfold calculateMetrics, tryCatch.
    destruct (calculateMetrics_body parseFloat epics); eauto.
  - exact Hsub.
  - intros l Hl. apply Hthrows in Hl. destruct Hl as [inner Hl]. exact (Hsub l inner Hl).
  - exact Hthrows.
Qed.

(** Failures of both kinds: a CSV object without records, and two epics
    without a key column, whose ids cannot be compared; and an epic whose
    sprint is called "constructor", for which [calculateMetrics] falls back
    to the substitute. *)
Lemma top_level_failures_witness :
  let row t : Record_ := list_to_map [("Issue Type", t)] in
  let keyless := {| headers := Some ["Issue Type"];
                    records := Some [row "Epic"; row "Epic"] |} in
  let epic :=
    {| Merged.epic :=
         {| Epic.id := Some "E-1"; Epic.key := Some "E-1"; Epic.issueId := None;
            Epic.name := None; Epic.status := Some "To Do"; Epic.sprint := "constructor";
            Epic.storyPoints := 0; Epic.created := None; Epic.assignee := "";
            Epic.creator := ""; Epic.component := ""; Epic.project := "";
            Epic.children := []; Epic.totalStoryPoints := 0;
            Epic.completedStoryPoints := 0 |};
       Merged.timeInStatus := "-"; Merged.cycleTime := "-";
       Merged.slaStatus := {| class := "on-track"; text := "On Track" |} |} in
  processMainCSV parseWhole compareCodes {| headers := Some ["Key"]; records := None |} =
    Throw (Error "Failed to process main CSV data: Cannot read properties of undefined (reading 'length')") /\
  processMainCSV parseWhole compareCodes keyless =
    Throw (Error "Failed to process main CSV data: Cannot read properties of undefined (reading 'localeCompare')") /\
  calculateMetrics parseWhole (ArgArray [epic; epic]) =
    Ok {| overall :=
            {| Overall.totalEpics := 2;
               Overall.totalCommitted := 0;
               Overall.totalCompleted := 0;
               Overall.realization := "0.0";
               Overall.avgCycleTime := "0.0";
               Overall.atRiskCount := 0;
               Overall.atRiskPercentage := "0.0" |};
          sprintData := [] |}.
Proof.
  intros row keyless epic.
  destruct (top_level_failures parseWhole compareCodes)
    as (_ & Hrecords & Hthrow & _ & _ & Hsubstitute & _).
  split; [|split].
  - apply (Hrecords {| headers := Some ["Key"]; records := None |}). reflexivity.
  - apply (Hthrow keyless
             (TypeError "Cannot read properties of undefined (reading 'localeCompare')")).
    vm_compute. reflexivity.
  - apply (Hsubstitute [epic; epic]). apply Exists_cons_hd. reflexivity.
Defined.

(** C9 as stated fails for [calculateMetrics]: with an epic in a sprint
    called "constructor" the aggregation throws, and the caller gets the
    substitute metrics, where the spec's reading has the error re-raised. *)
Lemma calculateMetrics_spec_counterexample :
  let epic :=
    {| Merged.epic :=
         {| Epic.id := Some "E-1"; Epic.key := Some "E-1"; Epic.issueId := None;
            Epic.name := None; Epic.status := Some "To Do"; Epic.sprint := "constructor";
            Epic.storyPoints := 0; Epic.created := None; Epic.assignee := "";
            Epic.creator := ""; Epic.component := ""; Epic.project := "";
            Epic.children := []; Epic.totalStoryPoints := 0;
            Epic.completedStoryPoints := 0 |};
       Merged.timeInStatus := "-"; Merged.cycleTime := "-";
       Merged.slaStatus := {| class := "on-track"; text := "On Track" |} |} in
  calculateMetrics_body parseWhole (ArgArray [epic]) =
    Throw (TypeError "Cannot read properties of undefined (reading 'push')") /\
  calculateMetrics parseWhole (ArgArray [epic]) =
    Ok {| overall :=
            {| Overall.totalEpics := 1;
               Overall.totalCommitted := 0;
               Overall.totalCompleted := 0;
               Overall.realization := "0.0";
               Overall.avgCycleTime := "0.0";
               Overall.atRiskCount := 0;
               Overall.atRiskPercentage := "0.0" |};
          sprintData := [] |} /\
  calculateMetrics_spec parseWhole (ArgArray [epic]) =
    Throw (Error "Failed to calculate metrics: Cannot read properties of undefined (reading 'push')") /\
  calculateMetrics parseWhole (ArgArray [epic]) <> calculateMetrics_spec parseWhole (ArgArray [epic]).
Proof. vm_compute. repeat split. intros H. discriminate H. Qed.

(** * Properties of the code around the engine *)

(** ** CSV lines *)

Lemma chars_ofChars (l : list ascii) : chars (ofChars l) = l.
Proof. apply list_ascii_of_string_of_list_ascii. Qed.


Lemma trimStart_split (s : list ascii) :
  exists pre, s = pre ++ trimStart s /\ Forall (fun c => isSpace c = true) pre.
Proof.
  induction s as [|c s (pre & Hs & Hpre)]; simpl.
  - exists []. split; [reflexivity | constructor].
  - destruct (isSpace c) eqn:Hc.
    + exists (c :: pre). split; [simpl; rewrite <- Hs; reflexivity|].
      constructor; assumption.
    + exists []. split; [reflexivity | constructor].
Qed.

Lemma trimStart_NoLead (s : list ascii) : NoLead (trimStart s).
Proof.
  induction s as [|c s IH]; simpl; [exact I|].
  destruct (isSpace c) eqn:Hc; [exact IH | simpl; exact Hc].
Qed.

Lemma trimStart_id (s : list ascii) : NoLead s -> trimStart s = s.
Proof. destruct s as [|c s]; simpl; [reflexivity|]. intros ->. reflexivity. Qed.

Lemma trimStart_Forall (P : ascii -> Prop) (s : list ascii) :
  Forall P s -> Forall P (trimStart s).
Proof.
  destruct (trimStart_split s) as (pre & Hs & _). intros H.
  rewrite Hs in H. apply Forall_app in H. apply H.
Qed.

Lemma trimChars_Forall (P : ascii -> Prop) (s : list ascii) :
  Forall P s -> Forall P (trimChars s).
Proof.
  intros H. unfold trimChars. apply Forall_rev. apply trimStart_Forall.
  apply Forall_rev. apply trimStart_Forall. exact H.
Qed.

(** A trimmed text starts and ends with a character that is not
    blank. *)
Lemma trimChars_NoLead (s : list ascii) :
  NoLead (trimChars s) /\ NoLead (rev (trimChars s)).
Proof.
  unfold trimChars. rewrite rev_involutive. split; [|apply trimStart_NoLead].
  destruct (trimStart_split (rev (trimStart s))) as (pre & Hs & _).
  assert (Ha : trimStart s = rev (trimStart (rev (trimStart s))) ++ rev pre).
  { rewrite <- (rev_involutive (trimStart s)) at 1. rewrite Hs at 1.
    rewrite rev_app_distr. reflexivity. }
  assert (Hlead := trimStart_NoLead s). rewrite Ha in Hlead.
  destruct (rev (trimStart (rev (trimStart s)))); [exact I | exact Hlead].
Qed.

Lemma trimChars_id (s : list ascii) : NoLead s -> NoLead (rev s) -> trimChars s = s.
Proof.
  intros H1 H2. unfold trimChars. rewrite (trimStart_id s H1), (trimStart_id _ H2).
  apply rev_involutive.
Qed.

Lemma trimChars_idempotent (s : list ascii) : trimChars (trimChars s) = trimChars s.
Proof. destruct (trimChars_NoLead s). apply trimChars_id; assumption. Qed.

Lemma stripQuotes_id (s : list ascii) :
  Forall (fun c => Ascii.eqb c quoteChar = false) s -> stripQuotes s = s.
Proof.
  intros H. unfold stripQuotes.
  assert (H1 : match s with
               | c :: s' => if Ascii.eqb c quoteChar then s' else s
               | [] => []
               end = s).
  { destruct H as [|c s Hc _]; [reflexivity|]. rewrite Hc. reflexivity. }
  rewrite H1. apply Forall_rev in H. destruct (rev s) as [|c r]; [reflexivity|].
  inversion H as [|? ? Hc _]; subst. rewrite Hc. reflexivity.
Qed.

(** The loop never stores a quote. *)
Lemma splitFields_no_quote (line : list ascii) (result : list (list ascii))
    (current : list ascii) (inQuotes : bool) :
  Forall (Forall (fun c => Ascii.eqb c quoteChar = false)) result ->
  Forall (fun c => Ascii.eqb c quoteChar = false) current ->
  Forall (Forall (fun c => Ascii.eqb c quoteChar = false))
         (splitFields line result current inQuotes).
Proof.
  revert result current inQuotes.
  induction line as [|c line IH]; intros result current inQuotes Hr Hc; simpl.
  - apply Forall_app. split; [exact Hr|]. constructor; [exact Hc | constructor].
  - destruct (Ascii.eqb c quoteChar) eqn:Hq; [apply IH; assumption|].
    destruct (Ascii.eqb c commaChar && negb inQuotes).
    + apply IH; [|constructor]. apply Forall_app. split; [exact Hr|].
      constructor; [exact Hc | constructor].
    + apply IH; [exact Hr|]. apply Forall_app. split; [exact Hc|].
      constructor; [exact Hq | constructor].
Qed.

(** X1.  Every field that [parseCSVLine] returns is free of double quotes
    and has no blank at either end. *)
Theorem parseCSVLine_fields_plain (line f : string) :
  In f (parseCSVLine line) -> Plain (chars f).
Proof.
  unfold parseCSVLine. intros Hin. apply in_map_iff in Hin.
  destruct Hin as (raw & <- & Hraw). rewrite chars_ofChars.
  assert (Hq : Forall (fun c => Ascii.eqb c quoteChar = false) raw).
  { assert (H := splitFields_no_quote (chars line) [] [] false
                   (Forall_nil_2 _) (Forall_nil_2 _)).
    rewrite Forall_forall in H. apply H. apply list_elem_of_In. exact Hraw. }
  assert (Ht : Forall (fun c => Ascii.eqb c quoteChar = false) (trimChars raw))
    by (apply trimChars_Forall; exact Hq).
  rewrite (stripQuotes_id _ Ht). split; [exact Ht | apply trimChars_idempotent].
Qed.

Lemma parseCSVLine_fields_plain_witness :
  Plain (chars "a b") /\
  parseCSVLine (ofChars (chars " " ++ quoteChar :: chars "a b" ++ quoteChar :: chars " , c"))
  = ["a b"; "c"].
Proof.
  split; [|reflexivity].
  apply (parseCSVLine_fields_plain
           (ofChars (chars " " ++ quoteChar :: chars "a b" ++ quoteChar :: chars " , c"))
           "a b").
  left. reflexivity.
Defined.

Lemma splitFields_run (f tail : list ascii) (result : list (list ascii))
    (current : list ascii) (inQuotes : bool) :
  Forall (fun c => Ascii.eqb c quoteChar = false) f ->
  (inQuotes = false -> Forall (fun c => Ascii.eqb c commaChar = false) f) ->
  splitFields (f ++ tail) result current inQuotes
  = splitFields tail result (current ++ f) inQuotes.
Proof.
  revert current. induction f as [|c f IH]; intros current Hq Hc; simpl.
  - rewrite app_nil_r. reflexivity.
  - inversion Hq as [|? ? Hq1 Hq2]; subst. rewrite Hq1.
    assert (Hcomma : Ascii.eqb c commaChar && negb inQuotes = false).
    { destruct inQuotes; [apply andb_false_r|].
      specialize (Hc eq_refl). inversion Hc as [|? ? Hc1 _]; subst.
      rewrite Hc1. reflexivity. }
    rewrite Hcomma, IH.
    + rewrite <- app_assoc. reflexivity.
    + exact Hq2.
    + intros E. specialize (Hc E). inversion Hc; assumption.
Qed.

Lemma splitFields_encodeField (f tail : list ascii) (result : list (list ascii))
    (current : list ascii) :
  Forall (fun c => Ascii.eqb c quoteChar = false) f ->
  splitFields (encodeField f ++ tail) result current false
  = splitFields tail result (current ++ f) false.
Proof.
  intros Hq. unfold encodeField.
  destruct (existsb (Ascii.eqb commaChar) f) eqn:Hcomma.
  - change ((quoteChar :: f ++ [quoteChar]) ++ tail)
      with (quoteChar :: (f ++ [quoteChar]) ++ tail).
    rewrite <- app_assoc. cbn [splitFields]. rewrite Ascii.eqb_refl.
    rewrite splitFields_run; [|exact Hq | discriminate].
    cbn [app splitFields]. rewrite Ascii.eqb_refl. reflexivity.
  - apply splitFields_run; [exact Hq|]. intros _.
    apply Forall_forall. intros c Hin. apply list_elem_of_In in Hin.
    destruct (Ascii.eqb c commaChar) eqn:E; [|reflexivity].
    rewrite <- Hcomma. symmetry. apply existsb_exists. exists c.
    split; [exact Hin | rewrite Ascii.eqb_sym; exact E].
Qed.

Lemma splitFields_joinFields (f : list ascii) (fields result : list (list ascii))
    (current : list ascii) :
  Forall (Forall (fun c => Ascii.eqb c quoteChar = false)) (f :: fields) ->
  splitFields (joinFields (map encodeField (f :: fields))) result current false
  = result ++ (current ++ f) :: fields.
Proof.
  revert f result current.
  induction fields as [|g fields IH]; intros f result current Hq;
    inversion Hq as [|? ? Hf Hrest]; subst.
  - cbn [map joinFields]. rewrite <- (app_nil_r (encodeField f)).
    rewrite splitFields_encodeField by exact Hf. reflexivity.
  - change (joinFields (map encodeField (f :: g :: fields)))
      with (encodeField f ++ commaChar :: joinFields (map encodeField (g :: fields))).
    rewrite splitFields_encodeField by exact Hf.
    cbn [splitFields]. change (Ascii.eqb commaChar quoteChar) with false.
    rewrite Ascii.eqb_refl. cbn [andb negb].
    rewrite IH by exact Hrest. rewrite <- app_assoc. reflexivity.
Qed.

(** X2.  Round trip.  Write a row by joining its fields with commas, a field
    that contains a comma between double quotes: [parseCSVLine] reads the
    fields back, provided no field contains a double quote or has a blank
    at either end. *)
Theorem parseCSVLine_round_trip (fields : list (list ascii)) :
  fields <> [] ->
  Forall Plain fields ->
  parseCSVLine (ofChars (joinFields (map encodeField fields))) = map ofChars fields.
Proof.
  intros Hne Hplain. destruct fields as [|f fields]; [congruence|].
  unfold parseCSVLine. rewrite chars_ofChars.
  rewrite splitFields_joinFields.
  - cbn [app]. apply map_ext_in. intros g Hg.
    rewrite Forall_forall in Hplain. apply list_elem_of_In in Hg.
    destruct (Hplain g Hg) as [Hq Ht].
    rewrite Ht, (stripQuotes_id g Hq). reflexivity.
  - eapply Forall_impl; [exact Hplain|]. intros g [Hq _]. exact Hq.
Qed.

Lemma parseCSVLine_round_trip_witness :
  parseCSVLine (ofChars (joinFields (map encodeField [chars "PROJ-1"; chars "Fix a, b"; []])))
  = ["PROJ-1"; "Fix a, b"; ""].
Proof.
  apply (parseCSVLine_round_trip [chars "PROJ-1"; chars "Fix a, b"; []]).
  - discriminate.
  - repeat constructor.
Defined.

(** ** Line ends *)

Lemma trimStart_snoc (s : list ascii) (c : ascii) :
  isSpace c = true ->
  trimStart (s ++ [c]) = match trimStart s with [] => [] | _ => trimStart s ++ [c] end.
Proof.
  intros Hc. induction s as [|d s IH]; simpl.
  - rewrite Hc. reflexivity.
  - destruct (isSpace d); [exact IH | reflexivity].
Qed.

Lemma trimChars_snoc (s : list ascii) (c : ascii) :
  isSpace c = true -> trimChars (s ++ [c]) = trimChars s.
Proof.
  intros Hc. unfold trimChars. rewrite (trimStart_snoc s c Hc).
  destruct (trimStart s) as [|d t]; [reflexivity|].
  rewrite rev_app_distr. simpl rev at 2. cbn [app trimStart]. rewrite Hc. reflexivity.
Qed.

Lemma sameLine_trimChars (a b : list ascii) : sameLine a b -> trimChars a = trimChars b.
Proof. intros [->| ->]; [reflexivity | apply trimChars_snoc; reflexivity]. Qed.

Lemma splitFields_snoc (line : list ascii) (c : ascii) (result : list (list ascii))
    (current : list ascii) (inQuotes : bool) :
  Ascii.eqb c quoteChar = false -> Ascii.eqb c commaChar = false ->
  exists init final,
    splitFields line result current inQuotes = init ++ [final] /\
    splitFields (line ++ [c]) result current inQuotes = init ++ [final ++ [c]].
Proof.
  intros Hq Hc. revert result current inQuotes.
  induction line as [|d line IH]; intros result current inQuotes; simpl.
  - rewrite Hq, Hc. simpl. exists result, current. split; reflexivity.
  - destruct (Ascii.eqb d quoteChar); [apply IH|].
    destruct (Ascii.eqb d commaChar && negb inQuotes); apply IH.
Qed.

Lemma sameLine_parseCSVLine (a b : list ascii) :
  sameLine a b -> parseCSVLine (ofChars a) = parseCSVLine (ofChars b).
Proof.
  intros [->| ->]; [reflexivity|]. unfold parseCSVLine. rewrite !chars_ofChars.
  destruct (splitFields_snoc b carriageReturn [] [] false eq_refl eq_refl)
    as (init & final & -> & ->).
  rewrite !map_app. cbn [map]. rewrite trimChars_snoc by reflexivity. reflexivity.
Qed.

Lemma splitOn_cons (sep : ascii) (s : list ascii) :
  exists l ls, splitOn sep s = l :: ls.
Proof.
  destruct s as [|c s]; simpl; [eauto|].
  destruct (Ascii.eqb c sep); [eauto|]. destruct (splitOn sep s); eauto.
Qed.

Lemma splitOn_toCRLF (s : list ascii) :
  Forall2 sameLine (splitOn lineFeed (toCRLF s)) (splitOn lineFeed s).
Proof.
  induction s as [|c s IH].
  - repeat constructor.
  - unfold toCRLF in *. cbn [flat_map splitOn].
    destruct (Ascii.eqb c lineFeed) eqn:Hc.
    + cbn [app splitOn]. change (Ascii.eqb carriageReturn lineFeed) with false.
      rewrite Ascii.eqb_refl. cbv iota. constructor; [right; reflexivity | exact IH].
    + cbn [app splitOn]. rewrite Hc.
      destruct (splitOn_cons lineFeed s) as (l & ls & E). rewrite E in *.
      inversion IH as [|a ? la ? Hhead Htail E1 E2]; subst.
      constructor; [|exact Htail].
      destruct Hhead as [->| ->]; [left | right]; reflexivity.
Qed.

Lemma Forall2_filter_same {A} (R : A -> A -> Prop) (P : A -> Prop)
    `{!forall x, Decision (P x)} (l k : list A) :
  (forall a b, R a b -> P a <-> P b) ->
  Forall2 R l k -> Forall2 R (filter P l) (filter P k).
Proof.
  intros HP. induction 1 as [|a b l k Hab _ IH]; [constructor|].
  rewrite !filter_cons. specialize (HP a b Hab).
  destruct (decide (P a)), (decide (P b)); try tauto. constructor; assumption.
Qed.

Lemma Forall2_map_same {A B} (R : A -> A -> Prop) (f : A -> B) (l k : list A) :
  (forall a b, R a b -> f a = f b) -> Forall2 R l k -> map f l = map f k.
Proof.
  intros Hf. induction 1 as [|a b l k Hab _ IH]; [reflexivity|].
  simpl. rewrite (Hf a b Hab), IH. reflexivity.
Qed.

(** X3.  Windows line ends make no difference: the text in which every line
    feed is preceded by a carriage return is parsed to the same headers and
    records, or rejected with the same error. *)
Theorem parseFile_line_ends (text : string) :
  parseFile (ofChars (toCRLF (chars text))) = parseFile text.
Proof.
  unfold parseFile. rewrite chars_ofChars.
  assert (H := Forall2_filter_same sameLine
                 (fun l => nonEmpty (ofChars (trimChars l)) = true) _ _
                 (fun a b Hab => eq_ind_r (fun t => nonEmpty (ofChars t) = true <-> _)
                                          (iff_refl _) (sameLine_trimChars a b Hab))
                 (splitOn_toCRLF (chars text))).
  destruct H as [|a b l k Hab Hrest]; [reflexivity|].
  rewrite (sameLine_parseCSVLine a b Hab).
  rewrite (Forall2_map_same sameLine _ l k
             (fun x y Hxy => f_equal (recordOf (parseCSVLine (ofChars b)))
                                     (sameLine_parseCSVLine x y Hxy)) Hrest).
  reflexivity.
Qed.

(** ** Records *)

Lemma setCell_lookup_ne (record : Record_) (header value h : string) :
  header <> h -> setCell record header value !! h = record !! h.
Proof.
  intros Hne. unfold setCell. destruct (String.eqb header "__proto__"); [reflexivity|].
  apply lookup_insert_ne. exact Hne.
Qed.

Lemma setCell_lookup (record : Record_) (h value : string) :
  h <> "__proto__" -> setCell record h value !! h = Some value.
Proof.
  intros Hne. unfold setCell. apply String.eqb_neq in Hne. rewrite Hne.
  apply lookup_insert_eq.
Qed.

Lemma setCell_proto (record : Record_) (value : string) :
  setCell record "__proto__" value = record.
Proof. reflexivity. Qed.

Lemma recordOf_snoc (headers values : list string) (header : string) :
  recordOf (headers ++ [header]) values
  = setCell (recordOf headers values) header (orElse "" (values !! length headers)).
Proof.
  unfold recordOf. rewrite imap_app, fold_left_app. cbn [imap fold_left].
  rewrite Nat.add_0_r. reflexivity.
Qed.

Lemma recordOf_keys (headers values : list string) (h : string) :
  is_Some (recordOf headers values !! h) <-> In h headers /\ h <> "__proto__".
Proof.
  induction headers as [|header headers IH] using rev_ind.
  - unfold recordOf. cbn. rewrite lookup_empty. split; [intros [? ?]; discriminate|].
    intros [[] _].
  - rewrite recordOf_snoc, in_app_iff. cbn [In].
    destruct (String.eqb_spec header h) as [->|Hne].
    + destruct (String.eqb_spec h "__proto__") as [->|Hp].
      * rewrite setCell_proto, IH. tauto.
      * rewrite setCell_lookup by exact Hp. split; [tauto | eauto].
    + rewrite setCell_lookup_ne by exact Hne. rewrite IH. tauto.
Qed.

(** X4.  The records of a parsed file have the headers as their fields:
    each record has a cell under every header, and no other cell.  The one
    exception is a column named [__proto__], which no record stores. *)
Theorem parseFile_record_fields (text : string) (csv : MainCSV) :
  parseFile text = Ok csv ->
  exists hs rs,
    headers csv = Some hs /\ records csv = Some rs /\
    Forall (fun record : Record_ =>
              forall h, is_Some (record !! h) <-> In h hs /\ h <> "__proto__") rs.
Proof.
  unfold parseFile.
  destruct (filter _ (splitOn lineFeed (chars text))) as [|first rest]; [discriminate|].
  intros [= <-]. eexists _, _. split; [reflexivity|]. split; [reflexivity|].
  apply Forall_forall. intros record Hin. apply list_elem_of_In, in_map_iff in Hin.
  destruct Hin as (line & <- & _). apply recordOf_keys.
Qed.

Lemma parseFile_record_fields_witness :
  exists hs rs,
    headers {| headers := Some ["Key"; "Status"];
               records := Some [{["Key" := "A-1"; "Status" := ""]}] |} = Some hs /\
    records {| headers := Some ["Key"; "Status"];
               records := Some [{["Key" := "A-1"; "Status" := ""]}] |} = Some rs /\
    Forall (fun record : Record_ =>
              forall h, is_Some (record !! h) <-> In h hs /\ h <> "__proto__") rs.
Proof.
  apply (parseFile_record_fields
           (ofChars (chars "Key,Status" ++ lineFeed :: chars "A-1"))).
  vm_compute. reflexivity.
Defined.

(** X5.  The cell of a record under a header other than [__proto__] is the
    field of the row at the position of the last column of that name, and
    the empty text when the row has no field there. *)
Theorem recordOf_cell (headers values : list string) (i : nat) (h : string) :
  headers !! i = Some h ->
  (forall j, (i < j)%nat -> headers !! j <> Some h) ->
  h <> "__proto__" ->
  recordOf headers values !! h = Some (orElse "" (values !! i)).
Proof.
  revert i. induction headers as [|header headers IH] using rev_ind; intros i Hi Hlast Hp.
  - discriminate.
  - rewrite recordOf_snoc.
    destruct (decide (i < length headers)%nat) as [Hlt|Hge].
    + rewrite lookup_app_l in Hi by exact Hlt.
      assert (Hne : header <> h).
      { intros ->. apply (Hlast (length headers) Hlt).
        rewrite lookup_app_r by lia. rewrite Nat.sub_diag. reflexivity. }
      rewrite setCell_lookup_ne by exact Hne. apply IH; [exact Hi | | exact Hp].
      intros j Hj Hjh. apply (Hlast j Hj).
      rewrite lookup_app_l; [exact Hjh|]. apply lookup_lt_is_Some. eauto.
    + rewrite lookup_app_r in Hi by lia.
      destruct (i - length headers)%nat as [|n] eqn:En; [|destruct n; discriminate].
      injection Hi as ->. assert (i = length headers) as -> by lia.
      apply setCell_lookup. exact Hp.
Qed.

Lemma recordOf_cell_witness :
  recordOf ["Key"; "Sprint"; "Sprint"] ["A-1"; "S1"] !! "Sprint" = Some "" /\
  recordOf ["Key"; "Sprint"; "Sprint"] ["A-1"; "S1"] !! "Key" = Some "A-1".
Proof.
  split.
  - apply (recordOf_cell ["Key"; "Sprint"; "Sprint"] ["A-1"; "S1"] 2 "Sprint").
    + reflexivity.
    + intros [|[|[|j]]] Hj; try lia; discriminate.
    + discriminate.
  - apply (recordOf_cell ["Key"; "Sprint"; "Sprint"] ["A-1"; "S1"] 0 "Key").
    + reflexivity.
    + intros [|[|[|j]]] Hj; try lia; discriminate.
    + discriminate.
Defined.

Lemma trimStart_nil (s : list ascii) :
  trimStart s = [] <-> Forall (fun c => isSpace c = true) s.
Proof.
  induction s as [|c s IH]; simpl.
  - split; [constructor | reflexivity].
  - destruct (isSpace c) eqn:Hc.
    + rewrite IH. split; [constructor; assumption | inversion 1; assumption].
    + split; [discriminate | inversion 1; congruence].
Qed.

Lemma trimChars_nil (s : list ascii) :
  trimChars s = [] <-> Forall (fun c => isSpace c = true) s.
Proof.
  unfold trimChars. split.
  - intros H. apply (f_equal (@rev ascii)) in H. rewrite rev_involutive in H.
    simpl in H. apply trimStart_nil in H. apply Forall_rev in H.
    rewrite rev_involutive in H.
    destruct (trimStart_split s) as (pre & Hs & Hpre). rewrite Hs.
    apply Forall_app. split; assumption.
  - intros H. apply trimStart_nil in H. rewrite H. reflexivity.
Qed.

Lemma nonEmpty_ofChars (l : list ascii) : nonEmpty (ofChars l) = true <-> l <> [].
Proof. destruct l; simpl; split; congruence. Qed.

Lemma splitOn_chars (sep : ascii) (s : list ascii) (c : ascii) :
  (exists l, In l (splitOn sep s) /\ In c l) <-> In c s /\ c <> sep.
Proof.
  induction s as [|d s IH]; simpl.
  - split; [intros (l & [<-|[]] & []) | intros [[] _]].
  - destruct (Ascii.eqb_spec d sep) as [->|Hd].
    + split.
      * intros (l & [<-|Hl] & Hc); [destruct Hc|].
        destruct (proj1 IH (ex_intro _ l (conj Hl Hc))). tauto.
      * intros [[->|Hc] Hne]; [congruence|].
        destruct (proj2 IH (conj Hc Hne)) as (l & Hl & Hcl). exists l. simpl. tauto.
    + destruct (splitOn_cons sep s) as (l0 & ls & E). rewrite E in *. split.
      * intros (l & [<-|Hl] & Hc).
        -- destruct Hc as [->|Hc]; [tauto|].
           destruct (proj1 IH (ex_intro _ l0 (conj (or_introl eq_refl) Hc))). tauto.
        -- destruct (proj1 IH (ex_intro _ l (conj (or_intror Hl) Hc))). tauto.
      * intros [[->|Hc] Hne].
        -- exists (c :: l0). simpl. tauto.
        -- destruct (proj2 IH (conj Hc Hne)) as (l & [<-|Hl] & Hcl).
           ++ exists (d :: l0). simpl. tauto.
           ++ exists l. simpl. tauto.
Qed.

(** X6.  A file is parsed exactly when its text holds a character that is
    not blank; a text of blanks and line ends only is rejected. *)
Theorem parseFile_accepts (text : string) :
  (exists csv, parseFile text = Ok csv) <->
  (exists c, In c (chars text) /\ isSpace c = false).
Proof.
  unfold parseFile.
  set (keep := fun l : list ascii => nonEmpty (ofChars (trimChars l)) = true).
  assert (Hkeep : forall l, keep l <-> exists c, In c l /\ isSpace c = false).
  { intros l. unfold keep. rewrite nonEmpty_ofChars, trimChars_nil.
    rewrite <- Exists_Forall_neg by (intros c; destruct (isSpace c); [left | right]; congruence).
    rewrite Exists_exists. split; intros (c & Hin & Hc); exists c.
    - apply list_elem_of_In in Hin. destruct (isSpace c); [congruence | tauto].
    - rewrite list_elem_of_In. split; [tauto | congruence]. }
  split.
  - intros [csv Hcsv].
    destruct (filter keep (splitOn lineFeed (chars text))) as [|first rest] eqn:E;
      [discriminate|].
    assert (Hin : first ∈ filter keep (splitOn lineFeed (chars text)))
      by (rewrite E; left).
    apply list_elem_of_filter in Hin. destruct Hin as [Hk Hin].
    apply Hkeep in Hk. destruct Hk as (c & Hc & Hsp). exists c. split; [|exact Hsp].
    apply list_elem_of_In in Hin.
    apply (splitOn_chars lineFeed (chars text) c). eauto.
  - intros (c & Hin & Hsp).
    assert (Hne : c <> lineFeed) by (intros ->; discriminate).
    destruct (proj2 (splitOn_chars lineFeed (chars text) c) (conj Hin Hne))
      as (l & Hl & Hcl).
    assert (Hf : l ∈ filter keep (splitOn lineFeed (chars text))).
    { apply list_elem_of_filter. split; [|apply list_elem_of_In; exact Hl].
      apply Hkeep. eauto. }
    destruct (filter keep (splitOn lineFeed (chars text))) as [|first rest].
    + inversion Hf.
    + eauto.
Qed.

(** ** Column resolver *)

Lemma isPrefix_refl (s : list ascii) : isPrefix s s = true.
Proof. induction s as [|c s IH]; simpl; [reflexivity|]. rewrite Ascii.eqb_refl. exact IH. Qed.

Lemma includes_refl (s : string) : includes s s = true.
Proof.
  unfold includes. destruct (chars s) as [|c l] eqn:E; simpl; [reflexivity|].
  rewrite Ascii.eqb_refl, isPrefix_refl. reflexivity.
Qed.

Lemma firstHeader_Some (test : string -> bool) (headers : list string) (h : string) :
  firstHeader test headers = Some h -> In h headers /\ test (normalizeName h) = true.
Proof.
  induction headers as [|x headers IH]; simpl; [discriminate|].
  destruct (test (normalizeName x)) eqn:E.
  - intros [= <-]. split; [left; reflexivity | exact E].
  - intros H. destruct (IH H). split; [right|]; assumption.
Qed.

Lemma firstHeader_None (test : string -> bool) (headers : list string) :
  firstHeader test headers = None <->
  forall h, In h headers -> test (normalizeName h) = false.
Proof.
  induction headers as [|x headers IH]; simpl.
  - split; [intros _ h [] | reflexivity].
  - destruct (test (normalizeName x)) eqn:E.
    + split; [discriminate|]. intros H. rewrite (H x) in E by (left; reflexivity).
      discriminate.
    + rewrite IH. split.
      * intros H h [<-|Hin]; [exact E | apply H; exact Hin].
      * intros H h Hin. apply H. right. exact Hin.
Qed.

(** X7.  A column that [findColumn] returns is one of the headers, and its
    name contains one of the candidate names, both taken in lower case with
    blanks and underscores removed. *)
Theorem findColumn_found (headers : option (list string)) (possibleNames : list string)
    (h : string) :
  findColumn headers possibleNames = Some h ->
  exists hs name,
    headers = Some hs /\ In h hs /\ In name possibleNames /\
    includes (normalizeName h) (normalizeName name) = true.
Proof.
  destruct headers as [hs|]; [|discriminate]. simpl. intros H.
  exists hs. induction possibleNames as [|name rest IH]; simpl in H; [discriminate|].
  destruct (firstHeader (fun n => String.eqb n (normalizeName name)) hs) as [x|] eqn:Eexact.
  - injection H as ->. apply firstHeader_Some in Eexact. destruct Eexact as [Hin Heq].
    apply String.eqb_eq in Heq. exists name.
    rewrite Heq, includes_refl. simpl. tauto.
  - destruct (firstHeader (fun n => includes n (normalizeName name)) hs) as [x|] eqn:Epart.
    + injection H as ->. apply firstHeader_Some in Epart. exists name. simpl. tauto.
    + destruct (IH H) as (name' & ? & ? & ? & ?). exists name'. simpl. tauto.
Qed.

Lemma findColumn_found_witness :
  exists hs name,
    Some ["Summary"; "Issue_Key"; "Status"] = Some hs /\ In "Issue_Key" hs /\
    In name ["Key"; "Issue key"] /\
    includes (normalizeName "Issue_Key") (normalizeName name) = true.
Proof.
  apply (findColumn_found (Some ["Summary"; "Issue_Key"; "Status"]) ["Key"; "Issue key"]).
  reflexivity.
Defined.

(** X8.  [findColumn] finds no column exactly when no header contains any
    of the candidate names. *)
Theorem findColumn_none (headers possibleNames : list string) :
  findColumn (Some headers) possibleNames = None <->
  forall h name, In h headers -> In name possibleNames ->
                 includes (normalizeName h) (normalizeName name) = false.
Proof.
  simpl. induction possibleNames as [|name rest IH]; simpl.
  - split; [intros _ h name _ [] | reflexivity].
  - destruct (firstHeader (fun n => String.eqb n (normalizeName name)) headers)
      as [x|] eqn:Eexact.
    + split; [discriminate|]. intros H. apply firstHeader_Some in Eexact.
      destruct Eexact as [Hin Heq]. apply String.eqb_eq in Heq.
      specialize (H x name Hin (or_introl eq_refl)).
      rewrite Heq, includes_refl in H. discriminate.
    + destruct (firstHeader (fun n => includes n (normalizeName name)) headers)
        as [x|] eqn:Epart.
      * split; [discriminate|]. intros H. apply firstHeader_Some in Epart.
        destruct Epart as [Hin Hinc].
        rewrite (H x name Hin (or_introl eq_refl)) in Hinc. discriminate.
      * rewrite IH. split.
        -- intros H h n Hh [<-|Hn]; [|apply H; assumption].
           apply (proj1 (firstHeader_None _ _) Epart). exact Hh.
        -- intros H h n Hh Hn. apply H; [exact Hh | right; exact Hn].
Qed.

(** X9.  The candidate names are tried in order: a longer list of
    candidates gives the column of its first part when there is one, and
    the column of the rest otherwise. *)
Theorem findColumn_app (headers : option (list string)) (names1 names2 : list string) :
  findColumn headers (names1 ++ names2)
  = match findColumn headers names1 with
    | Some h => Some h
    | None => findColumn headers names2
    end.
Proof.
  destruct headers as [hs|]; [|reflexivity]. simpl.
  induction names1 as [|name rest IH]; simpl; [reflexivity|].
  destruct (firstHeader (fun n => String.eqb n (normalizeName name)) hs); [reflexivity|].
  destruct (firstHeader (fun n => includes n (normalizeName name)) hs); [reflexivity|].
  exact IH.
Qed.

(** X10.  Upper and lower case, blanks and underscores in the candidate
    names make no difference to the column found. *)
Theorem findColumn_names_normalized (headers : option (list string))
    (names names' : list string) :
  map normalizeName names = map normalizeName names' ->
  findColumn headers names = findColumn headers names'.
Proof.
  destruct headers as [hs|]; [|reflexivity]. simpl.
  revert names'. induction names as [|name rest IH]; intros [|name' rest'] E;
    try discriminate; [reflexivity|].
  simpl in E. injection E as E1 E2. simpl. rewrite E1, (IH rest' E2). reflexivity.
Qed.

Lemma findColumn_names_normalized_witness :
  findColumn (Some ["Summary"; "Issue Key"]) ["Issue key"; "ID"]
  = findColumn (Some ["Summary"; "Issue Key"]) ["ISSUE_KEY"; "i d"].
Proof.
  apply (findColumn_names_normalized (Some ["Summary"; "Issue Key"])
           ["Issue key"; "ID"] ["ISSUE_KEY"; "i d"]).
  reflexivity.
Defined.

(** ** Own properties *)

Section PropertiesFacts.

Context {V : Type}.
Implicit Types (o : Properties V) (k : string) (v : V).

Lemma hasProperty_getProperty o k : hasProperty o k = true <-> is_Some (getProperty o k).
Proof.
  unfold hasProperty. induction o as [|[k' v'] o IH]; simpl.
  - split; [discriminate | intros [? ?]; discriminate].
  - rewrite (String.eqb_sym k k'). destruct (String.eqb k' k); simpl; [|exact IH].
    split; eauto.
Qed.

Lemma hasProperty_In o k : hasProperty o k = true <-> In k o.*1.
Proof.
  unfold hasProperty. rewrite existsb_exists. split.
  - intros (x & Hin & Heq). apply String.eqb_eq in Heq. subst. exact Hin.
  - intros Hin. exists k. split; [exact Hin | apply String.eqb_refl].
Qed.

Lemma getProperty_replaceProperty o k v k' :
  hasProperty o k = true ->
  getProperty (replaceProperty o k v) k' = if String.eqb k k' then Some v else getProperty o k'.
Proof.
  unfold hasProperty. induction o as [|[x w] o IH]; simpl; [discriminate|].
  rewrite (String.eqb_sym k x). destruct (String.eqb_spec x k) as [->|Hxk]; simpl.
  - intros _. destruct (String.eqb k k'); reflexivity.
  - intros H. rewrite (IH H). destruct (String.eqb_spec x k') as [->|Hxk'].
    + apply String.eqb_neq in Hxk. rewrite String.eqb_sym, Hxk. reflexivity.
    + reflexivity.
Qed.

Lemma getProperty_insertIndex o k n v k' :
  hasProperty o k = false ->
  getProperty (insertIndex o k n v) k' = if String.eqb k k' then Some v else getProperty o k'.
Proof.
  unfold hasProperty. induction o as [|[x w] o IH]; simpl; [reflexivity|].
  destruct (String.eqb_spec k x) as [->|Hkx]; simpl; [discriminate|]. intros H.
  destruct (arrayIndex x) as [n'|]; [|reflexivity].
  destruct (n' <? n)%N; [|reflexivity]. simpl. rewrite (IH H).
  destruct (String.eqb_spec x k') as [->|Hxk']; [|reflexivity].
  apply String.eqb_neq in Hkx. rewrite Hkx. reflexivity.
Qed.

Lemma getProperty_app o1 o2 k :
  getProperty (o1 ++ o2) k
  = match getProperty o1 k with Some v => Some v | None => getProperty o2 k end.
Proof.
  induction o1 as [|[x w] o1 IH]; simpl; [reflexivity|].
  destruct (String.eqb x k); [reflexivity | exact IH].
Qed.

Lemma getProperty_setProperty o k v k' :
  k <> "__proto__" ->
  getProperty (setProperty o k v) k' = if String.eqb k k' then Some v else getProperty o k'.
Proof.
  intros Hp. unfold setProperty. apply String.eqb_neq in Hp. rewrite Hp.
  destruct (hasProperty o k) eqn:Hhas.
  - apply getProperty_replaceProperty. exact Hhas.
  - destruct (arrayIndex k) as [n|]; [apply getProperty_insertIndex; exact Hhas|].
    rewrite getProperty_app. simpl.
    destruct (String.eqb_spec k k') as [<-|Hkk'].
    + destruct (getProperty o k) eqn:E; [|reflexivity].
      assert (Hs : hasProperty o k = true) by (apply hasProperty_getProperty; eauto).
      congruence.
    + destruct (getProperty o k'); reflexivity.
Qed.

Lemma replaceProperty_keys o k v : (replaceProperty o k v).*1 = o.*1.
Proof.
  induction o as [|[x w] o IH]; simpl; [reflexivity|].
  destruct (String.eqb x k); simpl; [reflexivity|]. f_equal. exact IH.
Qed.

Lemma insertIndex_keys o k n v : Permutation (insertIndex o k n v).*1 (k :: o.*1).
Proof.
  induction o as [|[x w] o IH]; simpl; [reflexivity|].
  destruct (arrayIndex x) as [n'|]; [|reflexivity].
  destruct (n' <? n)%N; [|reflexivity]. rewrite fmap_cons, IH. apply perm_swap.
Qed.

Lemma setProperty_NoDup o k v : NoDup o.*1 -> NoDup (setProperty o k v).*1.
Proof.
  intros Hnd. unfold setProperty. destruct (String.eqb k "__proto__"); [exact Hnd|].
  destruct (hasProperty o k) eqn:Hhas.
  - rewrite replaceProperty_keys. exact Hnd.
  - assert (Hnew : NoDup (k :: o.*1)).
    { constructor; [|exact Hnd]. intros Hin. apply list_elem_of_In, hasProperty_In in Hin.
      congruence. }
    destruct (arrayIndex k) as [n|].
    + rewrite insertIndex_keys. exact Hnew.
    + rewrite fmap_app. simpl. apply NoDup_app. split; [exact Hnd|]. split.
      * intros x Hx Hk. apply list_elem_of_singleton in Hk. subst.
        apply NoDup_cons in Hnew. tauto.
      * apply NoDup_singleton.
Qed.

End PropertiesFacts.

(** ** Time CSV *)

Lemma timeRow_snoc (headers : list string) (header keyCol : string) (record : Record_) :
  timeRow (headers ++ [header]) keyCol record
  = if String.eqb header keyCol then timeRow headers keyCol record
    else setProperty (timeRow headers keyCol record) header (record !! header).
Proof. unfold timeRow. rewrite fold_left_app. reflexivity. Qed.

Lemma getProperty_timeRow (headers : list string) (keyCol : string) (record : Record_)
    (h : string) (v : option string) :
  getProperty (timeRow headers keyCol record) h = Some v <->
  In h headers /\ h <> keyCol /\ h <> "__proto__" /\ v = record !! h.
Proof.
  induction headers as [|header headers IH] using rev_ind.
  - simpl. split; [discriminate | intros [[] _]].
  - rewrite timeRow_snoc, in_app_iff. cbn [In].
    destruct (String.eqb_spec header keyCol) as [->|Hk].
    + rewrite IH. split; [tauto|]. intros [[Hin|[<-|[]]] ?]; tauto.
    + destruct (String.eqb_spec header "__proto__") as [->|Hp].
      * unfold setProperty. simpl. rewrite IH. split; [tauto|].
        intros [[Hin|[<-|[]]] ?]; tauto.
      * rewrite getProperty_setProperty by exact Hp.
        destruct (String.eqb_spec header h) as [->|Hh].
        -- split; [intros [= <-]; tauto | intros (_ & _ & _ & ->); reflexivity].
        -- rewrite IH. split; [tauto|]. intros [[Hin|[<-|[]]] ?]; tauto.
Qed.

(** X11.  The time data of a row has one cell for each header of the time
    CSV other than the key column (and other than [__proto__]), holding
    what the row has under that header, and no other cell; no header
    appears twice in it, also when the time CSV repeats a column. *)
Theorem timeRow_cells (headers : list string) (keyCol : string) (record : Record_) :
  NoDup (timeRow headers keyCol record).*1 /\
  forall h v,
    getProperty (timeRow headers keyCol record) h = Some v <->
    In h headers /\ h <> keyCol /\ h <> "__proto__" /\ v = record !! h.
Proof.
  split; [|intros h v; apply getProperty_timeRow].
  induction headers as [|header headers IH] using rev_ind.
  - apply NoDup_nil_2.
  - rewrite timeRow_snoc. destruct (String.eqb header keyCol); [exact IH|].
    apply setProperty_NoDup. exact IH.
Qed.

Lemma nonEmpty_true (s : string) : nonEmpty s = true <-> s <> "".
Proof. destruct s; simpl; split; congruence. Qed.

Lemma key_column_header (hs : list string) (keyCol : string) :
  findColumn (Some hs) ["Key"; "Issue key"] = Some keyCol ->
  In keyCol hs /\ keyCol <> "" /\ keyCol <> "__proto__".
Proof.
  simpl. intros H.
  assert (Hcases : exists test,
             firstHeader test hs = Some keyCol /\ test "" = false /\ test "proto" = false).
  { repeat match type of H with
           | match firstHeader ?t hs with _ => _ end = _ =>
               let E := fresh "E" in
               destruct (firstHeader t hs) eqn:E;
               [injection H as ->; exists t; split; [exact E | split; reflexivity] |]
           end.
    discriminate. }
  destruct Hcases as (test & Hfirst & Hempty & Hproto). apply firstHeader_Some in Hfirst.
  destruct Hfirst as [Hin Ht]. split; [exact Hin|].
  split; intros ->; [change (normalizeName "") with "" in Ht
                    | change (normalizeName "__proto__") with "proto" in Ht]; congruence.
Qed.

Lemma key_column_nonEmpty (hs : list string) (keyCol : string) :
  findColumn (Some hs) ["Key"; "Issue key"] = Some keyCol -> nonEmpty keyCol = true.
Proof. intros H. apply nonEmpty_true. apply (key_column_header hs keyCol H). Qed.

Lemma addTimeRow_other (hs : list string) (keyCol : string) (m : gmap string TimeRow)
    (record : Record_) (id : string) :
  record !! keyCol <> Some id -> addTimeRow hs keyCol m record !! id = m !! id.
Proof.
  intros Hne. unfold addTimeRow. destruct (record !! keyCol) as [k|]; [|reflexivity].
  destruct (nonEmpty k); [|reflexivity]. apply lookup_insert_ne. congruence.
Qed.

Lemma fold_addTimeRow_other (hs : list string) (keyCol : string) (rs : list Record_)
    (m : gmap string TimeRow) (id : string) :
  Forall (fun r : Record_ => r !! keyCol <> Some id) rs ->
  fold_left (addTimeRow hs keyCol) rs m !! id = m !! id.
Proof.
  intros H. revert m. induction H as [|r rs Hr _ IH]; intros m; [reflexivity|].
  simpl. rewrite IH. apply addTimeRow_other. exact Hr.
Qed.

(** X12.  The time map holds, under an epic key that is not empty, the
    time data of the last row of the time CSV that has this key. *)
Theorem processTimeCSV_last_row (data : MainCSV) (hs : list string)
    (before after : list Record_) (record : Record_) (keyCol id : string) :
  headers data = Some hs ->
  records data = Some (before ++ record :: after) ->
  findColumn (Some hs) ["Key"; "Issue key"] = Some keyCol ->
  record !! keyCol = Some id ->
  id <> "" ->
  Forall (fun r : Record_ => r !! keyCol <> Some id) after ->
  processTimeCSV data !! id = Some (timeRow hs keyCol record).
Proof.
  intros Hh Hr Hkey Hid Hne Hafter. unfold processTimeCSV.
  rewrite Hh, Hr, Hkey, (key_column_nonEmpty hs keyCol Hkey).
  rewrite fold_left_app. cbn [fold_left].
  rewrite fold_addTimeRow_other by exact Hafter.
  unfold addTimeRow. rewrite Hid. apply nonEmpty_true in Hne. rewrite Hne.
  apply lookup_insert_eq.
Qed.

Lemma processTimeCSV_last_row_witness :
  processTimeCSV
    {| headers := Some ["Issue key"; "In Progress"];
       records := Some [{["Issue key" := "E-1"; "In Progress" := "1d"]};
                        {["Issue key" := "E-1"; "In Progress" := "2d"]};
                        {["Issue key" := "E-2"; "In Progress" := "3d"]}] |} !! "E-1"
  = Some (timeRow ["Issue key"; "In Progress"] "Issue key"
                  {["Issue key" := "E-1"; "In Progress" := "2d"]}) /\
  timeRow ["Issue key"; "In Progress"] "Issue key"
          {["Issue key" := "E-1"; "In Progress" := "2d"]}
  = [("In Progress", Some "2d")].
Proof.
  split; [|vm_compute; reflexivity].
  apply (processTimeCSV_last_row
           {| headers := Some ["Issue key"; "In Progress"];
              records := Some [{["Issue key" := "E-1"; "In Progress" := "1d"]};
                               {["Issue key" := "E-1"; "In Progress" := "2d"]};
                               {["Issue key" := "E-2"; "In Progress" := "3d"]}] |}
           ["Issue key"; "In Progress"]
           [{["Issue key" := "E-1"; "In Progress" := "1d"]}]
           [{["Issue key" := "E-2"; "In Progress" := "3d"]}]
           {["Issue key" := "E-1"; "In Progress" := "2d"]}
           "Issue key" "E-1").
  - reflexivity.
  - reflexivity.
  - reflexivity.
  - vm_compute. reflexivity.
  - discriminate.
  - repeat constructor. vm_compute. discriminate.
Defined.

(** X13.  The keys of the time map are the keys of the rows of the time
    CSV, the empty one left out; the map is empty when the headers, the
    records or a key column are missing. *)
Theorem processTimeCSV_keys (data : MainCSV) (id : string) :
  is_Some (processTimeCSV data !! id) <->
  id <> "" /\
  exists hs rs keyCol record,
    headers data = Some hs /\ records data = Some rs /\
    findColumn (Some hs) ["Key"; "Issue key"] = Some keyCol /\
    In record rs /\ record !! keyCol = Some id.
Proof.
  unfold processTimeCSV.
  destruct (headers data) as [hs|];
    [|rewrite lookup_empty; split;
      [intros [? ?]; discriminate | intros (_ & ? & ? & ? & ? & ? & _); discriminate]].
  destruct (records data) as [rs|];
    [|rewrite lookup_empty; split;
      [intros [? ?]; discriminate | intros (_ & ? & ? & ? & ? & _ & ? & _); discriminate]].
  destruct (findColumn (Some hs) ["Key"; "Issue key"]) as [keyCol|] eqn:Hkey;
    [|rewrite lookup_empty; split;
      [intros [? ?]; discriminate
      | intros (_ & ? & ? & ? & ? & [= <-] & _ & ? & _); congruence]].
  rewrite (key_column_nonEmpty hs keyCol Hkey).
  assert (Hfold : forall m,
             is_Some (fold_left (addTimeRow hs keyCol) rs m !! id) <->
             is_Some (m !! id) \/
             (id <> "" /\ exists record, In record rs /\ record !! keyCol = Some id)).
  { induction rs as [|r rs IH] using rev_ind; intros m.
    - simpl. split; [tauto | intros [H|(_ & ? & [] & _)]; exact H].
    - rewrite fold_left_app. cbn [fold_left]. unfold addTimeRow at 1.
      destruct (r !! keyCol) as [k|] eqn:Hk.
      + destruct (nonEmpty k) eqn:Hne.
        * destruct (String.eqb_spec k id) as [->|Hkid].
          -- rewrite lookup_insert_eq. split; [|eauto]. intros _. right.
             split; [apply nonEmpty_true; exact Hne|]. exists r.
             rewrite in_app_iff. simpl. tauto.
          -- rewrite lookup_insert_ne by exact Hkid. rewrite IH.
             split; (intros [H|(Hid & record & Hin & Hrec)]; [left; exact H | right]);
               (split; [exact Hid|]); exists record; split; try exact Hrec.
             ++ rewrite in_app_iff. tauto.
             ++ apply in_app_iff in Hin. destruct Hin as [Hin|[<-|[]]]; [exact Hin|].
                congruence.
        * rewrite IH.
          split; (intros [H|(Hid & record & Hin & Hrec)]; [left; exact H | right]);
            (split; [exact Hid|]); exists record; split; try exact Hrec.
          -- rewrite in_app_iff. tauto.
          -- apply in_app_iff in Hin. destruct Hin as [Hin|[<-|[]]]; [exact Hin|].
             rewrite Hk in Hrec. injection Hrec as ->.
             apply nonEmpty_true in Hid. congruence.
      + rewrite IH.
        split; (intros [H|(Hid & record & Hin & Hrec)]; [left; exact H | right]);
          (split; [exact Hid|]); exists record; split; try exact Hrec.
        * rewrite in_app_iff. tauto.
        * apply in_app_iff in Hin. destruct Hin as [Hin|[<-|[]]]; [exact Hin|].
          congruence. }
  rewrite Hfold, lookup_empty. split.
  - intros [[? ?]|(Hid & record & Hin & Hrec)]; [discriminate|].
    split; [exact Hid|]. exists hs, rs, keyCol, record. tauto.
  - intros (Hid & hs' & rs' & keyCol' & record & [= <-] & [= <-] & Hk & Hin & Hrec).
    right. split; [exact Hid|]. exists record. split; [exact Hin|]. congruence.
Qed.

(** ** The time CSV in the merge *)

Lemma lookup_map {A B} (f : A -> B) (l : list A) (i : nat) :
  map f l !! i = f <$> l !! i.
Proof.
  revert i. induction l as [|x l IH]; intros [|i]; simpl; try reflexivity. apply IH.
Qed.



Lemma timeDataOf_timeMapOf (timeMap : gmap string TimeRow) (id : option string) :
  timeDataOf (timeMapOf timeMap) id
  = Ok (default [] (timeText <$> (id ≫= (timeMap !!.)))).
Proof.
  unfold timeDataOf, timeMapOf. destruct id as [k|]; simpl; [|reflexivity].
  rewrite lookup_fmap. reflexivity.
Qed.

(** X14.  An epic that has no row in the time CSV is merged without time
    information: no time in status, no cycle time, and the SLA status of
    an epic that has spent no time in its status. *)
Theorem merge_without_time_row (slaConfig : option (gmap string Z)) (data : MainCSV)
    (epics : list Epic.t) (i : nat) (epic : Epic.t) :
  epics !! i = Some epic ->
  (forall id, Epic.id epic = Some id -> processTimeCSV data !! id = None) ->
  exists merged,
    mergeEpicData slaConfig (ArgArray epics) (timeMapOf (processTimeCSV data)) = Ok merged /\
    merged !! i = Some {| Merged.epic := epic;
                          Merged.timeInStatus := "-";
                          Merged.cycleTime := "-";
                          Merged.slaStatus := slaOfNoTime slaConfig (Epic.status epic) |}.
Proof.
  intros Hi Hrow. rewrite mergeEpicData_array. eexists. split; [reflexivity|].
  rewrite lookup_map, Hi. cbn [fmap option_fmap option_map]. f_equal.
  unfold mergedOrDefault. change (effectiveTimeMap (timeMapOf ?m)) with (timeMapOf m).
  assert (Hbody : mergeEpic_body slaConfig (timeMapOf (processTimeCSV data)) epic
                  = mergeEpic_body slaConfig (TimeMapOf ∅) epic).
  { unfold mergeEpic_body. rewrite timeDataOf_timeMapOf. unfold timeDataOf.
    assert (E : Epic.id epic ≫= (processTimeCSV data !!.) = None).
    { destruct (Epic.id epic) as [id|]; [|reflexivity]. simpl. apply Hrow. reflexivity. }
    rewrite E.
    assert (E0 : Epic.id epic ≫= ((∅ : gmap string TimeData) !!.) = None).
    { destruct (Epic.id epic) as [id|]; [|reflexivity]. simpl. apply lookup_empty. }
    rewrite E0. reflexivity. }
  rewrite Hbody, mergeEpic_body_no_time. reflexivity.
Qed.

Lemma merge_without_time_row_witness :
  exists merged,
    mergeEpicData None
      (ArgArray [newEpic parseWhole (resolveColumns (Some ["Key"; "Status"]))
                         {["Key" := "E-9"; "Status" := "To Do"]}])
      (timeMapOf (processTimeCSV
                    {| headers := Some ["Key"; "To Do"];
                       records := Some [{["Key" := "E-1"; "To Do" := "2d"]}] |}))
    = Ok merged /\
    merged !! 0%nat
    = Some {| Merged.epic := newEpic parseWhole (resolveColumns (Some ["Key"; "Status"]))
                                     {["Key" := "E-9"; "Status" := "To Do"]};
              Merged.timeInStatus := "-";
              Merged.cycleTime := "-";
              Merged.slaStatus :=
                slaOfNoTime None
                  (Epic.status (newEpic parseWhole (resolveColumns (Some ["Key"; "Status"]))
                                        {["Key" := "E-9"; "Status" := "To Do"]})) |}.
Proof.
  apply (merge_without_time_row None
           {| headers := Some ["Key"; "To Do"];
              records := Some [{["Key" := "E-1"; "To Do" := "2d"]}] |}
           [newEpic parseWhole (resolveColumns (Some ["Key"; "Status"]))
                    {["Key" := "E-9"; "Status" := "To Do"]}] 0).
  - reflexivity.
  - intros id. vm_compute. intros [= <-]. reflexivity.
Defined.




(** ** Validation *)

Lemma isPrefix_app (p s : list ascii) : isPrefix p s = true <-> exists b, s = p ++ b.
Proof.
  revert s. induction p as [|c p IH]; intros s; simpl.
  - split; [eauto | reflexivity].
  - destruct s as [|d s]; [split; [discriminate | intros [b H]; discriminate]|].
    destruct (Ascii.eqb_spec c d) as [->|Hcd].
    + rewrite IH. split; intros [b H]; exists b; congruence.
    + split; [discriminate | intros [b H]; congruence].
Qed.

Lemma includesChars_app (s p : list ascii) :
  includesChars s p = true <-> exists a b, s = a ++ p ++ b.
Proof.
  induction s as [|c s IH]; simpl.
  - rewrite orb_false_r, isPrefix_app. split.
    + intros [b H]. exists [], b. exact H.
    + intros (a & b & H). destruct a; [eauto | discriminate].
  - rewrite orb_true_iff, IH, (isPrefix_app p (c :: s)). split.
    + intros [[b H]|(a & b & H)]; [exists [], b; exact H|].
      exists (c :: a), b. simpl. congruence.
    + intros (a & b & H). destruct a as [|d a]; [left; eauto|].
      right. exists a, b. simpl in H. congruence.
Qed.

Lemma includes_removeAll (cls : ascii -> bool) (s p : string) :
  includes s p = true -> includes (removeAll cls s) (removeAll cls p) = true.
Proof.
  unfold includes, removeAll. rewrite !chars_ofChars, !includesChars_app.
  intros (a & b & ->). rewrite !filter_app. eauto.
Qed.

(** A header that contains a candidate name as the validation tests it is
    found by the column resolver. *)
Lemma validated_column_found (hs names : list string) (name : string) :
  In name names ->
  someHeaderIncludes hs (toLowerCase name) = true ->
  is_Some (findColumn (Some hs) names).
Proof.
  intros Hin Hsome. unfold someHeaderIncludes in Hsome.
  apply existsb_exists in Hsome. destruct Hsome as (h & Hh & Hinc).
  apply (includes_removeAll (fun c => isSpace c || Ascii.eqb c "_")) in Hinc.
  change (includes (normalizeName h) (normalizeName name) = true) in Hinc.
  simpl. induction names as [|n names IH]; [destruct Hin|]. simpl.
  destruct (firstHeader (fun x => String.eqb x (normalizeName n)) hs); [eauto|].
  destruct (firstHeader (fun x => includes x (normalizeName n)) hs) eqn:Epart; [eauto|].
  destruct Hin as [->|Hin]; [|exact (IH Hin)].
  rewrite (proj1 (firstHeader_None _ _) Epart h Hh) in Hinc. discriminate.
Qed.

Lemma validateData_Ok (data : option MainCSV) (warnings : list string) :
  validateData data = Ok warnings ->
  exists csv hs rs,
    data = Some csv /\ headers csv = Some hs /\ records csv = Some rs /\
    Forall (fun col => someHeaderIncludes hs (toLowerCase col) = true) requiredColumns.
Proof.
  unfold validateData. destruct data as [[[hs|] [rs|]]|]; try discriminate.
  destruct (Nat.eqb (length hs) 0); [discriminate|]. intros H.
  exists {| headers := Some hs; records := Some rs |}, hs, rs.
  repeat split. unfold requiredColumns in *. cbn [List.filter] in H.
  repeat match type of H with
         | context [someHeaderIncludes hs ?n] =>
             let E := fresh "E" in destruct (someHeaderIncludes hs n) eqn:E
         end; try discriminate.
  repeat constructor; assumption.
Qed.

(** X16.  A CSV that passes [validateData] has the columns that the
    hierarchy builder cannot do without: [processMainCSV] resolves its
    key, issue type, status and summary columns. *)
Theorem validateData_columns (csv : MainCSV) (warnings : list string) :
  validateData (Some csv) = Ok warnings ->
  is_Some (keyCol (resolveColumns (headers csv))) /\
  is_Some (typeCol (resolveColumns (headers csv))) /\
  is_Some (statusCol (resolveColumns (headers csv))) /\
  is_Some (summaryCol (resolveColumns (headers csv))).
Proof.
  intros H. apply validateData_Ok in H.
  destruct H as (csv' & hs & rs & [= <-] & Hh & _ & Hreq). rewrite Hh.
  unfold requiredColumns in Hreq.
  inversion Hreq as [|? ? Hkey Hreq1]; subst.
  inversion Hreq1 as [|? ? Htype Hreq2]; subst.
  inversion Hreq2 as [|? ? Hstatus Hreq3]; subst.
  inversion Hreq3 as [|? ? Hsummary _]; subst.
  unfold resolveColumns; cbn [keyCol typeCol statusCol summaryCol].
  split; [apply (validated_column_found hs _ "Key"); [left; reflexivity | exact Hkey]|].
  split; [apply (validated_column_found hs _ "Issue Type");
          [left; reflexivity | exact Htype]|].
  split; [apply (validated_column_found hs _ "Status"); [left; reflexivity | exact Hstatus]|].
  apply (validated_column_found hs _ "Summary"); [left; reflexivity | exact Hsummary].
Qed.

Lemma validateData_columns_witness :
  is_Some (keyCol (resolveColumns (Some ["Issue key"; "Issue Type"; "Status"; "Summary"]))) /\
  is_Some (typeCol (resolveColumns (Some ["Issue key"; "Issue Type"; "Status"; "Summary"]))) /\
  is_Some (statusCol (resolveColumns (Some ["Issue key"; "Issue Type"; "Status"; "Summary"]))) /\
  is_Some (summaryCol (resolveColumns (Some ["Issue key"; "Issue Type"; "Status"; "Summary"]))).
Proof.
  apply (validateData_columns
           {| headers := Some ["Issue key"; "Issue Type"; "Status"; "Summary"];
              records := Some [] |} [fieldWarning]).
  reflexivity.
Defined.

(** X17.  The pipeline of the application does not fail in the hierarchy
    builder: for a file that [parseFile] has parsed and [validateData] has
    accepted, [processMainCSV] returns a hierarchy. *)
Theorem validated_file_is_processed
    (parseFloat : string -> option Q) (localeCompare : string -> string -> Z)
    (text : string) (csv : MainCSV) (warnings : list string) :
  parseFile text = Ok csv ->
  validateData (Some csv) = Ok warnings ->
  exists h, processMainCSV parseFloat localeCompare csv = Ok h.
Proof.
  intros Hparse Hvalid. apply validateData_Ok in Hvalid.
  destruct Hvalid as (csv' & hs & rs & [= <-] & Hh & Hr & Hreq).
  apply (processMainCSV_returns parseFloat localeCompare csv rs Hr).
  inversion Hreq as [|? ? Hkey _]; subst.
  destruct (validated_column_found hs ["Key"; "Issue key"] "Key"
              (or_introl eq_refl) Hkey) as [k Hk].
  destruct (key_column_header hs k Hk) as (Hin & _ & Hproto).
  rewrite Hh. unfold resolveColumns; cbn [keyCol typeCol]. rewrite Hk.
  unfold parseFile in Hparse.
  destruct (filter _ (splitOn lineFeed (chars text))) as [|first rest]; [discriminate|].
  injection Hparse as <-. cbn [headers records] in Hh, Hr.
  injection Hh as <-. injection Hr as <-.
  apply Forall_forall. intros r Hr _. apply list_elem_of_In, in_map_iff in Hr.
  destruct Hr as (line & <- & _). unfold cell. cbn [default].
  apply recordOf_keys. split; assumption.
Qed.

Lemma validated_file_is_processed_witness :
  exists h,
    processMainCSV parseWhole compareCodes
      {| headers := Some ["Key"; "Issue Type"; "Status"; "Summary"];
         records := Some [{["Key" := "E-1"; "Issue Type" := "Epic";
                            "Status" := "Done"; "Summary" := "x"]}] |} = Ok h.
Proof.
  apply (validated_file_is_processed parseWhole compareCodes
           (ofChars (chars "Key,Issue Type,Status,Summary" ++ lineFeed
                     :: chars "E-1,Epic,Done,x"))
           {| headers := Some ["Key"; "Issue Type"; "Status"; "Summary"];
              records := Some [{["Key" := "E-1"; "Issue Type" := "Epic";
                                 "Status" := "Done"; "Summary" := "x"]}] |}
           [fieldWarning]).
  - vm_compute. reflexivity.
  - vm_compute. reflexivity.
Defined.

(** X18.  When [validateData] raises no warning, the hierarchy builder has
    a column to link children by: its epic link column or its parent
    column is resolved. *)
Theorem validateData_no_warning (csv : MainCSV) :
  validateData (Some csv) = Ok [] ->
  is_Some (epicLinkCol (resolveColumns (headers csv))) \/
  is_Some (parentCol (resolveColumns (headers csv))).
Proof.
  unfold validateData. destruct csv as [[hs|] [rs|]]; try discriminate.
  destruct (Nat.eqb (length hs) 0); [discriminate|].
  destruct (negb (Nat.eqb (length _) 0)); [discriminate|]. cbv zeta.
  match goal with
  | |- Ok (if negb ?a && negb ?b then _ else _) = _ -> _ =>
      destruct a eqn:Eepic; [|destruct b eqn:Eparent; [|discriminate]]
  end; intros _; cbn [headers]; unfold resolveColumns; cbn [epicLinkCol parentCol].
  - left. apply existsb_exists in Eepic.
    destruct Eepic as (h & Hh & Hinc). apply orb_true_iff in Hinc.
    destruct Hinc as [Hinc|Hinc].
    + apply (validated_column_found hs _ "Epic Link"); [left; reflexivity|].
      apply existsb_exists. eauto.
    + apply (validated_column_found hs _ "Parent Epic"); [right; right; left; reflexivity|].
      apply existsb_exists. eauto.
  - right. apply existsb_exists in Eparent.
    destruct Eparent as (h & Hh & Hinc). apply orb_true_iff in Hinc.
    destruct Hinc as [Hinc|Hinc].
    + apply (validated_column_found hs _ "Parent"); [left; reflexivity|].
      apply existsb_exists. eauto.
    + apply (validated_column_found hs _ "Parent Link"); [right; left; reflexivity|].
      apply existsb_exists. eauto.
Qed.

Lemma validateData_no_warning_witness :
  is_Some (epicLinkCol (resolveColumns
             (Some ["Key"; "Issue Type"; "Status"; "Summary"; "Parent Epic"]))) \/
  is_Some (parentCol (resolveColumns
             (Some ["Key"; "Issue Type"; "Status"; "Summary"; "Parent Epic"]))).
Proof.
  apply (validateData_no_warning
           {| headers := Some ["Key"; "Issue Type"; "Status"; "Summary"; "Parent Epic"];
              records := Some [] |}).
  reflexivity.
Defined.

(** ** Metrics *)

Lemma sumQ_app {A} (f : A -> Q) (l k : list A) :
  (sumQ f (l ++ k) == sumQ f l + sumQ f k)%Q.
Proof.
  induction l as [|x l IH]; simpl; [ring|]. rewrite IH. ring.
Qed.

Lemma sprintGet_keys (sp : Sprints) (s : string) :
  is_Some (sprintGet sp s) <-> In s sp.*1.
Proof.
  induction sp as [|[k b] sp IH]; simpl.
  - split; [intros [? ?]; discriminate | tauto].
  - destruct (String.eqb_spec k s) as [->|Hk]; [split; eauto|].
    rewrite IH. split; [tauto | intros [E|H]; [congruence | exact H]].
Qed.

Lemma sprintGet_In (sp : Sprints) (s : string) (b : Bucket.t) :
  NoDup sp.*1 -> In (s, b) sp -> sprintGet sp s = Some b.
Proof.
  induction sp as [|[k b0] sp IH]; simpl; [tauto|].
  intros Hnd [[= -> ->]|Hin].
  - rewrite String.eqb_refl. reflexivity.
  - apply NoDup_cons in Hnd. destruct Hnd as [Hk Hnd].
    destruct (String.eqb_spec k s) as [->|Hks]; [|apply IH; assumption].
    exfalso. apply Hk. apply list_elem_of_In. apply (in_map fst) in Hin. exact Hin.
Qed.

Lemma sprintSet_keys (sp : Sprints) (s k : string) (b' : Bucket.t) :
  In k (sprintSet sp s b').*1 <-> k = s \/ In k sp.*1.
Proof.
  induction sp as [|[k0 b0] sp IH]; simpl; [intuition congruence|].
  destruct (String.eqb_spec k0 s) as [->|Hk]; simpl; [intuition congruence|].
  rewrite IH. tauto.
Qed.

Lemma sprintSet_NoDup (sp : Sprints) (s : string) (b' : Bucket.t) :
  NoDup sp.*1 -> NoDup (sprintSet sp s b').*1.
Proof.
  induction sp as [|[k0 b0] sp IH]; simpl.
  - intros _. apply NoDup_singleton.
  - intros Hnd. apply NoDup_cons in Hnd. destruct Hnd as [Hk Hnd].
    destruct (String.eqb_spec k0 s) as [->|Hks]; simpl.
    + apply NoDup_cons. split; assumption.
    + apply NoDup_cons. split; [|apply IH; exact Hnd].
      rewrite list_elem_of_In, sprintSet_keys. intros [E|Hin]; [congruence|].
      apply Hk, list_elem_of_In. exact Hin.
Qed.

Lemma sprintSet_sum (g : Bucket.t -> Q) (sp : Sprints) (s : string) (b' : Bucket.t) :
  (sumQ (fun entry => g entry.2) (sprintSet sp s b')
     + match sprintGet sp s with Some b => g b | None => 0 end
   == sumQ (fun entry => g entry.2) sp + g b')%Q.
Proof.
  induction sp as [|[k0 b0] sp IH]; simpl; [ring|].
  destruct (String.eqb k0 s); simpl; [ring|].
  rewrite <- Qplus_assoc, IH. ring.
Qed.

Lemma filter_snoc {A} (f : A -> bool) (l : list A) (x : A) :
  List.filter f (l ++ [x]) = if f x then List.filter f l ++ [x] else List.filter f l.
Proof.
  rewrite List.filter_app. simpl. destruct (f x); [reflexivity | apply app_nil_r].
Qed.

Lemma filter_none {A} (f : A -> bool) (l : list A) :
  (forall x, In x l -> f x = false) -> List.filter f l = [].
Proof.
  induction l as [|x l IH]; simpl; [reflexivity|]. intros H.
  rewrite (H x) by (left; reflexivity). apply IH. intros y Hy. apply H. right. exact Hy.
Qed.

Lemma bucketOf_other (s : string) (l : list Merged.t) (b : Bucket.t) (e : Merged.t) :
  sprintOf e <> s -> bucketOf s l b -> bucketOf s (l ++ [e]) b.
Proof.
  intros Hne (He & Hnn & Hc & Hd). unfold bucketOf. rewrite filter_snoc.
  unfold inSprint at 1. apply String.eqb_neq in Hne. rewrite Hne. tauto.
Qed.

Lemma bucketAt_facts (l : list Merged.t) (t : Totals) (s : string) :
  totalsOf l t ->
  Bucket.epics (bucketAt (sprints t) s) = List.filter (inSprint s) l /\
  (Bucket.committed (bucketAt (sprints t) s)
   == sumQ committedPoints (Bucket.epics (bucketAt (sprints t) s)))%Q /\
  (Bucket.completed (bucketAt (sprints t) s)
   == sumQ completedPoints (Bucket.epics (bucketAt (sprints t) s)))%Q.
Proof.
  intros (_ & _ & _ & _ & Hb & Hall & _). unfold bucketAt.
  destruct (sprintGet (sprints t) s) as [b|] eqn:Hget; simpl.
  - destruct (Hb s b Hget) as (He & _ & Hc & Hd). tauto.
  - split; [|split; reflexivity]. symmetry. apply filter_none. intros x Hx.
    unfold inSprint. apply String.eqb_neq. intros E.
    destruct (Hall x Hx) as [b Hxb]. congruence.
Qed.

Lemma metrics_step_totals (parseFloat : string -> option Q) (l : list Merged.t)
    (t : Totals) (e : Merged.t) :
  totalsOf l t -> ownSprint e ->
  exists t', metrics_step parseFloat t e = Ok t' /\ totalsOf (l ++ [e]) t'.
Proof.
  intros Ht Hown. destruct (bucketAt_facts l t (sprintOf e) Ht) as (Hbe & Hbc & Hbd).
  destruct Ht as (Hc & Hd & Hrisk & Hnd & Hb & Hall & Hsc & Hsd).
  unfold metrics_step. unfold ownSprint in Hown.
  set (s := sprintOf e) in *.
  assert (Hself : inSprint s e = true) by (unfold inSprint, s; apply String.eqb_refl).
  assert (Hchoice :
    match sprintGet (sprints t) s with
    | Some b => Ok b
    | None => if arrayIncludes objectPrototypeProps s
              then Throw (TypeError "Cannot read properties of undefined (reading 'push')")
              else Ok {| Bucket.committed := 0; Bucket.completed := 0; Bucket.cycleSum := 0;
                         Bucket.cycleCount := 0; Bucket.epics := [] |}
    end = Ok (bucketAt (sprints t) s)).
  { unfold bucketAt. destruct (sprintGet (sprints t) s); [reflexivity|].
    rewrite Hown. reflexivity. }
  rewrite Hchoice. simpl mbind. eexists. split; [reflexivity|].
  set (b := bucketAt (sprints t) s) in *.
  assert (Hold : forall g : Bucket.t -> Q,
             g {| Bucket.committed := 0; Bucket.completed := 0; Bucket.cycleSum := 0;
                  Bucket.cycleCount := 0; Bucket.epics := [] |} = 0%Q ->
             match sprintGet (sprints t) s with Some b0 => g b0 | None => 0%Q end = g b).
  { intros g Hg. unfold b, bucketAt. destruct (sprintGet (sprints t) s); simpl; congruence. }
  unfold totalsOf. cbn [sprints totalCommitted totalCompleted atRiskCount].
  refine (conj _ (conj _ (conj _ (conj _ (conj _ (conj _ (conj _ _))))))).
  - rewrite sumQ_app, Hc. simpl. unfold committedPoints. ring.
  - rewrite sumQ_app, Hd. simpl. unfold completedPoints. ring.
  - rewrite filter_snoc. unfold isAtRisk at 1.
    destruct (String.eqb (class (Merged.slaStatus e)) "at-risk").
    + rewrite length_app, Hrisk. simpl. lia.
    + exact Hrisk.
  - apply sprintSet_NoDup. exact Hnd.
  - intros s0 b0 H. rewrite sprintGet_sprintSet in H.
    destruct (String.eqb_spec s s0) as [<-|Hne];
      [|apply (bucketOf_other s0 l b0 e Hne (Hb s0 b0 H))].
    injection H as <-. unfold bucketOf.
    cbn [Bucket.epics Bucket.committed Bucket.completed].
    split; [rewrite Hbe, filter_snoc, Hself; reflexivity|].
    split; [destruct (Bucket.epics b); discriminate|].
    split; rewrite sumQ_app; [rewrite <- Hbc | rewrite <- Hbd]; simpl;
      unfold committedPoints, completedPoints; ring.
  - intros e0 H. rewrite sprintGet_sprintSet.
    destruct (String.eqb_spec s (sprintOf e0)) as [E|Hne]; [eauto|].
    apply in_app_iff in H. destruct H as [H|[<-|[]]]; [apply Hall; exact H|].
    exfalso. apply Hne. reflexivity.
  - match goal with |- (sumQ _ (sprintSet _ _ ?b') == _)%Q =>
      pose proof (sprintSet_sum Bucket.committed (sprints t) s b') as Hs
    end.
    rewrite (Hold Bucket.committed eq_refl) in Hs. cbn [Bucket.committed] in Hs.
    apply (Qplus_inj_r _ _ (Bucket.committed b)). rewrite Hs, Hsc. ring.
  - match goal with |- (sumQ _ (sprintSet _ _ ?b') == _)%Q =>
      pose proof (sprintSet_sum Bucket.completed (sprints t) s b') as Hs
    end.
    rewrite (Hold Bucket.completed eq_refl) in Hs. cbn [Bucket.completed] in Hs.
    apply (Qplus_inj_r _ _ (Bucket.completed b)). rewrite Hs, Hsd. ring.
Qed.

Lemma metrics_loop_totals (parseFloat : string -> option Q) (rest seen : list Merged.t)
    (t : Totals) :
  totalsOf seen t -> Forall ownSprint rest ->
  exists t', metrics_loop parseFloat t rest = Ok t' /\ totalsOf (seen ++ rest) t'.
Proof.
  revert seen t. induction rest as [|e rest IH]; intros seen t Ht Hown.
  - exists t. rewrite app_nil_r. split; [reflexivity | exact Ht].
  - inversion Hown as [|? ? He Hrest]; subst.
    destruct (metrics_step_totals parseFloat seen t e Ht He) as (t1 & Hstep & Ht1).
    destruct (IH (seen ++ [e]) t1 Ht1 Hrest) as (t' & Hloop & Ht').
    exists t'. simpl. rewrite Hstep. simpl. rewrite <- app_assoc in Ht'.
    split; [exact Hloop | exact Ht'].
Qed.

Lemma totalsOf_start :
  totalsOf [] {| sprints := []; totalCommitted := 0; totalCompleted := 0;
                 totalCycle := 0; totalCount := 0; atRiskCount := 0 |}.
Proof.
  unfold totalsOf. simpl.
  refine (conj _ (conj _ (conj _ (conj _ (conj _ (conj _ (conj _ _)))))));
    try reflexivity.
  - apply NoDup_nil_2.
  - intros s b H. discriminate.
  - intros e [].
Qed.

Lemma sprintRollup_sum (g : Bucket.t -> Q) (h : Sprint.t -> Q) (sp : Sprints) :
  (forall entry, h (sprintRollup entry) = g entry.2) ->
  sumQ h (map sprintRollup sp) = sumQ (fun entry => g entry.2) sp.
Proof.
  intros H. induction sp as [|entry sp IH]; [reflexivity|].
  simpl. rewrite H, IH. reflexivity.
Qed.

(** X19.  The overall figures of [calculateMetrics] are the sums over the
    epics: the committed and the completed story points, the number of
    epics and the number of epics at risk.  (An epic in a sprint named like
    an inherited object member makes the function return its empty
    metrics instead.) *)
Theorem calculateMetrics_totals (parseFloat : string -> option Q) (l : list Merged.t) :
  Forall ownSprint l ->
  exists m,
    calculateMetrics parseFloat (ArgArray l) = Ok m /\
    Overall.totalEpics (overall m) = length l /\
    (Overall.totalCommitted (overall m) == sumQ committedPoints l)%Q /\
    (Overall.totalCompleted (overall m) == sumQ completedPoints l)%Q /\
    Overall.atRiskCount (overall m) = length (List.filter isAtRisk l).
Proof.
  intros Hown.
  destruct (metrics_loop_totals parseFloat l [] _ totalsOf_start Hown) as (t & Hloop & Ht).
  unfold calculateMetrics, calculateMetrics_body. rewrite Hloop. simpl.
  eexists. split; [reflexivity|]. simpl.
  destruct Ht as (Hc & Hd & Hrisk & _). tauto.
Qed.

Lemma calculateMetrics_totals_witness :
  exists m,
    calculateMetrics parseWhole (ArgArray [sampleMerged]) = Ok m /\
    Overall.totalEpics (overall m) = length [sampleMerged] /\
    (Overall.totalCommitted (overall m) == sumQ committedPoints [sampleMerged])%Q /\
    (Overall.totalCompleted (overall m) == sumQ completedPoints [sampleMerged])%Q /\
    Overall.atRiskCount (overall m) = length (List.filter isAtRisk [sampleMerged]).
Proof.
  apply (calculateMetrics_totals parseWhole [sampleMerged]).
  repeat constructor.
Defined.



Lemma list_sum_zero {A} (l : list A) : list_sum (map (fun _ => 0%nat) l) = 0%nat.
Proof. induction l as [|x l IH]; [reflexivity | exact IH]. Qed.

Lemma list_sum_plus {A} (f g : A -> nat) (l : list A) :
  list_sum (map (fun x => (f x + g x)%nat) l) = (list_sum (map f l) + list_sum (map g l))%nat.
Proof. induction l as [|x l IH]; simpl; [reflexivity | rewrite IH; lia]. Qed.

(** Among rows with distinct names exactly one has a given name that
    occurs. *)
Lemma one_row (sp : Sprints) (s : string) :
  NoDup sp.*1 -> In s sp.*1 ->
  list_sum (map (fun entry : string * Bucket.t =>
                   if String.eqb s entry.1 then 1%nat else 0%nat) sp) = 1%nat.
Proof.
  induction sp as [|[k b] sp IH]; simpl; [tauto|].
  intros Hnd Hin. apply NoDup_cons in Hnd. destruct Hnd as [Hk Hnd].
  destruct (String.eqb_spec s k) as [->|Hne].
  - f_equal. clear IH Hin Hnd. induction sp as [|[k' b'] sp IH]; [reflexivity|].
    simpl. destruct (String.eqb_spec k k') as [->|_].
    + exfalso. apply Hk. simpl. left.
    + apply IH. intros H. apply Hk. simpl. right. exact H.
  - destruct Hin as [Heq | Hin]; [congruence|]. apply IH; assumption.
Qed.

(** Rows with distinct names that hold the epics of their sprints hold,
    together, as many epics as there are. *)
Lemma rows_count (sp : Sprints) (l : list Merged.t) :
  NoDup sp.*1 -> (forall e, In e l -> In (sprintOf e) sp.*1) ->
  list_sum (map (fun entry : string * Bucket.t =>
                   length (List.filter (inSprint entry.1) l)) sp) = length l.
Proof.
  intros Hnd. induction l as [|e l IH]; intros Hall.
  - simpl. apply list_sum_zero.
  - rewrite (map_ext _ (fun entry : string * Bucket.t =>
               ((if String.eqb (sprintOf e) entry.1 then 1 else 0)
                + length (List.filter (inSprint entry.1) l))%nat)).
    + rewrite list_sum_plus, (one_row sp (sprintOf e) Hnd), IH.
      * reflexivity.
      * intros x Hx. apply Hall. right. exact Hx.
      * apply Hall. left. reflexivity.
    + intros [s b]. simpl. unfold inSprint at 1.
      destruct (String.eqb (sprintOf e) s); reflexivity.
Qed.

Lemma sprintGet_key (sp : Sprints) (s : string) :
  is_Some (sprintGet sp s) -> In s sp.*1.
Proof.
  induction sp as [|[k b] sp IH]; simpl; [intros [x H]; discriminate|].
  destruct (String.eqb_spec k s) as [->|Hne]; [left; reflexivity|].
  intros H. right. exact (IH H).
Qed.

(** X21.  The counts of the metrics are consistent, whatever the argument:
    there are no more epics at risk than epics, and unless there are no
    sprint rows at all, the numbers of epics of the sprint rows add up to
    the number of epics. *)
Theorem calculateMetrics_consistent (parseFloat : string -> option Q)
    (epics : ArrayArg Merged.t) :
  exists m,
    calculateMetrics parseFloat epics = Ok m /\
    (Overall.atRiskCount (overall m) <= Overall.totalEpics (overall m))%nat /\
    (sprintData m = [] \/
     list_sum (map (fun row => length (Sprint.epics row)) (sprintData m)) =
       Overall.totalEpics (overall m)).
Proof.
  assert (Hempty : forall n,
             (Overall.atRiskCount (overall (emptyMetrics n))
              <= Overall.totalEpics (overall (emptyMetrics n)))%nat /\
             (sprintData (emptyMetrics n) = [] \/
              list_sum (map (fun row => length (Sprint.epics row))
                          (sprintData (emptyMetrics n))) =
                Overall.totalEpics (overall (emptyMetrics n)))).
  { intros n. simpl. split; [lia | left; reflexivity]. }
  destruct epics as [| | |l]; try (eexists; split; [reflexivity | apply Hempty]).
  unfold calculateMetrics, calculateMetrics_body.
  set (start := {| sprints := []; totalCommitted := 0; totalCompleted := 0;
                   totalCycle := 0; totalCount := 0; atRiskCount := 0 |}).
  destruct (metrics_loop parseFloat start l) as [t|e] eqn:Hloop;
    [|eexists; split; [reflexivity | apply Hempty]].
  assert (Hown : Forall ownSprint l).
  { apply Forall_forall. intros x Hx. unfold ownSprint.
    destruct (arrayIncludes objectPrototypeProps (sprintOf x)) eqn:E; [|reflexivity].
    assert (Hthrows : exists e, metrics_loop parseFloat start l = Throw e).
    { apply metrics_loop_throws; [intros k _; reflexivity|].
      apply Exists_exists. exists x. split; [exact Hx | exact E]. }
    destruct Hthrows as [e He]. congruence. }
  destruct (metrics_loop_totals parseFloat l [] start totalsOf_start Hown) as (t' & Hloop' & Ht).
  simpl in Hloop'. rewrite Hloop in Hloop'. injection Hloop' as <-.
  simpl. eexists. split; [reflexivity|].
  cbn [sprintData overall Overall.atRiskCount Overall.totalEpics].
  destruct Ht as (_ & _ & Hrisk & Hnd & Hb & Hall & _).
  split; [rewrite Hrisk; apply List.filter_length_le|].
  right. rewrite map_map.
  rewrite <- (rows_count (sprints t) l Hnd).
  - f_equal. apply map_ext_in. intros [s b] Hin. simpl.
    destruct (Hb s b (sprintGet_In _ _ _ Hnd Hin)) as (He & _). rewrite He. reflexivity.
  - intros e He. apply sprintGet_key. apply Hall. exact He.
Qed.

Lemma sumQ_le {A} (f g : A -> Q) (l : list A) :
  Forall (fun x => (f x <= g x)%Q) l -> (sumQ f l <= sumQ g l)%Q.
Proof.
  induction 1 as [|x l Hx _ IH]; simpl; [apply Qle_refl|].
  apply Qplus_le_compat; assumption.
Qed.

Lemma Forall_filter_bool {A} (P : A -> Prop) (f : A -> bool) (l : list A) :
  Forall P l -> Forall P (List.filter f l).
Proof.
  induction 1 as [|x l Hx _ IH]; simpl; [constructor|].
  destruct (f x); [constructor|]; assumption.
Qed.

(** Where no epic has completed more points than it has committed, nor
    have the totals and the sprint rows. *)
Lemma calculateMetrics_completed_le (parseFloat : string -> option Q) (l : list Merged.t) :
  Forall (fun e => (completedPoints e <= committedPoints e)%Q) l ->
  exists m,
    calculateMetrics parseFloat (ArgArray l) = Ok m /\
    (Overall.totalCompleted (overall m) <= Overall.totalCommitted (overall m))%Q /\
    Forall (fun row => (Sprint.completed row <= Sprint.committed row)%Q) (sprintData m).
Proof.
  intros Hle. unfold calculateMetrics, calculateMetrics_body.
  set (start := {| sprints := []; totalCommitted := 0; totalCompleted := 0;
                   totalCycle := 0; totalCount := 0; atRiskCount := 0 |}).
  destruct (metrics_loop parseFloat start l) as [t|e] eqn:Hloop.
  - assert (Hown : Forall ownSprint l).
    { apply Forall_forall. intros x Hx. unfold ownSprint.
      destruct (arrayIncludes objectPrototypeProps (sprintOf x)) eqn:E; [|reflexivity].
      assert (Hthrows : exists e, metrics_loop parseFloat start l = Throw e).
      { apply metrics_loop_throws; [intros k _; reflexivity|].
        apply Exists_exists. exists x. split; [exact Hx | exact E]. }
      destruct Hthrows as [e He]. congruence. }
    destruct (metrics_loop_totals parseFloat l [] start totalsOf_start Hown)
      as (t' & Hloop' & Ht).
    simpl in Hloop'. rewrite Hloop in Hloop'. injection Hloop' as <-.
    simpl. eexists. split; [reflexivity|].
    cbn [sprintData overall Overall.totalCommitted Overall.totalCompleted].
    destruct Ht as (Hc & Hd & _ & Hnd & Hb & _).
    split; [rewrite Hc, Hd; apply sumQ_le; exact Hle|].
    apply Forall_forall. intros row Hrow. apply list_elem_of_In, in_map_iff in Hrow.
    destruct Hrow as ([s b] & <- & Hin). simpl.
    destruct (Hb s b (sprintGet_In _ _ _ Hnd Hin)) as (He & _ & Hbc & Hbd).
    rewrite Hbc, Hbd. apply sumQ_le. rewrite He. apply Forall_filter_bool. exact Hle.
  - simpl. eexists. split; [reflexivity|]. simpl. split; [apply Qle_refl | constructor].
Qed.

(** X22.  The analysis never reports more completed than committed story
    points, overall or for a sprint, when no story-points cell of the CSV
    reads as a negative number: this holds for the metrics of the epics
    that [processMainCSV] builds and [mergeEpicData] merges, whatever the
    time data. *)
Theorem analysis_completed_le_committed
    (parseFloat : string -> option Q) (localeCompare : string -> string -> Z)
    (slaConfig : option (gmap string Z)) (csv : MainCSV) (rows : list Record_)
    (h : Hierarchy) (timeMap : TimeMapArg) (merged : list Merged.t) :
  records csv = Some rows ->
  Forall (fun r =>
    (0 <= pointsOf parseFloat (cell r (pointsCol (resolveColumns (headers csv)))))%Q) rows ->
  processMainCSV parseFloat localeCompare csv = Ok h ->
  mergeEpicData slaConfig (ArgArray (epics h)) timeMap = Ok merged ->
  exists m,
    calculateMetrics parseFloat (ArgArray merged) = Ok m /\
    (Overall.totalCompleted (overall m) <= Overall.totalCommitted (overall m))%Q /\
    Forall (fun row => (Sprint.completed row <= Sprint.committed row)%Q) (sprintData m).
Proof.
  intros Hrows Hpoints Hrun Hmerge. apply processMainCSV_Ok in Hrun.
  destruct Hrun as (rows' & store2 & linked & store3 & Hr & Hsecond & Hdist & Hsort & _).
  rewrite Hrows in Hr. injection Hr as <-.
  assert (H2 : Forall pointsBalanced store2).
  { assert (H := secondPass_balanced parseFloat (resolveColumns (headers csv)) rows Hpoints).
    rewrite Hsecond in H. exact H. }
  assert (H3 : Forall pointsBalanced store3).
  { destruct (fewLinked linked (length rows)).
    - eapply distribute_balanced; eauto.
    - injection Hdist as <-. exact H2. }
  apply sortById_Permutation in Hsort.
  assert (H4 : Forall pointsBalanced (epics h))
    by (eapply Permutation_Forall; [exact Hsort | exact H3]).
  rewrite mergeEpicData_array in Hmerge. injection Hmerge as <-.
  apply calculateMetrics_completed_le.
  apply Forall_forall. intros e He. apply list_elem_of_In, in_map_iff in He.
  destruct He as (epic & <- & Hepic).
  rewrite Forall_forall in H4. apply list_elem_of_In in Hepic.
  destruct (H4 epic Hepic) as [_ Hle].
  unfold completedPoints, committedPoints, mergedOrDefault.
  destruct (mergeEpic_body slaConfig (effectiveTimeMap timeMap) epic) as [m|err] eqn:Hbody;
    [|exact Hle].
  assert (Hsame : Merged.epic m = epic).
  { unfold mergeEpic_body in Hbody.
    repeat match type of Hbody with
           | (?x ≫= _) = Ok _ => destruct x; simpl in Hbody; [|discriminate]
           end.
    injection Hbody as <-. reflexivity. }
  rewrite Hsame. exact Hle.
Qed.

Lemma analysis_completed_le_committed_witness :
  exists m,
    calculateMetrics parseWhole (ArgArray sampleMergedEpics) = Ok m /\
    (Overall.totalCompleted (overall m) <= Overall.totalCommitted (overall m))%Q /\
    Forall (fun row => (Sprint.completed row <= Sprint.committed row)%Q) (sprintData m).
Proof.
  apply (analysis_completed_le_committed parseWhole compareCodes None sampleCSV
           (default [] (records sampleCSV)) sampleHierarchy TimeMapNullish).
  - reflexivity.
  - repeat constructor; vm_compute; discriminate.
  - vm_compute. reflexivity.
  - vm_compute. reflexivity.
Defined.

(** ** Threshold settings *)

Lemma mapM_Ok_inv {A B} (f : A -> result B) (l : list A) (ys : list B) :
  mapM f l = Ok ys -> Forall2 (fun x y => f x = Ok y) l ys.
Proof.
  revert ys. induction l as [|x l IH]; intros ys; simpl.
  - intros [= <-]. constructor.
  - destruct (f x) as [y|e] eqn:Hx; simpl; [|discriminate].
    destruct (mapM f l) as [ys'|e]; simpl; [|discriminate].
    intros [= <-]. constructor; [exact Hx | apply IH; reflexivity].
Qed.

Lemma getUIValues_Ok (page : string -> option string) (thresholds : gmap string Z) :
  getUIValues page = Ok thresholds ->
  thresholds
  = list_to_map (map (fun '(name, (id, key)) => (name, thresholdOf (default "" (page id)) key))
                     uiFields).
Proof.
  unfold getUIValues. intros H.
  destruct (mapM _ uiFields) as [entries|e] eqn:Hm; [|discriminate].
  unfold mbind, result_bind in H. injection H as <-. f_equal.
  apply mapM_Ok_inv in Hm. revert Hm. generalize uiFields as l. intros l Hm.
  induction Hm as [|[name [id key]] [name' v] l ys Hx _ IH]; [reflexivity|].
  cbn [map]. rewrite IH. f_equal. unfold uiValue in Hx.
  destruct (page id) as [value|]; [|discriminate].
  unfold mbind, result_bind in Hx. injection Hx as <- <-. reflexivity.
Qed.

Lemma thresholdOf_nonzero (value key : string) :
  DEFAULT_THRESHOLDS !!! key <> 0 -> thresholdOf value key <> 0.
Proof.
  intros Hd. unfold thresholdOf. destruct (parseInt value) as [n|]; [|exact Hd].
  destruct (Z.eqb_spec n 0); assumption.
Qed.

Lemma uiFields_NoDup (g : string * (string * string) -> string * Z) :
  (forall x, (g x).1 = x.1) -> NoDup (map g uiFields).*1.
Proof.
  intros Hg.
  assert (E : forall l, (map g l).*1 = l.*1).
  { induction l as [|x l IH]; [reflexivity|].
    cbn [map]. rewrite !fmap_cons, Hg, IH. reflexivity. }
  rewrite E. apply (bool_decide_unpack (NoDup uiFields.*1)). vm_compute. exact I.
Qed.

Lemma getUIValues_keys (page : string -> option string) (thresholds : gmap string Z) :
  getUIValues page = Ok thresholds ->
  forall k, is_Some (thresholds !! k) <-> In k uiFields.*1.
Proof.
  intros H. apply getUIValues_Ok in H. subst thresholds.
  set (g := fun '(name, (id, key)) => (name, thresholdOf (default "" (page id)) key)).
  assert (Hnd : NoDup (map g uiFields).*1)
    by (apply uiFields_NoDup; intros [name [id key]]; reflexivity).
  intros k. split.
  - intros [z Hz]. apply elem_of_list_to_map in Hz; [|exact Hnd].
    apply list_elem_of_In, in_map_iff in Hz. destruct Hz as ([name [id key]] & [= <- _] & Hin).
    apply (in_map fst) in Hin. exact Hin.
  - intros Hin. apply in_map_iff in Hin. destruct Hin as ([name [id key]] & <- & Hin).
    exists (thresholdOf (default "" (page id)) key).
    apply elem_of_list_to_map; [exact Hnd|]. apply list_elem_of_In.
    apply (in_map g) in Hin. exact Hin.
Qed.

Lemma getUIValues_nonzero (page : string -> option string) (thresholds : gmap string Z) :
  getUIValues page = Ok thresholds ->
  forall k z, thresholds !! k = Some z -> z <> 0.
Proof.
  intros H. apply getUIValues_Ok in H. subst thresholds.
  set (g := fun '(name, (id, key)) => (name, thresholdOf (default "" (page id)) key)).
  assert (Hnd : NoDup (map g uiFields).*1)
    by (apply uiFields_NoDup; intros [name [id key]]; reflexivity).
  intros k z Hz. apply elem_of_list_to_map in Hz; [|exact Hnd].
  apply list_elem_of_In, in_map_iff in Hz. destruct Hz as ([name [id key]] & [= <- <-] & Hin).
  apply thresholdOf_nonzero. unfold uiFields in Hin. simpl in Hin.
  repeat (destruct Hin as [[= <- <- <-]|Hin]; [vm_compute; discriminate|]).
  destruct Hin.
Qed.



(** X24.  With the thresholds saved from the settings form, the SLA
    classification follows the documented rule: closed for a completed
    status, else at risk exactly when the days in status reach the
    threshold of the status, the default threshold being used exactly when
    the status is not listed.  The statuses named like an inherited object
    member are the exception. *)
Theorem saved_thresholds_classify (page : string -> option string)
    (thresholds : gmap string Z) (status text : string) :
  getUIValues page = Ok thresholds ->
  arrayIncludes objectPrototypeProps (toLowerCase status) = false ->
  exists days,
    parseTimeInStatus (VString text) = Ok days /\
    calculateSLAStatus (Some thresholds) (Some status) (VString text)
    = Ok (calculateSLAStatus_spec thresholds status days).
Proof.
  intros Hui Hown. destruct (parseTimeInStatus_string text) as (days & Hdays & _).
  exists days. split; [exact Hdays|].
  unfold calculateSLAStatus, calculateSLAStatus_spec, isCompleted.
  change (propKey (optLower (Some status))) with (toLowerCase status).
  change (optLower (Some status)) with (Some (toLowerCase status)).
  cbn [getSLAThresholds].
  destruct (arrayIncludes COMPLETED_STATUSES (toLowerCase status)); [reflexivity|].
  rewrite Hdays. unfold mbind, result_bind. f_equal.
  unfold lookupThreshold, lookupThreshold_spec, getProp.
  destruct (proj2 (getUIValues_keys page thresholds Hui "default")) as [d Hd];
    [simpl; tauto|].
  destruct (thresholds !! toLowerCase status) as [z|] eqn:Hz.
  - assert (Hnz := getUIValues_nonzero page thresholds Hui _ z Hz).
    apply Z.eqb_neq in Hnz. rewrite Hnz. reflexivity.
  - rewrite Hown, Hd. reflexivity.
Qed.

Lemma saved_thresholds_classify_witness :
  exists days,
    parseTimeInStatus (VString "3w") = Ok days /\
    calculateSLAStatus (Some sampleThresholds) (Some "In Progress") (VString "3w")
    = Ok (calculateSLAStatus_spec sampleThresholds "In Progress" days).
Proof.
  apply (saved_thresholds_classify samplePage sampleThresholds "In Progress" "3w").
  - exact eq_refl.
  - reflexivity.
Defined.










(** ** Utilities *)

Lemma sameValue_eq (a b : option string) : sameValue a b = true <-> a = b.
Proof.
  destruct a as [x|], b as [y|]; simpl; try (split; congruence).
  rewrite String.eqb_eq. split; congruence.
Qed.

Lemma existsb_sameValue (v : option string) (seen : list (option string)) :
  existsb (sameValue v) seen = true <-> In v seen.
Proof.
  rewrite existsb_exists. split.
  - intros (x & Hin & Heq). apply sameValue_eq in Heq. subst. exact Hin.
  - intros Hin. exists v. split; [exact Hin | apply sameValue_eq; reflexivity].
Qed.

Lemma newSet_spec (values seen : list (option string)) :
  NoDup seen ->
  NoDup (newSet values seen) /\
  forall v, In v (newSet values seen) <-> In v seen \/ In v values.
Proof.
  revert seen. induction values as [|x values IH]; intros seen Hnd; simpl.
  - split; [exact Hnd | tauto].
  - destruct (existsb (sameValue x) seen) eqn:Hx.
    + apply existsb_sameValue in Hx. destruct (IH seen Hnd) as [Hnd' Hin].
      split; [exact Hnd'|]. intros v. rewrite Hin. intuition congruence.
    + assert (Hnew : NoDup (seen ++ [x])).
      { apply NoDup_app. split; [exact Hnd|]. split; [|apply NoDup_singleton].
        intros y Hy Hyx. apply list_elem_of_singleton in Hyx. subst y.
        apply list_elem_of_In, existsb_sameValue in Hy. congruence. }
      destruct (IH (seen ++ [x]) Hnew) as [Hnd' Hin].
      split; [exact Hnd'|]. intros v. rewrite Hin, in_app_iff. simpl. tauto.
Qed.

(** X26.  [getUniqueValues] lists each value of the property once: the
    result has no duplicates, and holds exactly the non-empty texts that
    some element of the array has as its property. *)
Theorem getUniqueValues_spec {A} (array : list A) (property : A -> option string) :
  NoDup (getUniqueValues array property) /\
  forall x, In x (getUniqueValues array property) <->
            x <> "" /\ exists item, In item array /\ property item = Some x.
Proof.
  unfold getUniqueValues.
  destruct (newSet_spec (map property array) [] (NoDup_nil_2 (A := option string))) as [Hnd Hin].
  set (keep := fun v : option string =>
                 match v with
                 | Some s => if nonEmpty s then [s] else []
                 | None => []
                 end).
  assert (Hkeep : forall l x, In x (flat_map keep l) <-> x <> "" /\ In (Some x) l).
  { intros l x. rewrite in_flat_map. split.
    - intros ([s|] & Hl & Hx); simpl in Hx; [|destruct Hx].
      destruct (nonEmpty s) eqn:Hs; [|destruct Hx]. destruct Hx as [<-|[]].
      split; [apply nonEmpty_true; exact Hs | exact Hl].
    - intros [Hne Hl]. exists (Some x). split; [exact Hl|]. simpl.
      apply nonEmpty_true in Hne. rewrite Hne. left. reflexivity. }
  split.
  - clear Hin. induction Hnd as [|v l Hv Hnd IH]; [apply NoDup_nil_2|].
    simpl. apply NoDup_app. split; [|split; [|exact IH]].
    + destruct v as [s|]; simpl; [|apply NoDup_nil_2].
      destruct (nonEmpty s); [apply NoDup_singleton | apply NoDup_nil_2].
    + intros x Hx Hx'. apply list_elem_of_In, Hkeep in Hx'. destruct Hx' as [_ Hl].
      destruct v as [s|]; simpl in Hx; [|inversion Hx].
      destruct (nonEmpty s); [|inversion Hx].
      apply list_elem_of_singleton in Hx. subst x. apply Hv, list_elem_of_In. exact Hl.
  - intros x. rewrite Hkeep, Hin, in_map_iff. simpl.
    split; intros [Hne H]; (split; [exact Hne|]).
    + destruct H as [[]|(item & Hitem & Harr)]. eauto.
    + destruct H as (item & Harr & Hitem). right. eauto.
Qed.

(** ** Pagination *)

Lemma Qceiling_div (a : Z) (n : positive) :
  Qceiling (inject_Z a / inject_Z (Z.pos n)) = (- ((- a) / Z.pos n))%Z.
Proof.
  unfold Qceiling. f_equal. rewrite (Zdiv_Qdiv (- a) (Z.pos n)).
  apply Qfloor_comp. rewrite inject_Z_opp. unfold Qdiv. ring.
Qed.

Lemma totalPages_bounds {A} (l : list A) (page : Z) (n : positive) :
  l <> [] ->
  let total := calculateTotalPages {| filteredEpics := l; currentPage := page;
                                      rowsPerPage := Rows n |} in
  (total - 1) * Z.pos n < Z.of_nat (length l) <= total * Z.pos n.
Proof.
  intros Hne. unfold calculateTotalPages. cbn [rowsPerPage filteredEpics].
  destruct l as [|x l]; [congruence|]. cbn [length Nat.eqb].
  rewrite Qceiling_div. set (a := Z.of_nat (S (length l))).
  pose proof (Z.div_mod (- a) (Z.pos n) ltac:(lia)) as Hdm.
  pose proof (Z.mod_pos_bound (- a) (Z.pos n) ltac:(lia)) as Hmod.
  cbv zeta. nia.
Qed.

Lemma firstn_skipn_app {A} (a b : nat) (l : list A) :
  firstn a l ++ firstn b (skipn a l) = firstn (a + b) l.
Proof.
  revert l. induction a as [|a IH]; intros l; [reflexivity|].
  destruct l as [|x l]; simpl; [rewrite firstn_nil; reflexivity|].
  rewrite IH. reflexivity.
Qed.

Lemma firstn_min_length {A} (a : nat) (l : list A) :
  firstn (Nat.min a (length l)) l = firstn a l.
Proof.
  destruct (Nat.le_ge_cases a (length l)) as [H|H].
  - rewrite Nat.min_l by exact H. reflexivity.
  - rewrite Nat.min_r by exact H. rewrite firstn_all, firstn_all2 by exact H. reflexivity.
Qed.

(** The rows of a page: the page number is cut down to the last page, and
    the page starts after the rows of the pages before it. *)
Lemma page_rows {A} (l : list A) (page : Z) (n : positive) :
  1 <= page ->
  let p := {| filteredEpics := l; currentPage := page; rowsPerPage := Rows n |} in
  currentPage (pager (updatePaginatedTable p)) = Z.min page (calculateTotalPages p) /\
  1 <= Z.min page (calculateTotalPages p) /\
  currentPageData (updatePaginatedTable p)
  = firstn (Pos.to_nat n)
           (skipn (Z.to_nat ((Z.min page (calculateTotalPages p) - 1) * Z.pos n)) l).
Proof.
  intros Hpage p. unfold updatePaginatedTable.
  cbn [pager currentPage currentPageData rowsPerPage filteredEpics p].
  set (total := calculateTotalPages p).
  assert (Htotal : 1 <= total /\
                   ((total - 1) * Z.pos n < Z.of_nat (length l) \/ (l = [] /\ total = 1))).
  { destruct l as [|x l].
    - split; [reflexivity | right; split; reflexivity].
    - pose proof (totalPages_bounds (x :: l) page n ltac:(discriminate)) as Hb.
      cbv zeta in Hb. fold p in Hb. fold total in Hb. split; [|left; apply Hb].
      assert (0 < Z.of_nat (length (x :: l))) by (simpl; lia). nia. }
  destruct Htotal as [Hone Hlast].
  assert (Hclamp : (if (total <? page)%Z then total else page) = Z.min page total).
  { destruct (Z.ltb_spec total page); lia. }
  rewrite Hclamp. set (k := Z.min page total).
  split; [reflexivity|]. split; [lia|].
  unfold slice. set (len := Z.of_nat (length l)).
  assert (Hstart : 0 <= (k - 1) * Z.pos n <= len).
  { split; [nia|]. unfold len. destruct Hlast as [Hlast|[-> Hlast]]; [nia|].
    simpl. nia. }
  assert (Hfrom : (if ((k - 1) * Z.pos n <? 0)%Z
                   then Z.max (len + (k - 1) * Z.pos n) 0
                   else Z.min ((k - 1) * Z.pos n) len) = (k - 1) * Z.pos n).
  { destruct (Z.ltb_spec ((k - 1) * Z.pos n) 0); lia. }
  assert (Hto : (if (Z.min ((k - 1) * Z.pos n + Z.pos n) len <? 0)%Z
                 then Z.max (len + Z.min ((k - 1) * Z.pos n + Z.pos n) len) 0
                 else Z.min (Z.min ((k - 1) * Z.pos n + Z.pos n) len) len)
                = Z.min ((k - 1) * Z.pos n + Z.pos n) len).
  { destruct (Z.ltb_spec (Z.min ((k - 1) * Z.pos n + Z.pos n) len) 0); lia. }
  rewrite Hfrom, Hto.
  rewrite <- (firstn_min_length (Pos.to_nat n)). f_equal.
  rewrite length_skipn. unfold len in *. lia.
Qed.

(** X27.  The pages of the table show every row once: the rows of the
    pages from the first to the last, one after the other, are the
    filtered epics in their order. *)
Theorem pages_cover {A} (l : list A) (n : positive) :
  concat (map (fun page =>
                 currentPageData
                   (updatePaginatedTable
                      {| filteredEpics := l; currentPage := page; rowsPerPage := Rows n |}))
              (pageNumbers (calculateTotalPages
                              {| filteredEpics := l; currentPage := 1;
                                 rowsPerPage := Rows n |})))
  = l.
Proof.
  set (total := calculateTotalPages
                  {| filteredEpics := l; currentPage := 1; rowsPerPage := Rows n |}).
  assert (Htotal : 1 <= total /\ Z.of_nat (length l) <= total * Z.pos n).
  { destruct l as [|x l]; [split; [reflexivity | unfold total, calculateTotalPages; simpl; lia]|].
    pose proof (totalPages_bounds (x :: l) 1 n ltac:(discriminate)) as Hb.
    cbv zeta in Hb. fold total in Hb. destruct Hb as [_ Hb]. split; [|exact Hb].
    assert (0 < Z.of_nat (length (x :: l))) by (simpl; lia).
    destruct (Z.le_gt_cases 1 total) as [H1|H1]; [exact H1|]. exfalso.
    assert (total * Z.pos n <= 0) by nia. lia. }
  destruct Htotal as [Hone Hall].
  assert (Hpages : forall j : nat,
             Z.of_nat j <= total ->
             concat (map (fun page =>
                            currentPageData
                              (updatePaginatedTable
                                 {| filteredEpics := l; currentPage := page;
                                    rowsPerPage := Rows n |}))
                         (map (fun k => Z.of_nat k + 1) (seq 0 j)))
             = firstn (j * Pos.to_nat n) l).
  { induction j as [|j IH]; intros Hj; [reflexivity|].
    rewrite seq_S, !map_app, concat_app, IH by lia. cbn [map concat seq Nat.add].
    rewrite app_nil_r.
    destruct (page_rows l (Z.of_nat j + 1) n ltac:(lia)) as (_ & _ & ->).
    assert (Hsame : calculateTotalPages
                      {| filteredEpics := l; currentPage := Z.of_nat j + 1;
                         rowsPerPage := Rows n |} = total) by reflexivity.
    rewrite Hsame, Z.min_l by lia.
    replace (Z.to_nat ((Z.of_nat j + 1 - 1) * Z.pos n)) with (j * Pos.to_nat n)%nat by lia.
    rewrite firstn_skipn_app. f_equal. lia. }
  unfold pageNumbers. rewrite Hpages by lia. apply firstn_all2. lia.
Qed.

(** X28.  The pagination info agrees with the table: on a page number of
    1 or more of a table that is not empty, the info reads
    "Showing A-B of N" where the rows shown are the rows A to B of the N
    filtered epics, at least one and at most a page full; the button to
    the previous page is disabled exactly on the first row, and the button
    to the next page exactly when the last row is shown. *)
Theorem view_consistent {A} (l : list A) (page : Z) (n : positive) :
  1 <= page -> l <> [] ->
  let v := updatePaginatedTable
             {| filteredEpics := l; currentPage := page; rowsPerPage := Rows n |} in
  exists a b,
    paginationInfo v = Showing a b (Z.of_nat (length l)) /\
    1 <= a <= b /\ b <= Z.of_nat (length l) /\ b - a + 1 <= Z.pos n /\
    currentPageData v = firstn (Z.to_nat (b - a + 1)) (skipn (Z.to_nat (a - 1)) l) /\
    Z.of_nat (length (currentPageData v)) = b - a + 1 /\
    (prevDisabled v = true <-> a = 1) /\
    (nextDisabled v = true <-> b = Z.of_nat (length l)).
Proof.
  intros Hpage Hne v.
  destruct (page_rows l page n Hpage) as (Hcur & Hk & Hrows).
  pose proof (totalPages_bounds l page n Hne) as Hb. cbv zeta in Hb, Hrows, Hcur, Hk.
  set (p := {| filteredEpics := l; currentPage := page; rowsPerPage := Rows n |}) in *.
  set (total := calculateTotalPages p) in *.
  set (k := Z.min page total) in *.
  set (len := Z.of_nat (length l)) in *.
  assert (Hlen : 0 < len) by (unfold len; destruct l; [congruence | simpl; lia]).
  assert (Hclamp : (if (total <? page)%Z then total else page) = k).
  { unfold k. destruct (Z.ltb_spec total page); lia. }
  exists ((k - 1) * Z.pos n + 1), (Z.min ((k - 1) * Z.pos n + Z.pos n) len).
  assert (Hinfo : paginationInfo v
                  = Showing ((k - 1) * Z.pos n + 1)
                            (Z.min ((k - 1) * Z.pos n + Z.pos n) len) len).
  { unfold v, updatePaginatedTable. cbn [paginationInfo rowsPerPage filteredEpics p currentPage].
    fold p. fold total. rewrite Hclamp. fold len.
    destruct (Z.eqb_spec len 0); [lia|]. f_equal. lia. }
  assert (Hstart : (k - 1) * Z.pos n < len) by (unfold k; nia).
  split; [exact Hinfo|]. split; [nia|]. split; [lia|]. split; [lia|].
  assert (Hdata : currentPageData v
                  = firstn (Z.to_nat (Z.min ((k - 1) * Z.pos n + Z.pos n) len
                                      - ((k - 1) * Z.pos n + 1) + 1))
                           (skipn (Z.to_nat ((k - 1) * Z.pos n + 1 - 1)) l)).
  { unfold v. rewrite Hrows. rewrite <- (firstn_min_length (Pos.to_nat n)).
    replace ((k - 1) * Z.pos n + 1 - 1) with ((k - 1) * Z.pos n) by lia.
    f_equal. rewrite length_skipn. unfold len. nia. }
  split; [exact Hdata|]. split.
  - rewrite Hdata, length_firstn, length_skipn. unfold len. nia.
  - unfold v, updatePaginatedTable.
    cbn [prevDisabled nextDisabled rowsPerPage filteredEpics p currentPage].
    fold p. fold total. rewrite Hclamp, orb_false_r. split.
    + rewrite Z.leb_le. split; intros H; nia.
    + rewrite Z.leb_le. unfold k in *. split; intros H; nia.
Qed.

Lemma view_consistent_witness :
  exists a b,
    paginationInfo (updatePaginatedTable
                      {| filteredEpics := ["E-1"; "E-2"; "E-3"]; currentPage := 2;
                         rowsPerPage := Rows 2 |})
    = Showing a b (Z.of_nat (length ["E-1"; "E-2"; "E-3"])) /\
    1 <= a <= b /\ b <= Z.of_nat (length ["E-1"; "E-2"; "E-3"]) /\ b - a + 1 <= Z.pos 2 /\
    currentPageData (updatePaginatedTable
                       {| filteredEpics := ["E-1"; "E-2"; "E-3"]; currentPage := 2;
                          rowsPerPage := Rows 2 |})
    = firstn (Z.to_nat (b - a + 1)) (skipn (Z.to_nat (a - 1)) ["E-1"; "E-2"; "E-3"]) /\
    Z.of_nat (length (currentPageData
                        (updatePaginatedTable
                           {| filteredEpics := ["E-1"; "E-2"; "E-3"]; currentPage := 2;
                              rowsPerPage := Rows 2 |}))) = b - a + 1 /\
    (prevDisabled (updatePaginatedTable
                     {| filteredEpics := ["E-1"; "E-2"; "E-3"]; currentPage := 2;
                        rowsPerPage := Rows 2 |}) = true <-> a = 1) /\
    (nextDisabled (updatePaginatedTable
                     {| filteredEpics := ["E-1"; "E-2"; "E-3"]; currentPage := 2;
                        rowsPerPage := Rows 2 |}) = true
     <-> b = Z.of_nat (length ["E-1"; "E-2"; "E-3"])).
Proof.
  apply (view_consistent ["E-1"; "E-2"; "E-3"] 2 2); [lia | discriminate].
Defined.

(** ** Structure validator *)

Lemma firstLower_Some (test : string -> bool) (headers : list string) (h : string) :
  firstLower test headers = Some h -> In h headers /\ test (toLowerCase h) = true.
Proof.
  induction headers as [|x headers IH]; simpl; [discriminate|].
  destruct (test (toLowerCase x)) eqn:E.
  - intros [= <-]. split; [left; reflexivity | exact E].
  - intros H. destruct (IH H). split; [right|]; assumption.
Qed.



Lemma findHeaderMatch_header (headers possibilities : list string) (h : string) :
  findHeaderMatch headers possibilities = Some h ->
  In h headers /\
  exists name, In name possibilities /\ includes (toLowerCase h) (toLowerCase name) = true.
Proof.
  induction possibilities as [|n rest IH]; simpl; [discriminate|].
  destruct (firstLower (fun x => String.eqb x (toLowerCase n)) headers) as [x|] eqn:Eexact.
  - intros [= ->]. apply firstLower_Some in Eexact. destruct Eexact as [Hin Heq].
    apply String.eqb_eq in Heq. split; [exact Hin|]. exists n.
    rewrite Heq, includes_refl. tauto.
  - destruct (firstLower (fun x => includes x (toLowerCase n)) headers) as [x|] eqn:Epart.
    + intros [= ->]. apply firstLower_Some in Epart. destruct Epart as [Hin Hinc].
      split; [exact Hin|]. exists n. tauto.
    + intros H. destruct (IH H) as (Hin & name & Hname & Hinc).
      split; [exact Hin|]. exists name. tauto.
Qed.



Lemma findHeaderMatch_key_nonEmpty (hs : list string) (keyColumn : string) :
  findHeaderMatch hs ["Key"; "Issue key"; "ID"] = Some keyColumn ->
  nonEmpty keyColumn = true.
Proof.
  intros H. apply findHeaderMatch_header in H. destruct H as (_ & name & Hname & Hinc).
  destruct keyColumn; [|reflexivity]. exfalso.
  destruct Hname as [<-|[<-|[<-|[]]]]; discriminate.
Qed.

Lemma filter_length_zero {A} (f : A -> bool) (l : list A) :
  length (List.filter f l) = 0%nat <-> forall x, In x l -> f x = false.
Proof.
  split.
  - intros H x Hx. destruct (f x) eqn:E; [|reflexivity]. exfalso.
    assert (Hin : In x (List.filter f l)) by (apply filter_In; tauto).
    destruct (List.filter f l); [destruct Hin | discriminate].
  - intros H. rewrite filter_none by exact H. reflexivity.
Qed.

(** X30.  Time data with records is reported as valid exactly when it has
    a key column and some epic has a row: a record whose cell under the
    key column equals the epic's id. *)
Theorem validateTimeData_valid (data : MainCSV) (rs : list Record_) (epics : list Epic.t)
    (result : TimeValidation) :
  records data = Some rs -> rs <> [] ->
  validateTimeData (Some data) epics = Ok result ->
  (timeValid result = true <->
   exists hs keyColumn epic record,
     headers data = Some hs /\
     findHeaderMatch hs ["Key"; "Issue key"; "ID"] = Some keyColumn /\
     In epic epics /\ In record rs /\ record !! keyColumn = Epic.id epic).
Proof.
  intros Hrs Hne. unfold validateTimeData. rewrite Hrs.
  destruct rs as [|r rs']; [congruence|]. set (rs := r :: rs') in *.
  cbn [length Nat.eqb]. destruct (headers data) as [hs|]; [|discriminate].
  destruct (findHeaderMatch hs ["Key"; "Issue key"; "ID"]) as [keyColumn|] eqn:Hkey.
  - cbn [truthyStr]. rewrite (findHeaderMatch_key_nonEmpty hs keyColumn Hkey).
    cbn [negb]. cbv zeta.
    set (timeKeys := newSet (map (fun record => cell record (Some keyColumn)) rs) []).
    set (epicKeys := newSet (map Epic.id epics) []).
    destruct (newSet_spec (map (fun record => cell record (Some keyColumn)) rs) []
                (NoDup_nil_2 (A := option string))) as [_ Htime].
    destruct (newSet_spec (map Epic.id epics) [] (NoDup_nil_2 (A := option string)))
      as [_ Hepic].
    fold timeKeys in Htime. fold epicKeys in Hepic.
    assert (Hsome : forall epic record,
               In epic epics -> In record rs -> record !! keyColumn = Epic.id epic ->
               length (List.filter (setHas timeKeys) epicKeys) <> 0%nat).
    { intros epic record He Hr Heq Hzero.
      assert (Hin : In (Epic.id epic) epicKeys)
        by (apply Hepic; right; apply in_map; exact He).
      pose proof (proj1 (filter_length_zero _ _) Hzero _ Hin) as Hno. unfold setHas in Hno.
      assert (Hhas : existsb (sameValue (Epic.id epic)) timeKeys = true).
      { apply existsb_sameValue, Htime. right. rewrite <- Heq.
        apply (in_map (fun record => cell record (Some keyColumn))) in Hr. exact Hr. }
      congruence. }
    assert (Hfound : length (List.filter (setHas timeKeys) epicKeys) <> 0%nat ->
                     exists epic record,
                       In epic epics /\ In record rs /\ record !! keyColumn = Epic.id epic).
    { intros Hpos. destruct (List.filter (setHas timeKeys) epicKeys) as [|key ks] eqn:E;
        [exfalso; apply Hpos; reflexivity|].
      assert (Hk : In key (List.filter (setHas timeKeys) epicKeys)) by (rewrite E; left; reflexivity).
      apply filter_In in Hk. destruct Hk as [Hk Hhas].
      apply existsb_sameValue, Htime in Hhas. destruct Hhas as [[]|Hhas].
      apply Hepic in Hk. destruct Hk as [[]|Hk].
      apply in_map_iff in Hhas. destruct Hhas as (record & Hcell & Hr).
      apply in_map_iff in Hk. destruct Hk as (epic & Hid & He).
      exists epic, record. split; [exact He|]. split; [exact Hr|].
      unfold cell in Hcell. simpl in Hcell. congruence. }
    destruct (Nat.eqb_spec (length (List.filter (setHas timeKeys) epicKeys)) 0)
      as [Hzero|Hpos]; intros [= <-]; cbn [timeValid].
    + split; [discriminate|]. intros (hs' & k' & epic & record & Hhs & Hk' & He & Hr & Heq).
      exfalso. injection Hhs as <-. rewrite Hkey in Hk'. injection Hk' as <-.
      exact (Hsome epic record He Hr Heq Hzero).
    + split; [|reflexivity]. intros _.
      destruct (Hfound Hpos) as (epic & record & H).
      exists hs, keyColumn, epic, record. tauto.
  - cbn [truthyStr negb]. intros [= <-]. cbn [timeValid].
    split; [discriminate|]. intros (hs' & k' & ? & ? & Hhs & Hk' & _).
    injection Hhs as <-. congruence.
Qed.

Lemma validateTimeData_valid_witness :
  timeValid {| timeValid := true; timeWarnings := [] |} = true <->
  exists hs keyColumn epic (record : Record_),
    headers sampleTimeCSV = Some hs /\
    findHeaderMatch hs ["Key"; "Issue key"; "ID"] = Some keyColumn /\
    In epic (epics sampleHierarchy) /\
    In record [{["Key" := "EPIC-1"; "In Progress" := "3d"]}] /\
    record !! keyColumn = Epic.id epic.
Proof.
  apply (validateTimeData_valid sampleTimeCSV
           [{["Key" := "EPIC-1"; "In Progress" := "3d"]}] (epics sampleHierarchy)
           {| timeValid := true; timeWarnings := [] |}).
  - reflexivity.
  - discriminate.
  - vm_compute. reflexivity.
Defined.
